(** * Work partitioning, accumulation and source filtering of the OpenQuake engine

    A shallow embedding of the parts of [openquake/baselib/general.py]
    ([WeightedSequence], [block_splitter], [split_in_slices], [AccumDict])
    and of [openquake/hazardlib/calc/filters.py] ([context], [SourceFilter])
    together with the properties stated about them.

    Conventions.  Python integers are [Z].  Weights are exact integers.
    A float is a pair of a mantissa and an exponent; the quotient of two
    integers and the conversion of an integer are rounded to the nearest
    binary64 number.  Coordinates are rationals.  A generator is the list
    of the values it yields, paired with the exception that ended it, if
    any.  Mutable list and dict objects live in an explicit store and are
    referred to by location. *)

From Stdlib Require Import ZArith QArith Qminmax Qabs Lia Lqa Ascii.
From stdpp Require Import base list sorting gmap strings.

Local Open Scope Z_scope.

(** ** Python built-ins used by the code *)

(** The exception classes raised by [general.py]; messages are not modelled
    in this part. *)
Inductive exc :=
  | ValueError | IndexError | KeyError | TypeError
  | AssertionError | AttributeError
  | OverflowError | ZeroDivisionError.

#[global] Instance exc_eq_dec : EqDecision exc.
Proof. solve_decision. Defined.

(** A subscript: an integer or a slice [start:stop] (step [None]). *)
Inductive subscript :=
  | Index (i : Z)
  | SliceOf (start stop : option Z).

Section PyList.
Context {A : Type}.

Definition len (l : list A) : Z := Z.of_nat (length l).

(** [slice.indices] for step [None]: negative bounds count from the end,
    everything is clamped to [0, len]. *)
Definition clamp (n : Z) (b : Z) : Z :=
  if b <? 0 then Z.max (b + n) 0 else Z.min b n.

Definition slice_bounds (l : list A) (start stop : option Z) : Z * Z :=
  let n := len l in
  let lo := match start with None => 0 | Some s => clamp n s end in
  let hi := match stop with None => n | Some s => clamp n s end in
  (lo, Z.max lo hi).

(** [list.insert(i, x)] *)
Definition list_insert_at (l : list A) (i : Z) (x : A) : list A :=
  let p := Z.to_nat (clamp (len l) i) in
  take p l ++ x :: drop p l.

(** [l[lo:hi] = vs] on normalized bounds *)
Definition splice (l : list A) (lo hi : Z) (vs : list A) : list A :=
  take (Z.to_nat lo) l ++ vs ++ drop (Z.to_nat hi) l.

(** An integer subscript is valid in [-len, len). *)
Definition norm_index (l : list A) (i : Z) : option nat :=
  let n := len l in
  let j := if i <? 0 then i + n else i in
  if (0 <=? j) && (j <? n) then Some (Z.to_nat j) else None.

(** [l[i] = v] *)
Definition list_setitem (l : list A) (i : Z) (v : A) : exc + list A :=
  match norm_index l i with
  | Some j => inr (<[j := v]> l)
  | None => inl IndexError
  end.

(** [l[start:stop] = vs] *)
Definition list_setslice (l : list A) (start stop : option Z) (vs : list A)
  : list A :=
  let '(lo, hi) := slice_bounds l start stop in splice l lo hi vs.

(** [del l[s]] *)
Definition list_delitem (l : list A) (s : subscript) : exc + list A :=
  match s with
  | Index i =>
      match norm_index l i with
      | Some j => inr (take j l ++ drop (S j) l)
      | None => inl IndexError
      end
  | SliceOf start stop => inr (list_setslice l start stop [])
  end.
End PyList.

(** *** Floats *)

(** The integer nearest to [a / b] for [b > 0], ties to the even one. *)
Definition round_half_even (a b : Z) : Z :=
  let q := a / b in
  let r := a mod b in
  if 2 * r <? b then q
  else if b <? 2 * r then q + 1
  else if Z.even q then q else q + 1.

(** [floor(log2(a / b))] for positive [a] and [b]. *)
Definition binade (a b : Z) : Z :=
  let d := Z.log2 a - Z.log2 b in
  if a * 2 ^ Z.max 0 (- d) <? b * 2 ^ Z.max 0 d then d - 1 else d.

(** A finite float: the number [mant * 2 ^ expo]. *)
Record float := mkfloat { mant : Z; expo : Z }.

(** The binary64 number nearest to [a / b] for positive [a] and [b]:
    53 bits at exponents from -1074 on, ties to even; [None] when the
    rounded quotient is [2 ^ 1024] or more. *)
Definition nearest_float (a b : Z) : option float :=
  let e := Z.max (binade a b - 52) (-1074) in
  let m := round_half_even (a * 2 ^ Z.max 0 (- e)) (b * 2 ^ Z.max 0 e) in
  if 2 ^ 1024 <=? m * 2 ^ Z.max 0 e then None else Some (mkfloat m e).

(** [a / b] on integers: the exact quotient is rounded once, to the
    nearest float. *)
Definition int_true_divide (a b : Z) : exc + float :=
  if b =? 0 then inl ZeroDivisionError
  else if a =? 0 then inr (mkfloat 0 0)
  else match nearest_float (Z.abs a) (Z.abs b) with
       | Some x => inr (mkfloat (Z.sgn a * Z.sgn b * mant x) (expo x))
       | None => inl OverflowError
       end.

(** [math.ceil(x)]: the least integer that is not below [x]. *)
Definition math_ceil (x : float) : Z :=
  if 0 <=? expo x then mant x * 2 ^ expo x
  else - ((- mant x) / 2 ^ (- expo x)).

(** [float(n)] of an integer: the nearest float, [OverflowError] beyond
    the range. *)
Definition float_of_int (n : Z) : exc + float :=
  if n =? 0 then inr (mkfloat 0 0)
  else match nearest_float (Z.abs n) 1 with
       | Some x => inr (mkfloat (Z.sgn n * mant x) (expo x))
       | None => inl OverflowError
       end.

(** [x / y] on floats: [ZeroDivisionError] for a zero divisor, else the
    exact quotient rounded to the nearest float; [None] stands for the
    infinity that an overflow gives. *)
Definition float_truediv (x y : float) : exc + option float :=
  if mant y =? 0 then inl ZeroDivisionError
  else if mant x =? 0 then inr (Some (mkfloat 0 0))
  else
    let a := Z.abs (mant x) * 2 ^ Z.max 0 (expo x - expo y) in
    let b := Z.abs (mant y) * 2 ^ Z.max 0 (expo y - expo x) in
    inr ((λ q, mkfloat (Z.sgn (mant x) * Z.sgn (mant y) * mant q) (expo q))
           <$> nearest_float a b).

(** The ceiling of the quotient [a / b] of two integers, [b > 0], without
    rounding: the number that the ceilings computed through floats are
    compared with. *)
Definition ceil_div (a b : Z) : Z := - ((- a) / b).

(** ** general.py *)

Module General.

(** *** WeightedSequence *)

Module WS.
Section WeightedSequence.
Context {T : Type}.

Record WeightedSequence := mkWS { _seq : list T; weight : Z }.

(** The two forms of [self[i] = v]: one item at an integer subscript, a
    sequence of items at a slice. *)
Inductive assignment :=
  | SetIndex (i : Z) (v : T)
  | SetSlice (start stop : option Z) (vs : list T).

Definition empty_ws : WeightedSequence := {| _seq := []; weight := 0 |}.

Definition __len__ (self : WeightedSequence) : Z := len (_seq self).

(** Truth value of a sequence object: [__len__] is not zero. *)
Definition truthy (self : WeightedSequence) : bool := negb (__len__ self =? 0).

Definition insert (self : WeightedSequence) (i : Z) (item_weight : T * Z)
  : WeightedSequence :=
  let '(item, w) := item_weight in
  {| _seq := list_insert_at (_seq self) i item; weight := weight self + w |}.

(** [MutableSequence.append] and [MutableSequence.extend] *)
Definition append (self : WeightedSequence) (v : T * Z) : WeightedSequence :=
  insert self (__len__ self) v.

Definition extend (self : WeightedSequence) (values : list (T * Z))
  : WeightedSequence :=
  fold_left append values self.

Definition __init__ (seq : list (T * Z)) : WeightedSequence :=
  extend empty_ws seq.

Definition __setitem__ (self : WeightedSequence) (a : assignment)
  : exc + WeightedSequence :=
  match a with
  | SetIndex i v =>
      match list_setitem (_seq self) i v with
      | inr l => inr {| _seq := l; weight := weight self |}
      | inl e => inl e
      end
  | SetSlice a b vs =>
      inr {| _seq := list_setslice (_seq self) a b vs; weight := weight self |}
  end.

Definition __delitem__ (self : WeightedSequence) (sliceobj : subscript)
  : exc + WeightedSequence :=
  match list_delitem (_seq self) sliceobj with
  | inr l => inr {| _seq := l; weight := weight self |}
  | inl e => inl e
  end.

Definition __add__ (self other : WeightedSequence) : WeightedSequence :=
  {| _seq := [] ++ _seq self ++ _seq other;
     weight := weight self + weight other |}.

Definition __lt__ (self other : WeightedSequence) : bool :=
  weight self <? weight other.

(** [all(x == y for x, y in zip(self, other))]; [item_eq] is [==] on items. *)
Definition __eq__ (item_eq : T → T → bool) (self other : WeightedSequence)
  : bool :=
  forallb (λ xy, item_eq xy.1 xy.2) (zip (_seq self) (_seq other)).
End WeightedSequence.

Arguments WeightedSequence : clear implicits.
Arguments assignment : clear implicits.

(** The public operations that change a sequence, and runs of them. *)
Section Operations.
Context {T : Type}.

Inductive operation :=
  | Insert (i : Z) (item_weight : T * Z)
  | Append (item_weight : T * Z)
  | Extend (values : list (T * Z))
  | SetItem (a : assignment T)
  | DelItem (sliceobj : subscript)
  | Add (other : WeightedSequence T).

Definition apply (self : WeightedSequence T) (o : operation)
  : exc + WeightedSequence T :=
  match o with
  | Insert i iw => inr (insert self i iw)
  | Append iw => inr (append self iw)
  | Extend vs => inr (extend self vs)
  | SetItem a => __setitem__ self a
  | DelItem s => __delitem__ self s
  | Add other => inr (__add__ self other)
  end.

Fixpoint apply_all (self : WeightedSequence T) (ops : list operation)
  : exc + WeightedSequence T :=
  match ops with
  | [] => inr self
  | o :: ops =>
      match apply self o with
      | inr self => apply_all self ops
      | inl e => inl e
      end
  end.

(** The sequence stores items only; their weights are given by the
    function used to weigh them. *)
Variable weight_fn : T → Z.

Definition total_weight (l : list T) : Z :=
  foldr (λ x s, weight_fn x + s) 0 l.

Definition weight_invariant (ws : WeightedSequence T) : Prop :=
  weight ws = total_weight (_seq ws).

Definition weighed (item_weight : T * Z) : Prop :=
  item_weight.2 = weight_fn item_weight.1.

(** Operations that add weighed items. *)
Definition adds (o : operation) : Prop :=
  match o with
  | Insert _ iw | Append iw => weighed iw
  | Extend vs => Forall weighed vs
  | Add other => weight_invariant other
  | SetItem _ | DelItem _ => False
  end.

(** A chunk within the bound, or a single item that exceeds it alone. *)
Definition within_bound (max_weight : Z) (ws : WeightedSequence T) : Prop :=
  weight ws = total_weight (_seq ws)
  ∧ (weight ws <= max_weight
     ∨ ∃ x, _seq ws = [x] ∧ max_weight < weight_fn x).
End Operations.
End WS.
Import WS.

(** *** block_splitter *)

Section BlockSplitter.
Context {T K : Type} `{EqDecision K}.
(** The key value that is the string ['Unspecified']. *)
Variable Unspecified : K.
Variable max_weight : Z.
Variable weight_fn : T → Z.
Variable key_fn : T → K.

(** The [for] loop with the chunk being filled and the previous key; the
    result lists the chunks yielded, then the exception raised, if any. *)
Fixpoint block_splitter_loop (items : list T) (ws : WeightedSequence T)
    (prev_key : K) : list (WeightedSequence T) * option exc :=
  match items with
  | [] => (if truthy ws then [ws] else [], None)
  | item :: rest =>
      let w := weight_fn item in
      let k := key_fn item in
      if w <? 0 then ([], Some ValueError)
      else if (weight ws + w >? max_weight) || negb (bool_decide (k = prev_key))
      then
        let new_ws := __init__ [(item, w)] in
        let '(ys, e) := block_splitter_loop rest new_ws k in
        ((if truthy ws then [ws] else []) ++ ys, e)
      else if w >? 0 then block_splitter_loop rest (append ws (item, w)) k
      else block_splitter_loop rest ws k
  end.

Definition block_splitter (items : list T)
  : list (WeightedSequence T) * option exc :=
  if max_weight <=? 0 then ([], Some ValueError)
  else block_splitter_loop items (__init__ []) Unspecified.
End BlockSplitter.

(** *** split_in_slices *)

(** [slice(start, stop)] *)
Record slice := mkslice { start : Z; stop : Z }.


(** The [while True] loop; [None] when the fuel is exhausted. *)
Fixpoint split_in_slices_loop (fuel : nat) (number blocksize : Z)
    (slices : list slice) (start : Z) : option (list slice) :=
  match fuel with
  | O => None
  | S fuel =>
      let stop := Z.min (start + blocksize) number in
      let slices := slices ++ [mkslice start stop] in
      if stop =? number then Some slices
      else split_in_slices_loop fuel number blocksize slices (start + blocksize)
  end.

Definition split_in_slices (fuel : nat) (number num_slices : Z)
  : option (exc + list slice) :=
  if negb (number >? 0) then Some (inl AssertionError)
  else if negb (num_slices >? 0) then Some (inl AssertionError)
  else
    match int_true_divide number num_slices with
    | inl e => Some (inl e)
    | inr quotient =>
        let blocksize := math_ceil quotient in
        inr <$> split_in_slices_loop fuel number blocksize [] 0
    end.

(** Slices that follow one another from [a] to [b], none of them empty. *)
Fixpoint chained (a : Z) (l : list slice) (b : Z) : Prop :=
  match l with
  | [] => a = b
  | s :: l => start s = a ∧ start s < stop s ∧ chained (stop s) l b
  end.

(** *** AccumDict *)

Module AD.

(** A location of the store. *)
Definition loc := positive.

(** The values held by a dictionary: an integer, or a reference to a list
    object.  List objects hold integers. *)
Inductive value :=
  | VInt (n : Z)
  | VList (l : loc).

Section AccumDict.
Context {K : Type} `{EqDecision K}.

(** A [dict] keeps its entries in insertion order. *)
Fixpoint dict_get (k : K) (d : list (K * value)) : option value :=
  match d with
  | [] => None
  | (k', v) :: d => if decide (k = k') then Some v else dict_get k d
  end.

Fixpoint dict_set (k : K) (v : value) (d : list (K * value))
  : list (K * value) :=
  match d with
  | [] => [(k, v)]
  | (k', v') :: d =>
      if decide (k = k') then (k', v) :: d else (k', v') :: dict_set k v d
  end.

Record AccumDict := mkAD { entries : list (K * value); accum : option value }.

(** The store: list objects and dictionary objects, by location. *)
Record store := mkStore {
  lists : gmap loc (list Z);
  dicts : gmap loc AccumDict
}.

(** Computations on the store that may raise. *)
Definition M (A : Type) : Type := store → (exc + A) * store.

#[global] Instance M_ret : MRet M := λ A a σ, (inr a, σ).
#[global] Instance M_bind : MBind M :=
  λ A B f m σ, match m σ with
               | (inr a, σ') => f a σ'
               | (inl e, σ') => (inl e, σ')
               end.
Definition raise {A} (e : exc) : M A := λ σ, (inl e, σ).

(** [try: m  except KeyError: handler] *)
Definition try_except_KeyError {A} (m handler : M A) : M A :=
  λ σ, match m σ with
       | (inl KeyError, σ') => handler σ'
       | r => r
       end.

(** [for x in l: body(x)] *)
Fixpoint for_each {A} (l : list A) (body : A → M unit) : M unit :=
  match l with
  | [] => mret tt
  | x :: l => body x;; for_each l body
  end.

(** References of a running program are never dangling; reading a
    location that holds nothing gives the empty object. *)
Definition read_list (l : loc) : M (list Z) :=
  λ σ, (inr (default [] (lists σ !! l)), σ).
Definition write_list (l : loc) (xs : list Z) : M unit :=
  λ σ, (inr tt, {| lists := <[l := xs]> (lists σ); dicts := dicts σ |}).
Definition alloc_list (xs : list Z) : M loc :=
  λ σ, let l := fresh (dom (lists σ)) in
       (inr l, {| lists := <[l := xs]> (lists σ); dicts := dicts σ |}).

Definition read_dict (d : loc) : M AccumDict :=
  λ σ, (inr (default {| entries := []; accum := None |} (dicts σ !! d)), σ).
Definition write_dict (d : loc) (x : AccumDict) : M unit :=
  λ σ, (inr tt, {| lists := lists σ; dicts := <[d := x]> (dicts σ) |}).
Definition alloc_dict (x : AccumDict) : M loc :=
  λ σ, let d := fresh (dom (dicts σ)) in
       (inr d, {| lists := lists σ; dicts := <[d := x]> (dicts σ) |}).
End AccumDict.

Arguments AccumDict : clear implicits.
Arguments store : clear implicits.
Arguments M : clear implicits.

Section Methods.
Context {K : Type} `{EqDecision K}.
Local Abbreviation M := (M K).

(** [copy.deepcopy] *)
Definition deepcopy (v : value) : M value :=
  match v with
  | VInt n => mret (VInt n)
  | VList l => xs ← read_list l; l' ← alloc_list xs; mret (VList l')
  end.

(** [x + y], [x - y], [isinstance(v, list)], [x.extend(v)] *)
Definition py_add (x y : value) : M value :=
  match x, y with
  | VInt a, VInt b => mret (VInt (a + b))
  | VList a, VList b =>
      xs ← read_list a; ys ← read_list b;
      l ← alloc_list (xs ++ ys); mret (VList l)
  | _, _ => raise TypeError
  end.

Definition py_sub (x y : value) : M value :=
  match x, y with
  | VInt a, VInt b => mret (VInt (a - b))
  | _, _ => raise TypeError
  end.

Definition isinstance_list (v : value) : bool :=
  match v with VList _ => true | VInt _ => false end.

Definition py_extend (x v : value) : M unit :=
  match x with
  | VList a =>
      match v with
      | VList b => xs ← read_list a; ys ← read_list b; write_list a (xs ++ ys)
      | VInt _ => raise TypeError
      end
  | VInt _ => raise AttributeError
  end.

(** [dict.__setitem__] and [dict.__contains__] *)
Definition __setitem__ (self : loc) (key : K) (v : value) : M unit :=
  d ← read_dict self;
  write_dict self {| entries := dict_set key v (entries d); accum := accum d |}.

Definition __contains__ (self : loc) (key : K) : M bool :=
  d ← read_dict self;
  mret (bool_decide (is_Some (dict_get key (entries d)))).

Definition __missing__ (self : loc) (key : K) : M value :=
  d ← read_dict self;
  match accum d with
  | None => raise KeyError
  | Some t => val ← deepcopy t; __setitem__ self key val;; mret val
  end.

(** [dict.__getitem__] of a subclass that defines [__missing__] *)
Definition __getitem__ (self : loc) (key : K) : M value :=
  d ← read_dict self;
  match dict_get key (entries d) with
  | Some v => mret v
  | None => __missing__ self key
  end.

(** [AccumDict(dic, accum)]: a new dictionary with the entries of [dic]. *)
Definition __init__ (dic : option loc) (accum : option value) : M loc :=
  es ← match dic with
       | Some d => x ← read_dict d; mret (entries x)
       | None => mret []
       end;
  alloc_dict {| entries := fold_left (λ acc kv, dict_set kv.1 kv.2 acc) es [];
                accum := accum |}.

(** The right operand of an operator: it has [items()] or it has not. *)
Inductive operand :=
  | Mapping (d : loc)
  | Scalar (v : value).

Definition __iadd__ (self : loc) (other : operand) : M loc :=
  match other with
  | Mapping o =>
      od ← read_dict o;
      for_each (entries od) (λ '(k, v),
        c ← __contains__ self k;
        if negb c then __setitem__ self k v
        else if isinstance_list v then
          x ← __getitem__ self k; py_extend x v
        else
          x ← __getitem__ self k; r ← py_add x v; __setitem__ self k r);;
      mret self
  | Scalar v =>
      d ← read_dict self;
      for_each (entries d).*1 (λ k,
        x ← __getitem__ self k; r ← py_add x v; __setitem__ self k r);;
      mret self
  end.

Definition __add__ (self : loc) (other : operand) : M loc :=
  new ← __init__ (Some self) None;
  __iadd__ new other.

Definition __isub__ (self : loc) (other : operand) : M loc :=
  match other with
  | Mapping o =>
      od ← read_dict o;
      for_each (entries od) (λ '(k, v),
        try_except_KeyError
          (x ← __getitem__ self k; r ← py_sub x v; __setitem__ self k r)
          (__setitem__ self k v));;
      mret self
  | Scalar v =>
      d ← read_dict self;
      for_each (entries d).*1 (λ k,
        x ← __getitem__ self k; r ← py_sub x v; __setitem__ self k r);;
      mret self
  end.

Definition __sub__ (self : loc) (other : operand) : M loc :=
  new ← __init__ (Some self) None;
  __isub__ new other.

(** [self[key] += v] for a list [v]: read, extend in place, store back. *)
Definition getitem_iadd_list (self : loc) (key : K) (v : value) : M unit :=
  x ← __getitem__ self key; py_extend x v;; __setitem__ self key x.

(** Dictionaries of integers. *)
Definition int_valued (d : list (K * value)) : Prop :=
  Forall (λ kv, isinstance_list kv.2 = false) d.

(** The value that [self[k] = self[k] - v], or its [except] branch, stores
    for an integer [v = y] when no accumulator is configured. *)
Definition stored_by_isub (cur : list (K * value)) (k : K) (y : Z) : value :=
  match dict_get k cur with
  | Some (VInt x) => VInt (x - y)
  | _ => VInt y
  end.

(** The three cases of subtraction: [r] is the result for [da - db]. *)
Definition subtraction_policy (da db r : list (K * value)) : Prop :=
  ∀ k,
    (∀ x y, dict_get k da = Some (VInt x) → dict_get k db = Some (VInt y) →
            dict_get k r = Some (VInt (x - y)))
    ∧ (∀ v, dict_get k da = Some v → dict_get k db = None → dict_get k r = Some v)
    ∧ (∀ v, dict_get k da = None → dict_get k db = Some v → dict_get k r = Some v).

(** [v] is a deep copy of [t] made between the stores [σ] and [σ']. *)
Definition deep_copy_of (σ σ' : store K) (t v : value) : Prop :=
  match t with
  | VInt n => v = VInt n ∧ lists σ' = lists σ
  | VList lt =>
      ∃ l', v = VList l' ∧ lists σ !! l' = None
            ∧ lists σ' = <[l' := default [] (lists σ !! lt)]> (lists σ)
  end.
End Methods.

End AD.

End General.

(** ** hazardlib/calc/filters.py *)

Module Filters.

(** An exception class, by what the filter uses of it: its name, and what
    the call [cls(msg)] on one string gives, [inr s] for an instance whose
    [str] is [s] and [inl complaint] when the class does not take one
    string and the call raises [TypeError(complaint)]. *)
Record exn_class := mkClass {
  cname : string;
  instantiate : string → string + string
}.

(** A raised exception: its class and [str(err)]. *)
Record exception := mkExn { etype : exn_class; emsg : string }.

(** [repr] of a string of ASCII characters: between single quotes, or
    between double quotes when it holds a single quote and no double
    quote; the quote, the backslash and the control characters are
    escaped.  Other characters are kept as they are. *)
Definition single_quote : ascii := "039"%char.
Definition double_quote : ascii := "034"%char.
Definition backslash : ascii := "092"%char.

Definition hex_digit (n : N) : ascii :=
  ascii_of_N (if (n <? 10)%N then 48 + n else 87 + n).

Definition repr_char (quote c : ascii) : list ascii :=
  let n := N_of_ascii c in
  if bool_decide (c = quote) || bool_decide (c = backslash) then [backslash; c]
  else if (n =? 9)%N then [backslash; "t"%char]
  else if (n =? 10)%N then [backslash; "n"%char]
  else if (n =? 13)%N then [backslash; "r"%char]
  else if (n <? 32)%N || (n =? 127)%N
  then [backslash; "x"%char; hex_digit (n / 16); hex_digit (n mod 16)]
  else [c].

Definition repr (s : string) : string :=
  let chars := String.list_ascii_of_string s in
  let quote :=
    if bool_decide (single_quote ∈ chars)
       && negb (bool_decide (double_quote ∈ chars))
    then double_quote else single_quote in
  String.string_of_list_ascii
    ([quote] ++ concat (repr_char quote <$> chars) ++ [quote]).

(** Classes of the standard library.  [str] of an exception built from one
    argument is [str] of the argument; [KeyError] overrides it with the
    [repr] of the argument; [UnicodeDecodeError] takes five arguments. *)
Definition one_argument (name : string) : exn_class :=
  {| cname := name; instantiate := inr |}.
Definition class_TypeError : exn_class := one_argument "TypeError".
Definition class_AttributeError : exn_class := one_argument "AttributeError".
Definition class_KeyError : exn_class :=
  {| cname := "KeyError"; instantiate := λ msg, inr (repr msg) |}.

(** The outcome of a call: a value or a raised exception. *)
Definition result (A : Type) : Type := exception + A.

#[global] Instance result_ret : MRet result := λ A a, inr a.
#[global] Instance result_bind : MBind result :=
  λ A B f m, match m with inr a => f a | inl e => inl e end.

(** A bounding box [(min_lon, min_lat, max_lon, max_lat)], in degrees. *)
Definition box : Type := Q * Q * Q * Q.

Definition Qltb (a b : Q) : bool :=
  match (a ?= b)%Q with Lt => true | _ => false end.

(** A seismic source: the attributes the filter reads and writes, and the
    geometry its methods work on. *)
Record source (G : Type) := mkSource {
  source_id : string;
  tectonic_region_type : string;
  nsites : option Z;
  geometry : G
}.
Arguments mkSource {G}.
Arguments source_id {G}.
Arguments tectonic_region_type {G}.
Arguments nsites {G}.
Arguments geometry {G}.

Definition set_nsites {G} (src : source G) (n : Z) : source G :=
  {| source_id := source_id src;
     tectonic_region_type := tectonic_region_type src;
     nsites := Some n;
     geometry := geometry src |}.

(** An instance of [valid.IntegrationDistance], by what the filter uses of
    it: its truth value, [self[trt]] and [self(trt, mag)]. *)
Record policy := mkPolicy {
  pol_bool : bool;
  pol_getitem : string → result Q;
  pol_call : string → Q → result Q
}.

(** The [integration_distance] argument: [None], a scalar or a policy. *)
Inductive distance :=
  | DNone
  | DScalar (d : Q)
  | DPolicy (p : policy).

Definition TypeError (msg : string) : exception :=
  {| etype := class_TypeError; emsg := msg |}.
Definition AttributeError (msg : string) : exception :=
  {| etype := class_AttributeError; emsg := msg |}.

(** Modelled from the spec: [raise_] is defined in
    [openquake.baselib.python3compat], which is not among the sources at
    hand.  The exception is raised again with its class and a new message:
    [raise_(tp, value, tb)] builds [tp(value)] and raises it with the
    traceback [tb]; when [tp(value)] cannot be built the [TypeError] of the
    call is raised instead. *)
Definition raise_ (tp : exn_class) (value : string) : exception :=
  match instantiate tp value with
  | inr s => {| etype := tp; emsg := s |}
  | inl complaint => TypeError complaint
  end.

Definition distance_bool (d : distance) : bool :=
  match d with
  | DNone => false
  | DScalar q => negb (Qeq_bool q 0)
  | DPolicy p => pol_bool p
  end.

(** [d[trt]] *)
Definition distance_getitem (d : distance) (trt : string) : result distance :=
  match d with
  | DNone => inl (TypeError "'NoneType' object is not subscriptable")
  | DScalar _ => inl (TypeError "'float' object is not subscriptable")
  | DPolicy p => q ← pol_getitem p trt; mret (DScalar q)
  end.

(** [d(trt, mag)] *)
Definition distance_call (d : distance) (trt : string) (mag : Q)
  : result distance :=
  match d with
  | DNone => inl (TypeError "'NoneType' object is not callable")
  | DScalar _ => inl (TypeError "'float' object is not callable")
  | DPolicy p => q ← pol_call p trt mag; mret (DScalar q)
  end.

(** The code the filter calls and that lives in other modules: the site
    collections of [openquake.hazardlib.site], [fix_lons_idl] of
    [openquake.hazardlib.geo.utils], the methods of the source classes, and
    the [rtree] library. *)
Class Collaborators := {
  geom : Type;
  SiteCollection : Type;
  rtree_index : Type;
  sitecol_sids : SiteCollection → list Z;
  sitecol_lons : SiteCollection → list Q;
  sitecol_lats : SiteCollection → list Q;
  sitecol_complete : SiteCollection → SiteCollection;
  sitecol_len : SiteCollection → Z;
  FilteredSiteCollection : list Z → SiteCollection → SiteCollection;
  fix_lons_idl : list Q → list Q * bool;
  get_bounding_box : source geom → distance → result box;
  get_min_max_mag : source geom → result (Q * Q);
  filter_sites_by_distance_to_source :
    source geom → distance → SiteCollection → result (option SiteCollection);
  rtree_available : bool;
  rtree_Index : rtree_index;
  rtree_insert : rtree_index → Z → box → rtree_index;
  rtree_intersection : rtree_index → option box → result (list Z)
}.

Section SourceFilter.
Context `{Collaborators}.

(** [with context(src): body]: an exception [err] of the body is caught,
    whatever its class, and [raise_] is called with the class of [err] and
    a message made of the id of the source and [str(err)]. *)
Definition context {A} (src : source geom) (body : result A) : result A :=
  match body with
  | inr a => inr a
  | inl err =>
      let msg := "An error occurred with source id=" +:+ source_id src
                 +:+ ". Error: " +:+ emsg err in
      inl (raise_ (etype err) msg)
  end.

(** The attributes [idl] and [index] exist only when the index was built. *)
Record SourceFilter := mkSourceFilter {
  integration_distance : distance;
  sitecol : option SiteCollection;
  use_rtree : bool;
  idl : option bool;
  index : option rtree_index
}.

Definition __init__ (sitecol : option SiteCollection) (integration_distance : distance)
    (use_rtree : bool) : SourceFilter :=
  let use_rtree :=
    use_rtree && rtree_available &&
    (distance_bool integration_distance && bool_decide (is_Some sitecol)) in
  match use_rtree, sitecol with
  | true, Some sc =>
      let '(fixed_lons, idl) := fix_lons_idl (sitecol_lons sc) in
      let index :=
        fold_left (λ ix '(sid, lon, lat), rtree_insert ix sid (lon, lat, lon, lat))
                  (zip (zip (sitecol_sids sc) fixed_lons) (sitecol_lats sc))
                  rtree_Index in
      {| integration_distance := integration_distance; sitecol := sitecol;
         use_rtree := true; idl := Some idl; index := Some index |}
  | _, _ =>
      {| integration_distance := integration_distance; sitecol := sitecol;
         use_rtree := use_rtree; idl := None; index := None |}
  end.

(** The [try ... except TypeError] at the head of [get_affected_box]. *)
Definition get_maxdist (self : SourceFilter) (src : source geom)
  : result distance :=
  match distance_getitem (integration_distance self)
                         (tectonic_region_type src) with
  | inr d => inr d
  | inl e => if decide (cname (etype e) = "TypeError")
             then inr (integration_distance self) else inl e
  end.

(** [None] is the value of a call that falls off the end of the body. *)
Definition get_affected_box (self : SourceFilter) (src : source geom)
  : result (option box) :=
  maxdist ← get_maxdist self src;
  '(min_lon, min_lat, max_lon, max_lat) ← get_bounding_box src maxdist;
  match idl self with
  | None => inl (AttributeError "'SourceFilter' object has no attribute 'idl'")
  | Some true =>
      if Qltb min_lon 0 && Qltb 0 max_lon then
        mret (Some (max_lon, min_lat, min_lon + 360, max_lat)%Q)
      else if Qltb min_lon 0 && Qltb max_lon 0 then
        mret (Some (min_lon + 360, min_lat, max_lon + 360, max_lat)%Q)
      else if Qltb 0 min_lon && Qltb 0 max_lon then
        mret (Some (min_lon, min_lat, max_lon, max_lat))
      else if Qltb 0 min_lon && Qltb max_lon 0 then
        mret (Some (max_lon + 360, min_lat, min_lon, max_lat)%Q)
      else mret None
  | Some false => mret (Some (min_lon, min_lat, max_lon, max_lat))
  end.

(** One turn of the [for src in sources] loop: the pair yielded, if any. *)
Definition filter_source (self : SourceFilter) (sites : SiteCollection)
    (src : source geom) : result (option (source geom * option SiteCollection)) :=
  if use_rtree self then
    box ← get_affected_box self src;
    ix ← match index self with
         | Some ix => inr ix
         | None =>
             inl (AttributeError "'SourceFilter' object has no attribute 'index'")
         end;
    found ← rtree_intersection ix box;
    let sids := merge_sort Z.le found in
    if negb (len sids =? 0) then
      mret (Some (set_nsites src (len sids),
                  Some (FilteredSiteCollection sids (sitecol_complete sites))))
    else mret None
  else if negb (distance_bool (integration_distance self)) then
    mret (Some (src, Some sites))
  else
    mags ← get_min_max_mag src;
    let max_mag := mags.2 in
    maxdist ← distance_call (integration_distance self)
                            (tectonic_region_type src) max_mag;
    s_sites ← context src (filter_sites_by_distance_to_source src maxdist sites);
    match s_sites with
    | Some s_sites => mret (Some (set_nsites src (sitecol_len s_sites), Some s_sites))
    | None => mret None
    end.

(** The generator: the pairs yielded and the exception that ended it. *)
Fixpoint filter_sources (self : SourceFilter) (sites : SiteCollection)
    (sources : list (source geom))
  : list (source geom * option SiteCollection) * option exception :=
  match sources with
  | [] => ([], None)
  | src :: sources =>
      match filter_source self sites src with
      | inl e => ([], Some e)
      | inr y =>
          let '(ys, e) := filter_sources self sites sources in
          (option_list y ++ ys, e)
      end
  end.

Definition __call__ (self : SourceFilter) (sources : list (source geom))
    (sites : option SiteCollection)
  : list (source geom * option SiteCollection) * option exception :=
  let sites := match sites with None => sitecol self | Some s => Some s end in
  match sitecol self, sites with
  | None, _ => (map (λ source, (source, sites)) sources, None)
  | Some _, Some sites => filter_sources self sites sources
  | Some sc, None => filter_sources self sc sources
  end.

(** The filter restored from the pickled state: [use_rtree] is false and
    the index is lost. *)
Definition __getstate__ (self : SourceFilter) : SourceFilter :=
  __init__ (sitecol self) (integration_distance self) false.
End SourceFilter.

(** *** A plane with exact coordinates *)

(** Modelled from the spec: the geometry of the sources
    ([get_bounding_box], [get_min_max_mag],
    [filter_sites_by_distance_to_source]), the site collections,
    [fix_lons_idl] and the spatial index are not part of this module.  The
    instance below follows the description of the filter: sites are indexed
    as degenerate boxes [(lon, lat, lon, lat)], the bounding box of a source
    is its native box enlarged by the threshold distance, the index returns
    the sites whose box intersects the query box, and distance filtering
    keeps the sites whose distance to the source is within the threshold.
    Distances are measured in the unit of the coordinates. *)
Module Planar.

Inductive method := BoundingBox | MinMaxMag | DistanceFilter.

#[global] Instance method_eq_dec : EqDecision method.
Proof. solve_decision. Defined.

(** A source geometry: its native box, its magnitude range, and the
    method that fails on it, if any, with the exception it raises. *)
Record geometry := mkGeometry {
  native_box : box;
  min_max_mag : Q * Q;
  defect : option (method * exception)
}.

Definition fails (g : geometry) (m : method) : option exception :=
  match defect g with
  | Some (m', e) => if decide (m = m') then Some e else None
  | None => None
  end.

(** A site collection: the ids it holds, and the coordinates of all the
    sites of the complete collection, by id. *)
Record sitecol := mkSitecol { indices : list Z; points : list (Q * Q) }.

Definition point_of (c : sitecol) (sid : Z) : Q * Q :=
  default (0%Q, 0%Q) (points c !! Z.to_nat sid).

Definition complete (c : sitecol) : sitecol :=
  {| indices := seqZ 0 (len (points c)); points := points c |}.

Definition Qmin_list (l : list Q) : Q := foldr Qmin (default 0%Q (head l)) l.
Definition Qmax_list (l : list Q) : Q := foldr Qmax (default 0%Q (head l)) l.

Definition cross_idl (lon1 lon2 : Q) : bool :=
  Qltb (lon1 * lon2) 0 && Qltb 180 (Qabs (lon1 - lon2)).

Definition fix_lons_idl (lons : list Q) : list Q * bool :=
  if cross_idl (Qmin_list lons) (Qmax_list lons)
  then (map (λ lon, if Qltb lon 0 then (lon + 360)%Q else lon) lons, true)
  else (lons, false).

Definition get_bounding_box (src : source geometry) (maxdist : distance)
  : result box :=
  match fails (Filters.geometry src) BoundingBox with
  | Some e => inl e
  | None =>
      match maxdist with
      | DScalar d =>
          let '(min_lon, min_lat, max_lon, max_lat) :=
            native_box (Filters.geometry src) in
          inr (min_lon - d, min_lat - d, max_lon + d, max_lat + d)%Q
      | _ => inl (TypeError "unsupported operand type(s)")
      end
  end.

Definition get_min_max_mag (src : source geometry) : result (Q * Q) :=
  match fails (Filters.geometry src) MinMaxMag with
  | Some e => inl e
  | None => inr (min_max_mag (Filters.geometry src))
  end.

(** The square of the distance from a point to a box. *)
Definition gap (lo hi x : Q) : Q := Qmax 0 (Qmax (lo - x) (x - hi)).

Definition distance2 (b : box) (p : Q * Q) : Q :=
  let '(min_lon, min_lat, max_lon, max_lat) := b in
  (gap min_lon max_lon p.1 * gap min_lon max_lon p.1
   + gap min_lat max_lat p.2 * gap min_lat max_lat p.2)%Q.

Definition filter_sites_by_distance_to_source (src : source geometry)
    (maxdist : distance) (sites : sitecol) : result (option sitecol) :=
  match fails (Filters.geometry src) DistanceFilter with
  | Some e => inl e
  | None =>
      match maxdist with
      | DScalar d =>
          let close :=
            filter (λ sid, Qle_bool (distance2 (native_box (Filters.geometry src))
                                               (point_of sites sid)) (d * d) = true)
                   (indices sites) in
          inr (match close with
               | [] => None
               | _ => Some {| indices := close; points := points sites |}
               end)
      | _ => inl (TypeError "unsupported operand type(s)")
      end
  end.

(** The index: the boxes inserted, with their ids. *)
Definition intersects (a b : box) : bool :=
  let '(a_min_lon, a_min_lat, a_max_lon, a_max_lat) := a in
  let '(b_min_lon, b_min_lat, b_max_lon, b_max_lat) := b in
  Qle_bool a_min_lon b_max_lon && Qle_bool b_min_lon a_max_lon &&
  Qle_bool a_min_lat b_max_lat && Qle_bool b_min_lat a_max_lat.

Definition intersection (ix : list (Z * box)) (q : option box)
  : result (list Z) :=
  match q with
  | Some q => inr (map fst (filter (λ e, intersects e.2 q = true) ix))
  | None => inl (TypeError "'NoneType' object is not iterable")
  end.

(** Modelled from the spec: the collaborators of the filter, on the plane. *)
#[global] Instance planar : Collaborators := {|
  geom := geometry;
  SiteCollection := sitecol;
  rtree_index := list (Z * box);
  sitecol_sids := indices;
  sitecol_lons := λ c, map (λ sid, (point_of c sid).1) (indices c);
  sitecol_lats := λ c, map (λ sid, (point_of c sid).2) (indices c);
  sitecol_complete := complete;
  sitecol_len := λ c, len (indices c);
  FilteredSiteCollection := λ sids c, {| indices := sids; points := points c |};
  Filters.fix_lons_idl := fix_lons_idl;
  Filters.get_bounding_box := get_bounding_box;
  Filters.get_min_max_mag := get_min_max_mag;
  Filters.filter_sites_by_distance_to_source := filter_sites_by_distance_to_source;
  rtree_available := true;
  rtree_Index := [];
  rtree_insert := λ ix sid b, ix ++ [(sid, b)];
  rtree_intersection := intersection
|}.

(** A policy that gives the same distance for every region and magnitude. *)
Definition uniform (d : Q) : policy :=
  {| pol_bool := true;
     pol_getitem := λ _, inr d;
     pol_call := λ _ _, inr d |}.

Definition point_source (id : string) (lon lat : Q)
    (defect : option (method * exception)) : source geometry :=
  {| source_id := id; tectonic_region_type := "Active Shallow Crust";
     nsites := None;
     Filters.geometry := {| native_box := (lon, lat, lon, lat);
                            min_max_mag := (5, 7)%Q;
                            defect := defect |} |}.

Definition sitecol_of (pts : list (Q * Q)) : sitecol :=
  {| indices := seqZ 0 (len pts); points := pts |}.
End Planar.

End Filters.

(** ** Concrete inputs *)

Module Examples.
Import General General.AD Filters.

(** [a = AccumDict({'x': [1]})] at location 1, [b = {'x': [2]}] at
    location 2; the two lists are the list objects 1 and 2. *)
Definition two_lists : store string :=
  {| lists := {[ 1%positive := [1]; 2%positive := [2] ]};
     dicts := {[ 1%positive := {| entries := [("x", VList 1%positive)];
                                  accum := None |};
                 2%positive := {| entries := [("x", VList 2%positive)];
                                  accum := None |} ]} |}.

(** [a = AccumDict(accum=0)] at location 1, [b = {'k': 5}] at location 2. *)
Definition zero_template : store string :=
  {| lists := ∅;
     dicts := {[ 1%positive := {| entries := []; accum := Some (VInt 0) |};
                 2%positive := {| entries := [("k", VInt 5)];
                                  accum := None |} ]} |}.

(** [a = AccumDict({'x': 5, 'y': 1})] at location 1 and
    [b = {'x': 2, 'z': 7}] at location 2. *)
Definition a_entries : AccumDict string :=
  {| entries := [("x", VInt 5); ("y", VInt 1)]; accum := None |}.
Definition b_entries : AccumDict string :=
  {| entries := [("x", VInt 2); ("z", VInt 7)]; accum := None |}.
Definition two_numbers : store string :=
  {| lists := ∅;
     dicts := {[ 1%positive := a_entries; 2%positive := b_entries ]} |}.

(** [acc = AccumDict(accum=[])] at location 1; the template is the list
    object 1 and the list object 2 is [[1]]. *)
Definition list_template_dict : AccumDict string :=
  {| entries := []; accum := Some (VList 1%positive) |}.
Definition list_template : store string :=
  {| lists := {[ 1%positive := []; 2%positive := [1] ]};
     dicts := {[ 1%positive := list_template_dict ]} |}.

(** One site at [(3, 4)], one at the origin, and two sites on both sides
    of the date line. *)
Definition corner_site : Planar.sitecol := Planar.sitecol_of [(3, 4)%Q].
Definition origin_site : Planar.sitecol := Planar.sitecol_of [(0, 0)%Q].
Definition date_line_sites : Planar.sitecol :=
  Planar.sitecol_of [(179, 0)%Q; (-179, 0)%Q].

Definition within_4 : distance := DPolicy (Planar.uniform 4).

Definition src_origin : source Planar.geometry :=
  Planar.point_source "src-1" 0 0 None.
Definition src_lon_4 : source Planar.geometry :=
  Planar.point_source "src-3" 4 0 None.
Definition src_greenwich : source Planar.geometry :=
  Planar.point_source "src-7" 1 0 None.

(** Two sites on both sides of the date line at the latitude 50, and one
    at [(1, 0)]. *)
Definition far_sites : Planar.sitecol :=
  Planar.sitecol_of [(179, 50)%Q; (-179, 50)%Q; (1, 0)%Q].


(** Two more failures of distance filtering: a [KeyError] for a missing
    region, and a [UnicodeDecodeError]. *)
Definition missing_region : exception :=
  {| etype := class_KeyError; emsg := repr "Volcanic" |}.
Definition src_no_region : source Planar.geometry :=
  Planar.point_source "src-8" 0 0 (Some (Planar.DistanceFilter, missing_region)).
End Examples.

(** ** More of general.py *)

Module Slices.
Import General.

(** [gen_slices]: the [while True] loop, which yields before it tests;
    [None] when the fuel is exhausted. *)
Fixpoint gen_slices_loop (fuel : nat) (start stop blocksize : Z)
  : option (list slice) :=
  match fuel with
  | O => None
  | S fuel =>
      let s := mkslice start (Z.min (start + blocksize) stop) in
      let start := start + blocksize in
      if start >=? stop then Some [s]
      else (s ::.) <$> gen_slices_loop fuel start stop blocksize
  end.

Definition gen_slices (fuel : nat) (start stop blocksize : Z)
  : option (list slice * option exc) :=
  if negb (start <=? stop) then Some ([], Some AssertionError)
  else if negb (blocksize >? 0) then Some ([], Some AssertionError)
  else (λ l, (l, None)) <$> gen_slices_loop fuel start stop blocksize.

End Slices.

Module Keys.
Section Keys.
Context `{Countable K}.

(** [duplicated]: [len(items) > len(set(items))] *)
Definition duplicated (items : list K) : bool :=
  bool_decide (size (list_to_set items : gset K) < length items)%nat.

(** [distinct]: the loop with the set [known] and the list [outlist]. *)
Fixpoint distinct_loop (keys : list K) (known : gset K) (outlist : list K)
  : list K :=
  match keys with
  | [] => outlist
  | key :: keys =>
      let outlist :=
        if decide (key ∈ known) then outlist else outlist ++ [key] in
      distinct_loop keys ({[key]} ∪ known) outlist
  end.

Definition distinct (keys : list K) : list K := distinct_loop keys ∅ [].
End Keys.

End Keys.

Module Grouping.

(** A [dict] with its entries in insertion order. *)
Section Dict.
Context {K V : Type} `{EqDecision K}.

Fixpoint dget (k : K) (d : list (K * V)) : option V :=
  match d with
  | [] => None
  | (k', v) :: d => if decide (k = k') then Some v else dget k d
  end.

Fixpoint dset (k : K) (v : V) (d : list (K * V)) : list (K * V) :=
  match d with
  | [] => [(k, v)]
  | (k', v') :: d =>
      if decide (k = k') then (k', v) :: d else (k', v') :: dset k v d
  end.
End Dict.

Section Groupby.
Context {A K V : Type} `{EqDecision K}.
(** [<] on keys *)
Variable lt : K → K → bool.
Variable key : A → K.

(** [sorted(objects, key=key)]: the sort is stable, so an object goes
    before the first one whose key is not smaller than its own. *)
Fixpoint insort (x : A) (l : list A) : list A :=
  match l with
  | [] => [x]
  | y :: l' => if lt (key y) (key x) then y :: insort x l' else x :: y :: l'
  end.

Definition sorted (objects : list A) : list A := foldr insort [] objects.

(** No object is followed by one with a smaller key. *)
Definition ordered (l : list A) : Prop :=
  StronglySorted (λ a b, lt (key b) (key a) = false) l.

(** [itertools.groupby(l, key)]: the runs of objects with equal keys. *)
Fixpoint itertools_groupby (l : list A) : list (K * list A) :=
  match l with
  | [] => []
  | x :: l =>
      match itertools_groupby l with
      | (k, g) :: gs =>
          if decide (key x = k) then (k, x :: g) :: gs
          else (key x, [x]) :: (k, g) :: gs
      | [] => [(key x, [x])]
      end
  end.

Definition groupby (objects : list A) (reducegroup : list A → V)
  : list (K * V) :=
  let kgroups := itertools_groupby (sorted objects) in
  fold_left (λ d kg, dset kg.1 (reducegroup kg.2) d) kgroups [].
End Groupby.

(** [count]: [sum(1 for row in groupiter)] *)
Definition count {A} (groupiter : list A) : Z :=
  foldr (λ _ n, 1 + n) 0 groupiter.

(** [countby]; [kgetter] is the [operator.itemgetter] of the key fields. *)
Definition countby {A K} `{EqDecision K} (lt : K → K → bool)
    (array : list A) (kgetter : A → K) : list (K * Z) :=
  groupby lt kgetter array count.

End Grouping.

Module Partition.
Import General General.WS Grouping.

Section Partition.
Context {T K : Type} `{EqDecision K}.

(** The sum of the [weight] attributes of chunks. *)
Definition chunks_weight (chunks : list (WeightedSequence T)) : Z :=
  foldr (λ ws s, weight ws + s) 0 chunks.

(** [<] on the tuples [(key(item), weight(item))]: by the keys when they
    differ, else by the weights. *)
Definition lt_tuple (lt : K → K → bool) (a b : K * Z) : bool :=
  if decide (a.1 = b.1) then a.2 <? b.2 else lt a.1 b.1.

(** The first argument of [split_in_blocks]: an integer or a sequence. *)
Inductive sequence :=
  | Count (n : Z)
  | Items (items : list T).

(** What [split_in_blocks] returns: the slices of [split_in_slices], the
    list [[sequence]], the groups by key, or the generator of
    [block_splitter]. *)
Inductive blocks :=
  | Slices (slices : list slice)
  | Unsplit (sequence : list T)
  | Groups (groups : list (list T))
  | Chunks (gen : list (WeightedSequence T) * option exc).

Variable Unspecified : K.
Variable lt : K → K → bool.

(** [key] is [None] for the default [nokey].  The sum of the weights is
    converted to a float, [hint] is converted by the division, and the
    quotient is a float; [math.ceil] of an infinity raises
    [OverflowError]. *)
Definition split_in_blocks (fuel : nat) (sequence : sequence) (hint : Z)
    (weight : T → Z) (key : option (T → K)) : option (exc + blocks) :=
  let key_fn := default (λ _, Unspecified) key in
  let key_is_nokey := match key with None => true | Some _ => false end in
  match sequence with
  | Count n => sum_map id Slices <$> split_in_slices fuel n hint
  | Items sequence =>
      let hint_in_0_1 := bool_decide (hint = 0) || bool_decide (hint = 1) in
      if hint_in_0_1 && key_is_nokey then Some (inr (Unsplit sequence))
      else if hint_in_0_1 then
        Some (inr (Groups (groupby lt key_fn sequence id).*2))
      else
        let items :=
          sorted (lt_tuple lt) (λ item, (key_fn item, weight item)) sequence in
        if negb (hint >? 0) then Some (inl AssertionError)
        else if negb (len items >? 0) then Some (inl AssertionError)
        else
          match float_of_int (total_weight weight items) with
          | inl e => Some (inl e)
          | inr total =>
              match float_of_int hint with
              | inl e => Some (inl e)
              | inr divisor =>
                  match float_truediv total divisor with
                  | inl e => Some (inl e)
                  | inr None => Some (inl OverflowError)
                  | inr (Some quotient) =>
                      Some (inr (Chunks (block_splitter Unspecified
                                           (math_ceil quotient)
                                           weight key_fn items)))
                  end
              end
          end
  end.
End Partition.
End Partition.

Module Indices.
Import Grouping.

Section Indices.
Context {K : Type} `{EqDecision K}.

(** [get_indices]: the loop over the runs of [itertools.groupby(integers)].
    [indices] is the [AccumDict(accum=[])]: a key that is missing reads as a
    new empty list, and [append] adds the pair [(start, start + n)] to the
    list of the key. *)
Fixpoint get_indices_loop (groups : list (K * list K)) (start : Z)
    (indices : list (K * list (Z * Z))) : list (K * list (Z * Z)) :=
  match groups with
  | [] => indices
  | (i, vals) :: groups =>
      let n := count vals in
      let indices :=
        dset i (default [] (dget i indices) ++ [(start, start + n)]) indices in
      get_indices_loop groups (start + n) indices
  end.

Definition get_indices (integers : list K) : list (K * list (Z * Z)) :=
  get_indices_loop (itertools_groupby id integers) 0 [].
(** The pairs listed for a value cover the positions where it stands. *)
Definition covers (indices : list (K * list (Z * Z))) (pre : list K) : Prop :=
  ∀ (p : nat) v, pre !! p = Some v ↔
    ∃ ranges a b, dget v indices = Some ranges ∧ (a, b) ∈ ranges
                  ∧ a <= Z.of_nat p < b.

End Indices.
End Indices.

Module Accum.
Import General General.AD.

Section Accum.
Context {K : Type} `{EqDecision K}.
Local Abbreviation M := (M K).

(** [-v] *)
Definition py_neg (v : value) : M value :=
  match v with
  | VInt n => mret (VInt (- n))
  | VList _ => raise TypeError
  end.

(** [{k: f(v) for k, v in items}] *)
Fixpoint comprehension (f : value → M value) (items new : list (K * value))
  : M (list (K * value)) :=
  match items with
  | [] => mret new
  | (k, v) :: items => r ← f v; comprehension f items (dict_set k r new)
  end.

(** [self.__class__({k: -v for k, v in self.items()})] *)
Definition __neg__ (self : loc) : M loc :=
  d ← read_dict self;
  es ← comprehension py_neg (entries d) [];
  tmp ← alloc_dict {| entries := es; accum := None |};
  __init__ (Some tmp) None.

Definition __rsub__ (self : loc) (other : operand) : M loc :=
  r ← __sub__ self other; __neg__ r.

(** The value that [a += b] stores under [k] for an integer [b[k] = y]. *)
Definition stored_by_iadd (cur : list (K * value)) (k : K) (y : Z) : value :=
  match dict_get k cur with
  | Some (VInt x) => VInt (x + y)
  | _ => VInt y
  end.

(** Addition by key: [r] is the result for [da + db]. *)
Definition addition_policy (da db r : list (K * value)) : Prop :=
  ∀ k,
    (∀ x y, dict_get k da = Some (VInt x) → dict_get k db = Some (VInt y) →
            dict_get k r = Some (VInt (x + y)))
    ∧ (∀ v, dict_get k da = Some v → dict_get k db = None → dict_get k r = Some v)
    ∧ (∀ v, dict_get k da = None → dict_get k db = Some v → dict_get k r = Some v)
    ∧ (dict_get k da = None → dict_get k db = None → dict_get k r = None).

(** [other - self] as [__rsub__] computes it, by key. *)
Definition reflected_subtraction_policy (self other r : list (K * value)) : Prop :=
  ∀ k,
    (∀ x y, dict_get k self = Some (VInt x) → dict_get k other = Some (VInt y) →
            dict_get k r = Some (VInt (y - x)))
    ∧ (∀ x, dict_get k self = Some (VInt x) → dict_get k other = None →
            dict_get k r = Some (VInt (- x)))
    ∧ (∀ y, dict_get k self = None → dict_get k other = Some (VInt y) →
            dict_get k r = Some (VInt (- y)))
    ∧ (dict_get k self = None → dict_get k other = None → dict_get k r = None).

(** [-v] on an integer value. *)
Definition negated (v : value) : value :=
  match v with
  | VInt x => VInt (- x)
  | VList l => VList l
  end.

(** The list objects after [x.extend(x)] for each list [x] of [es]. *)
Definition extended_by_themselves (es : list (K * value)) (m : gmap loc (list Z))
  : gmap loc (list Z) :=
  fold_left (λ m kv, match kv.2 with
                     | VList l => <[l := default [] (m !! l) ++ default [] (m !! l)]> m
                     | VInt _ => m
                     end) es m.

(** [v + n] and [v - n] on an integer value. *)
Definition shift (n : Z) (v : value) : value :=
  match v with
  | VInt x => VInt (x + n)
  | VList l => VList l
  end.
End Accum.
End Accum.

Module Sequences.
Import General General.WS.

Section Sequences.
Context {T : Type}.

(** [sum(ws_list, cls())] *)
Definition merge (ws_list : list (WeightedSequence T)) : WeightedSequence T :=
  fold_left __add__ ws_list (__init__ []).
End Sequences.
End Sequences.

Module Registry.
Import Grouping.

Section CallableDict.
Context {K Obj Args R : Type} `{EqDecision K}.

(** The functions held by the dictionary are called with the object and
    the other arguments; a call returns or raises. *)
Definition implementation : Type := Obj → Args → exc + R.

(** [keymissing] is [None] when the attribute is not callable. *)
Record CallableDict := mkCallableDict {
  functions : list (K * implementation);
  keyfunc : Obj → K;
  keymissing : option implementation
}.

Definition __init__ (keyfunc : Obj → K) (keymissing : option implementation)
  : CallableDict :=
  {| functions := []; keyfunc := keyfunc; keymissing := keymissing |}.

(** [self.add(key, ...)(func)]: the decorator stores [func] under each key. *)
Definition add (self : CallableDict) (keys : list K) (func : implementation)
  : CallableDict :=
  fold_left (λ self key, {| functions := dset key func (functions self);
                            keyfunc := keyfunc self;
                            keymissing := keymissing self |}) keys self.

Definition __missing__ (self : CallableDict) (key : K) : exc + implementation :=
  match keymissing self with
  | Some f => inr f
  | None => inl KeyError
  end.

Definition __getitem__ (self : CallableDict) (key : K) : exc + implementation :=
  match dget key (functions self) with
  | Some f => inr f
  | None => __missing__ self key
  end.

Definition __call__ (self : CallableDict) (obj : Obj) (args : Args) : exc + R :=
  let key := keyfunc self obj in
  match __getitem__ self key with
  | inr f => f obj args
  | inl e => inl e
  end.

(** A run of registrations [self.add(keys)(func)], in the order given. *)
Definition register_all (self : CallableDict)
    (registrations : list (list K * implementation)) : CallableDict :=
  fold_left (λ self r, add self r.1 r.2) registrations self.
End CallableDict.

Arguments CallableDict : clear implicits.
Arguments implementation : clear implicits.
End Registry.

Module MultiIndex.

Definition TWO16 : Z := 2 ^ 16.

(** An element of a yielded tuple: an index or [slice(None)]. *)
Inductive index :=
  | At (i : Z)
  | SliceNone.

Definition range (s : Z) : list Z := seqZ 0 s.

(** [itertools.product] of the ranges: the last range varies fastest. *)
Definition product (ranges : list (list Z)) : list (list Z) :=
  foldr (λ r tuples, r ≫= λ x, (x ::.) <$> tuples) [[]] ranges.

(** [lst.insert(axis, x)]; an [axis] that is [None] is not an integer. *)
Definition insert (lst : list index) (axis : option Z) (x : index)
  : exc + list index :=
  match axis with
  | Some i => inr (list_insert_at lst i x)
  | None => inl TypeError
  end.

(** The [for tup in itertools.product(...)] loop. *)
Fixpoint multi_index_loop (axis : option Z) (tuples : list (list Z))
  : list (list index) * option exc :=
  match tuples with
  | [] => ([], None)
  | tup :: tuples =>
      match insert (At <$> tup) axis SliceNone with
      | inl e => ([], Some e)
      | inr lst =>
          let '(ys, e) := multi_index_loop axis tuples in (lst :: ys, e)
      end
  end.

(** [ranges] is a generator expression: the [product] of the [yield from]
    uses it up, and the [product] of the loop that follows gets no range. *)
Definition multi_index (shape : list Z) (axis : option Z)
  : list (list index) * option exc :=
  if existsb (λ s, s >=? TWO16) shape then ([], Some ValueError)
  else
    let ranges := range <$> shape in
    let '(first, ranges) :=
      match axis return list (list index) * list (list Z) with
      | None => ((λ tup : list Z, At <$> tup) <$> product ranges, [])
      | Some _ => ([], ranges)
      end in
    let '(ys, e) := multi_index_loop axis (product ranges) in
    (first ++ ys, e).
End MultiIndex.

(** ** More of filters.py *)

Module SourceSites.
Import Filters.

Section SourceSites.
Context `{Collaborators}.

(** [get_rectangle]: unpacking the [None] that [get_affected_box] may
    return raises [TypeError]. *)
Definition get_rectangle (self : SourceFilter) (src : source geom)
  : result ((Q * Q) * Q * Q) :=
  box ← get_affected_box self src;
  match box with
  | Some (min_lon, min_lat, max_lon, max_lat) =>
      mret ((min_lon, min_lat), max_lon - min_lon, max_lat - min_lat)%Q
  | None => inl (TypeError "cannot unpack non-iterable NoneType object")
  end.

(** [get_close_sites]: [list(self([source]))] raises what the generator
    raises; the result is [None] when nothing was yielded. *)
Definition get_close_sites (self : SourceFilter) (source : source geom)
  : result (option SiteCollection) :=
  match __call__ self [source] None with
  | (_, Some e) => inl e
  | ([], None) => mret None
  | (source_sites :: _, None) => mret source_sites.2
  end.

Definition source_site_noop_filter : SourceFilter := __init__ None DNone true.

(** Two sources that differ at most in [nsites]. *)
Definition same_source (a b : source geom) : Prop :=
  source_id a = source_id b
  ∧ tectonic_region_type a = tectonic_region_type b
  ∧ geometry a = geometry b.
End SourceSites.
End SourceSites.

Module Records.
Import General Grouping.

(** [groupby2]; [kgetter] and [vgetter] are the [operator.itemgetter] of
    the key and of the value fields, and [list(dic.items())] is the list
    of the entries of the dictionary, in its order. *)
Definition groupby2 {A K V} `{EqDecision K} (lt : K → K → bool)
    (records : list A) (kgetter : A → K) (vgetter : A → V) : list (K * list V) :=
  let dic := groupby lt kgetter records (λ rows, vgetter <$> rows) in
  dic.
End Records.

(** ** More concrete inputs *)

Module MoreExamples.
Import General General.AD Filters.

(** [a = AccumDict({'x': 5})] at location 1 and [b = {'y': [1]}] at
    location 2; the list is the list object 1. *)
Definition number_and_list : store string :=
  {| lists := {[ 1%positive := [1] ]};
     dicts := {[ 1%positive := {| entries := [("x", VInt 5)]; accum := None |};
                 2%positive := {| entries := [("y", VList 1%positive)];
                                  accum := None |} ]} |}.

(** A point source at longitude 1. *)
Definition src_lon_1 : source Planar.geometry :=
  Planar.point_source "src-4" 1 0 None.

(** The remainder of the division by 2, as a key. *)
Definition parity (x : Z) : Z := x `mod` 2.
End MoreExamples.

(** * Properties *)

(** Boolean comparisons of the code, as propositions. *)
Ltac reflect_Z :=
  repeat match goal with
  | H : (_ <? _) = true |- _ => apply Z.ltb_lt in H
  | H : (_ <? _) = false |- _ => apply Z.ltb_ge in H
  | H : (_ <=? _) = true |- _ => apply Z.leb_le in H
  | H : (_ <=? _) = false |- _ => apply Z.leb_gt in H
  | H : (_ >? _) = true |- _ => rewrite Z.gtb_ltb in H
  | H : (_ >? _) = false |- _ => rewrite Z.gtb_ltb in H
  | H : (_ =? _) = true |- _ => apply Z.eqb_eq in H
  | H : (_ =? _) = false |- _ => apply Z.eqb_neq in H
  end.

(** ** WeightedSequence *)

Section WeightedSequenceFacts.
Import General General.WS.
Context {T : Type} (weight_fn : T → Z).
Local Abbreviation total := (total_weight weight_fn).
Local Abbreviation inv := (weight_invariant weight_fn).

Lemma total_weight_app l1 l2 : total (l1 ++ l2) = total l1 + total l2.
Proof. induction l1 as [|x l1 IH]; simpl; lia. Qed.

Lemma total_weight_insert_at l i x :
  total (list_insert_at l i x) = total l + weight_fn x.
Proof.
  unfold list_insert_at. cbv zeta.
  generalize (Z.to_nat (clamp (len l) i)). intros p.
  assert (total l = total (take p l) + total (drop p l)) as ->
    by (by rewrite <- total_weight_app, take_drop).
  rewrite total_weight_app. simpl. lia.
Qed.

Lemma insert_invariant ws i iw :
  inv ws → weighed weight_fn iw → inv (insert ws i iw).
Proof.
  destruct iw as [item w]. unfold weight_invariant, weighed. simpl.
  intros -> ->. by rewrite total_weight_insert_at.
Qed.

Lemma append_invariant ws iw :
  inv ws → weighed weight_fn iw → inv (append ws iw).
Proof. apply insert_invariant. Qed.

Lemma extend_invariant vs : ∀ ws,
  inv ws → Forall (weighed weight_fn) vs → inv (extend ws vs).
Proof.
  induction vs as [|v vs IH]; intros ws Hws Hvs; [done|].
  inversion_clear Hvs. simpl. apply IH; [by apply append_invariant|done].
Qed.

Lemma add_invariant a b : inv a → inv b → inv (__add__ a b).
Proof.
  unfold weight_invariant. simpl. intros -> ->. by rewrite total_weight_app.
Qed.

Lemma init_invariant seq : Forall (weighed weight_fn) seq → inv (__init__ seq).
Proof. intros. by apply extend_invariant. Qed.

Lemma setitem_weight (ws : WeightedSequence T) a ws' :
  __setitem__ ws a = inr ws' → weight ws' = weight ws.
Proof.
  destruct a as [i v|a b vs]; simpl.
  - destruct (list_setitem _ _ _); [done|]. by intros [= <-].
  - by intros [= <-].
Qed.

Lemma delitem_weight (ws : WeightedSequence T) s ws' :
  __delitem__ ws s = inr ws' → weight ws' = weight ws.
Proof.
  unfold __delitem__. destruct (list_delitem _ _); [done|]. by intros [= <-].
Qed.

(** C3, as amended.  After construction from weighed pairs and any run of
    insert, append, extend and [+] on weighed items, the run succeeds and
    [weight] is the sum of the weights of the items held; [__setitem__]
    and [__delitem__] change the items and leave [weight] as it was. *)
Theorem weight_is_sum_of_added_weights seq ops :
  Forall (weighed weight_fn) seq → Forall (adds weight_fn) ops →
  (∃ ws, apply_all (__init__ seq) ops = inr ws ∧ inv ws)
  ∧ (∀ (ws : WeightedSequence T) a ws',
       __setitem__ ws a = inr ws' → weight ws' = weight ws)
  ∧ (∀ (ws : WeightedSequence T) s ws',
       __delitem__ ws s = inr ws' → weight ws' = weight ws).
Proof.
  intros Hseq Hops. split; [|split; [apply setitem_weight|apply delitem_weight]].
  apply init_invariant in Hseq. revert Hseq. generalize (__init__ seq).
  induction Hops as [|o ops Ho Hops IH]; intros ws Hws; [by exists ws|].
  destruct o as [i iw|iw|vs|a|s|other]; simpl in *; try done; apply IH.
  - by apply insert_invariant.
  - by apply append_invariant.
  - by apply extend_invariant.
  - by apply add_invariant.
Qed.
End WeightedSequenceFacts.

Lemma weight_is_sum_of_added_weights_witness :
  Forall (General.WS.weighed id) [(1, 1); (2, 2)]
  ∧ Forall (General.WS.adds id)
      [General.WS.Insert 0 (5, 5); General.WS.Append (7, 7);
       General.WS.Add (General.WS.__init__ [(3, 3)])]
  ∧ ∃ ws, General.WS.apply_all (General.WS.__init__ [(1, 1); (2, 2)])
            [General.WS.Insert 0 (5, 5); General.WS.Append (7, 7);
             General.WS.Add (General.WS.__init__ [(3, 3)])] = inr ws
          ∧ General.WS.weight_invariant id ws.
Proof.
  assert (H1 : Forall (General.WS.weighed id) [(1, 1); (2, 2)])
    by (repeat constructor).
  assert (H2 : Forall (General.WS.adds id)
                 [General.WS.Insert 0 (5, 5); General.WS.Append (7, 7);
                  General.WS.Add (General.WS.__init__ [(3, 3)])])
    by (repeat constructor).
  split; [exact H1|]. split; [exact H2|].
  exact (proj1 (weight_is_sum_of_added_weights id _ _ H1 H2)).
Defined.

(** C3, as stated, fails: after [ws = WeightedSequence([('A', 1)])] and
    [del ws[0:1]] no item is left and [weight] is still 1, whatever the
    weights of the items are. *)
Lemma weight_not_sum_after_delete :
  ∃ ws, General.WS.apply_all (General.WS.__init__ [("A"%string, 1)])
          [General.WS.DelItem (SliceOf (Some 0) (Some 1))] = inr ws
        ∧ General.WS._seq ws = []
        ∧ General.WS.weight ws = 1
        ∧ ∀ weight_fn, ¬ General.WS.weight_invariant weight_fn ws.
Proof.
  eexists. split; [reflexivity|]. split; [done|]. split; [done|].
  intros weight_fn. unfold General.WS.weight_invariant. simpl. lia.
Qed.

Section WeightedSequenceEq.
Import General General.WS.
Context {T : Type} (item_eq : T → T → bool).
Hypothesis item_eq_refl : ∀ x, item_eq x x = true.

Lemma zip_prefix_all (l k : list T) :
  forallb (λ xy, item_eq xy.1 xy.2) (zip l (l ++ k)) = true
  ∧ forallb (λ xy, item_eq xy.1 xy.2) (zip (l ++ k) l) = true.
Proof.
  induction l as [|x l [IH1 IH2]]; simpl.
  - by destruct k.
  - by rewrite item_eq_refl, IH1, IH2.
Qed.

(** C9.  When the items of one sequence are a prefix of the items of the
    other (the empty sequence is a prefix of every sequence), [__eq__]
    is [True], whatever the lengths and the weights; [==] on items is
    taken to hold between an item and itself. *)
Theorem eq_ignores_length_and_weight (a b : WeightedSequence T) :
  _seq a `prefix_of` _seq b ∨ _seq b `prefix_of` _seq a →
  __eq__ item_eq a b = true.
Proof.
  unfold __eq__. intros [[k ->]|[k ->]]; apply zip_prefix_all.
Qed.
End WeightedSequenceEq.

Lemma eq_ignores_length_and_weight_witness :
  ([] : list Z) `prefix_of` [1; 2]
  ∧ General.WS.__eq__ Z.eqb {| General.WS._seq := []; General.WS.weight := 0 |}
      {| General.WS._seq := [1; 2]; General.WS.weight := 9 |} = true.
Proof.
  assert (H : ([] : list Z) `prefix_of` [1; 2]) by (by exists [1; 2]).
  split; [exact H|].
  apply (eq_ignores_length_and_weight Z.eqb Z.eqb_refl
           {| General.WS._seq := []; General.WS.weight := 0 |}
           {| General.WS._seq := [1; 2]; General.WS.weight := 9 |}).
  left. exact H.
Defined.

(** ** block_splitter *)

Section WeightedSequenceMore.
Import General General.WS.
Context {T : Type}.

Lemma append_seq (ws : WeightedSequence T) iw :
  _seq (append ws iw) = _seq ws ++ [iw.1].
Proof.
  destruct iw as [item w]. unfold append, insert, __len__, list_insert_at, clamp, len.
  simpl. destruct (Z.ltb_spec (Z.of_nat (length (_seq ws))) 0); [lia|].
  rewrite Z.min_id, Nat2Z.id, firstn_all, drop_all. done.
Qed.

Lemma truthy_nonempty (ws : WeightedSequence T) :
  truthy ws = true ↔ _seq ws ≠ [].
Proof.
  unfold truthy, __len__, len. destruct (_seq ws); simpl; naive_solver.
Qed.

End WeightedSequenceMore.

Section BlockSplitterFacts.
Import General General.WS.
Context {T K : Type} `{EqDecision K}.
Variables (Unspecified : K) (max_weight : Z).
Variables (weight_fn : T → Z) (key_fn : T → K).

Lemma block_splitter_loop_bound items : ∀ ws prev_key,
  (∀ x, x ∈ items → 0 <= weight_fn x) →
  within_bound weight_fn max_weight ws →
  ∃ chunks,
    block_splitter_loop max_weight weight_fn key_fn items ws prev_key
      = (chunks, None)
    ∧ Forall (within_bound weight_fn max_weight) chunks.
Proof.
  induction items as [|item rest IH]; intros ws prev_key Hw Hws; simpl.
  - destruct (truthy ws); eauto.
  - assert (0 <= weight_fn item) by (apply Hw; left).
    assert (Hrest : ∀ x, x ∈ rest → 0 <= weight_fn x)
      by (intros; apply Hw; by right).
    destruct (weight_fn item <? 0) eqn:Eneg; reflect_Z; [lia|].
    destruct (_ || _) eqn:Enew.
    + destruct (IH (__init__ [(item, weight_fn item)]) (key_fn item) Hrest)
        as (ys & -> & Hys).
      { split; simpl; [lia|].
        destruct (decide (weight_fn item <= max_weight)); [left; lia|].
        right. exists item. split; [done|lia]. }
      eexists. split; [done|]. apply Forall_app. split; [|done].
      destruct (truthy ws); auto.
    + apply orb_false_iff in Enew as [Esum _]. reflect_Z.
      destruct (weight_fn item >? 0) eqn:Epos; [|by apply IH].
      apply IH; [done|]. destruct Hws as [Hsum _].
      split.
      * by apply (append_invariant weight_fn ws (item, weight_fn item)).
      * left. simpl. lia.
Qed.

(** What the loop yields of the items it is given: a chunk being filled
    that already exceeds the bound is yielded as it is, an item heavier than
    the bound is yielded alone, no chunk is empty, and every item of
    positive weight is in a chunk. *)
Lemma block_splitter_loop_yields items : ∀ ws prev_key,
  (∀ x, x ∈ items → 0 <= weight_fn x) →
  0 <= weight ws →
  ∃ chunks,
    block_splitter_loop max_weight weight_fn key_fn items ws prev_key
      = (chunks, None)
    ∧ (truthy ws = true → max_weight < weight ws → ws ∈ chunks)
    ∧ (∀ x, x ∈ items → max_weight < weight_fn x →
            ∃ c, c ∈ chunks ∧ _seq c = [x] ∧ weight c = weight_fn x)
    ∧ (∀ c, c ∈ chunks → _seq c ≠ [])
    ∧ (∀ x, x ∈ _seq ws → ∃ c, c ∈ chunks ∧ x ∈ _seq c)
    ∧ (∀ x, x ∈ items → 0 < weight_fn x → ∃ c, c ∈ chunks ∧ x ∈ _seq c).
Proof.
  induction items as [|item rest IH]; intros ws prev_key Hw Hws; simpl.
  - eexists. split; [done|]. split; [|split; [|split; [|split]]].
    + intros -> _. by left.
    + intros x Hx. by apply elem_of_nil in Hx.
    + intros c Hc. destruct (truthy ws) eqn:E; [|by apply elem_of_nil in Hc].
      apply list_elem_of_singleton in Hc as ->. by apply truthy_nonempty.
    + intros x Hx. exists ws. split; [|done].
      assert (truthy ws = true) as ->; [|by left].
      apply truthy_nonempty. intros Hnil. rewrite Hnil in Hx.
      by apply elem_of_nil in Hx.
    + intros x Hx. by apply elem_of_nil in Hx.
  - assert (0 <= weight_fn item) by (apply Hw; left).
    assert (Hrest : ∀ x, x ∈ rest → 0 <= weight_fn x)
      by (intros; apply Hw; by right).
    destruct (weight_fn item <? 0) eqn:Eneg; reflect_Z; [lia|].
    destruct (_ || _) eqn:Enew.
    + destruct (IH (__init__ [(item, weight_fn item)]) (key_fn item) Hrest)
        as (ys & -> & Hcur & Hheavy & Hne & Hseq & Hpos); [simpl; lia|].
      simpl in Hcur, Hseq.
      eexists. split; [done|]. split; [|split; [|split; [|split]]].
      * intros -> _. apply elem_of_app. left. by left.
      * intros x Hx Hxw. apply elem_of_cons in Hx as [->|Hx].
        -- exists (__init__ [(item, weight_fn item)]).
           split; [|simpl; split; [done|lia]].
           apply elem_of_app. right. apply Hcur; [done|lia].
        -- destruct (Hheavy x Hx Hxw) as (c & Hc & Hcx). exists c.
           split; [|done]. apply elem_of_app. by right.
      * intros c Hc. apply elem_of_app in Hc as [Hc|Hc]; [|by apply Hne].
        destruct (truthy ws) eqn:E; [|by apply elem_of_nil in Hc].
        apply list_elem_of_singleton in Hc as ->. by apply truthy_nonempty.
      * intros x Hx. exists ws. split; [|done]. apply elem_of_app. left.
        assert (truthy ws = true) as ->; [|by left].
        apply truthy_nonempty. intros Hnil. rewrite Hnil in Hx.
        by apply elem_of_nil in Hx.
      * intros x Hx Hxw. apply elem_of_cons in Hx as [->|Hx].
        -- destruct (Hseq item) as (c & Hc & Hcx); [by left|].
           exists c. split; [|done]. apply elem_of_app. by right.
        -- destruct (Hpos x Hx Hxw) as (c & Hc & Hcx). exists c.
           split; [|done]. apply elem_of_app. by right.
    + apply orb_false_iff in Enew as [Esum _]. reflect_Z.
      destruct (weight_fn item >? 0) eqn:Epos; reflect_Z.
      * destruct (IH (append ws (item, weight_fn item)) (key_fn item) Hrest)
          as (ys & Hrun & Hcur & Hheavy & Hne & Hseq & Hpos); [simpl; lia|].
        rewrite (append_seq ws (item, weight_fn item)) in Hseq. simpl in Hseq.
        exists ys. split; [exact Hrun|]. split; [|split; [|split; [|split]]].
        -- intros _ Hover. lia.
        -- intros x Hx Hxw. apply elem_of_cons in Hx as [->|Hx]; [lia|].
           by apply Hheavy.
        -- done.
        -- intros x Hx. apply Hseq. apply elem_of_app. by left.
        -- intros x Hx Hxw. apply elem_of_cons in Hx as [->|Hx]; [|by apply Hpos].
           apply Hseq. apply elem_of_app. right. by left.
      * destruct (IH ws (key_fn item) Hrest)
          as (ys & Hrun & Hcur & Hheavy & Hne & Hseq & Hpos); [done|].
        exists ys. split; [exact Hrun|]. split; [|split; [|split; [|split]]].
        -- intros _ Hover. lia.
        -- intros x Hx Hxw. apply elem_of_cons in Hx as [->|Hx]; [lia|].
           by apply Hheavy.
        -- done.
        -- done.
        -- intros x Hx Hxw. apply elem_of_cons in Hx as [->|Hx]; [lia|].
           by apply Hpos.
Qed.

(** C1.  For a positive [max_weight] and weights that are not negative,
    [block_splitter] raises nothing, and every chunk it yields has a
    [weight] that is the sum of the weights of its items and is at most
    [max_weight], unless the chunk is a single item whose own weight
    exceeds [max_weight].  Every item whose own weight exceeds
    [max_weight] is yielded as a chunk of its own, of that weight; no chunk
    is empty, and every item of positive weight is in a chunk. *)
Theorem block_splitter_bound items :
  0 < max_weight →
  (∀ x, x ∈ items → 0 <= weight_fn x) →
  ∃ chunks,
    block_splitter Unspecified max_weight weight_fn key_fn items
      = (chunks, None)
    ∧ Forall (λ ws, weight ws = total_weight weight_fn (_seq ws)
                    ∧ (weight ws <= max_weight
                       ∨ ∃ x, _seq ws = [x] ∧ max_weight < weight_fn x))
             chunks
    ∧ (∀ x, x ∈ items → max_weight < weight_fn x →
            ∃ ws, ws ∈ chunks ∧ _seq ws = [x] ∧ weight ws = weight_fn x)
    ∧ (∀ ws, ws ∈ chunks → _seq ws ≠ [])
    ∧ (∀ x, x ∈ items → 0 < weight_fn x →
            ∃ ws, ws ∈ chunks ∧ x ∈ _seq ws).
Proof.
  intros Hmax Hw. unfold block_splitter.
  destruct (max_weight <=? 0) eqn:E; reflect_Z; [lia|].
  destruct (block_splitter_loop_bound items (__init__ []) Unspecified Hw)
    as (chunks & Hrun & Hbound); [split; simpl; [done|left; lia]|].
  destruct (block_splitter_loop_yields items (__init__ []) Unspecified Hw)
    as (chunks' & Hrun' & _ & Hheavy & Hne & _ & Hpos); [done|].
  rewrite Hrun in Hrun'. injection Hrun' as <-.
  exists chunks. by rewrite Hrun.
Qed.
End BlockSplitterFacts.

Lemma block_splitter_bound_witness :
  0 < 3
  ∧ (∀ x, x ∈ [5; 1; 0; 2; 2] → 0 <= id x)
  ∧ ∃ chunks,
      General.block_splitter "Unspecified"%string 3 id
        (λ _, "Unspecified"%string) [5; 1; 0; 2; 2] = (chunks, None)
      ∧ Forall (λ ws, General.WS.weight ws
                        = General.WS.total_weight id (General.WS._seq ws)
                      ∧ (General.WS.weight ws <= 3
                         ∨ ∃ x, General.WS._seq ws = [x] ∧ 3 < id x))
               chunks
      ∧ (∀ x, x ∈ [5; 1; 0; 2; 2] → 3 < id x →
              ∃ ws, ws ∈ chunks ∧ General.WS._seq ws = [x]
                    ∧ General.WS.weight ws = id x)
      ∧ (∀ ws, ws ∈ chunks → General.WS._seq ws ≠ [])
      ∧ (∀ x, x ∈ [5; 1; 0; 2; 2] → 0 < id x →
              ∃ ws, ws ∈ chunks ∧ x ∈ General.WS._seq ws).
Proof.
  assert (H1 : 0 < 3) by lia.
  assert (H2 : ∀ x, x ∈ [5; 1; 0; 2; 2] → 0 <= id x).
  { intros x Hx. unfold id. repeat (apply elem_of_cons in Hx as [->|Hx]; [lia|]).
    by apply elem_of_nil in Hx. }
  split; [exact H1|]. split; [exact H2|].
  exact (block_splitter_bound "Unspecified"%string 3 id
           (λ _, "Unspecified"%string) [5; 1; 0; 2; 2] H1 H2).
Defined.

(** ** split_in_slices *)

Section SplitInSlicesFacts.
Import General.

Lemma ceil_div_spec a b : 0 < b → a <= ceil_div a b * b < a + b.
Proof.
  intros Hb. unfold ceil_div.
  pose proof (Z.div_mod (- a) b ltac:(lia)) as Hdm.
  pose proof (Z.mod_pos_bound (- a) b Hb). nia.
Qed.








Lemma round_half_even_spec (a b : Z) :
  0 < b →
  let m := round_half_even a b in
  a / b <= m <= a / b + 1
  ∧ (2 * (a mod b) < b → m = a / b)
  ∧ (b < 2 * (a mod b) → m = a / b + 1).
Proof.
  intros Hb m. subst m. unfold round_half_even.
  destruct (Z.ltb_spec (2 * (a mod b)) b); [lia|].
  destruct (Z.ltb_spec b (2 * (a mod b))); [lia|].
  destruct (Z.even (a / b)); lia.
Qed.

Lemma pow2_pos x : 0 <= x → 0 < 2 ^ x.
Proof. intros. by apply Z.pow_pos_nonneg. Qed.

Lemma binade_spec a b :
  0 < a → 0 < b →
  let p := binade a b in
  b * 2 ^ Z.max 0 p <= a * 2 ^ Z.max 0 (- p)
  ∧ a * 2 ^ Z.max 0 (- (p + 1)) < b * 2 ^ Z.max 0 (p + 1).
Proof.
  intros Ha Hb p. subst p. unfold binade.
  destruct (Z.log2_spec a Ha) as [Ha1 Ha2]. destruct (Z.log2_spec b Hb) as [Hb1 Hb2].
  pose proof (Z.log2_nonneg a) as Hla. pose proof (Z.log2_nonneg b) as Hlb.
  rewrite <- Z.add_1_r in Ha2, Hb2.
  rewrite Z.pow_add_r in Ha2, Hb2 by lia. change (2 ^ 1) with 2 in *.
  set (la := Z.log2 a) in *. set (lb := Z.log2 b) in *.
  destruct (Z.le_gt_cases lb la) as [Hd|Hd].
  - (* d >= 0 *)
    assert (HX : 2 ^ la = 2 ^ lb * 2 ^ (la - lb)).
    { rewrite <- Z.pow_add_r by lia. f_equal. lia. }
    pose proof (pow2_pos (la - lb) ltac:(lia)) as HW.
    pose proof (pow2_pos lb ltac:(lia)) as HY.
    rewrite (Z.max_l 0 (- (la - lb))), (Z.max_r 0 (la - lb)) by lia.
    change (2 ^ 0) with 1. rewrite Z.mul_1_r.
    destruct (Z.ltb_spec a (b * 2 ^ (la - lb))) as [Ht|Ht].
    + (* p = d - 1 *)
      replace (la - lb - 1 + 1) with (la - lb) by lia.
      rewrite (Z.max_l 0 (- (la - lb))), (Z.max_r 0 (la - lb)) by lia.
      change (2 ^ 0) with 1. rewrite Z.mul_1_r. split; [|done].
      destruct (Z.eq_dec la lb) as [E|E].
      * rewrite E in *. replace (lb - lb - 1) with (-1) by lia.
        change (Z.max 0 (-1)) with 0. change (Z.max 0 (- (-1))) with 1.
        change (2 ^ 0) with 1. change (2 ^ 1) with 2. lia.
      * rewrite (Z.max_r 0 (la - lb - 1)), (Z.max_l 0 (- (la - lb - 1))) by lia.
        change (2 ^ 0) with 1. rewrite Z.mul_1_r.
        assert (HW' : 2 ^ (la - lb) = 2 * 2 ^ (la - lb - 1)).
        { replace (la - lb) with (1 + (la - lb - 1)) at 1 by lia.
          rewrite Z.pow_add_r by lia. done. }
        pose proof (pow2_pos (la - lb - 1) ltac:(lia)). nia.
    + (* p = d *)
      rewrite (Z.max_l 0 (- (la - lb))), (Z.max_r 0 (la - lb)) by lia.
      change (2 ^ 0) with 1. rewrite Z.mul_1_r. split; [done|].
      rewrite (Z.max_l 0 (- (la - lb + 1))), (Z.max_r 0 (la - lb + 1)) by lia.
      change (2 ^ 0) with 1. rewrite Z.mul_1_r.
      rewrite Z.pow_add_r by lia. change (2 ^ 1) with 2. nia.
  - (* d < 0 *)
    assert (HY : 2 ^ lb = 2 ^ la * 2 ^ (lb - la)).
    { rewrite <- Z.pow_add_r by lia. f_equal. lia. }
    pose proof (pow2_pos (lb - la) ltac:(lia)) as HW.
    pose proof (pow2_pos la ltac:(lia)) as HX.
    replace (- (la - lb)) with (lb - la) by lia.
    rewrite (Z.max_r 0 (lb - la)), (Z.max_l 0 (la - lb)) by lia.
    change (2 ^ 0) with 1. rewrite Z.mul_1_r.
    assert (HW' : 2 ^ (lb - la) = 2 * 2 ^ (lb - la - 1)).
    { replace (lb - la) with (1 + (lb - la - 1)) at 1 by lia.
      rewrite Z.pow_add_r by lia. done. }
    pose proof (pow2_pos (lb - la - 1) ltac:(lia)) as HV.
    destruct (Z.ltb_spec (a * 2 ^ (lb - la)) b) as [Ht|Ht].
    + (* p = d - 1 *)
      replace (la - lb - 1 + 1) with (la - lb) by lia.
      replace (- (la - lb - 1)) with (1 + (lb - la)) by lia.
      replace (- (la - lb)) with (lb - la) by lia.
      rewrite (Z.max_l 0 (la - lb - 1)), (Z.max_r 0 (1 + (lb - la))),
        (Z.max_r 0 (lb - la)), (Z.max_l 0 (la - lb)) by lia.
      change (2 ^ 0) with 1. rewrite !Z.mul_1_r. split; [|done].
      rewrite Z.pow_add_r by lia. change (2 ^ 1) with 2. nia.
    + (* p = d *)
      replace (- (la - lb)) with (lb - la) by lia.
      replace (- (la - lb + 1)) with (lb - la - 1) by lia.
      rewrite (Z.max_l 0 (la - lb)), (Z.max_r 0 (lb - la)),
        (Z.max_r 0 (lb - la - 1)), (Z.max_l 0 (la - lb + 1)) by lia.
      change (2 ^ 0) with 1. rewrite !Z.mul_1_r. split; [done|]. nia.
Qed.

Lemma binade_le a b : 0 < a → 0 < b → binade a b <= Z.log2 a.
Proof.
  intros Ha Hb. unfold binade. pose proof (Z.log2_nonneg b).
  destruct (_ <? _); lia.
Qed.

(** Rounding a quotient whose numerator was scaled by [S]. *)
Lemma scaled_quotient n k S :
  0 < n → 0 < k → 0 < S →
  let m := round_half_even (n * S) k in
  (k < 2 * n * S → 1 <= m)
  ∧ (n * S < k * 2 ^ 53 → m <= 2 ^ 53)
  ∧ (k <= 2 * S → (k = 2 * S → n = 2 ^ 53) → n <= ceil_div m S * k).
Proof.
  intros Hn Hk HS m.
  destruct (round_half_even_spec (n * S) k Hk) as (Hm & Hdown & Hup).
  fold m in Hm, Hdown, Hup.
  pose proof (Z.div_mod (n * S) k ltac:(lia)) as Hdm.
  pose proof (Z.mod_pos_bound (n * S) k Hk) as Hr.
  set (q0 := n * S / k) in *. set (r := (n * S) mod k) in *.
  split; [|split].
  - intros Hbig. destruct (Z.le_gt_cases 1 q0) as [|Hq0]; [lia|].
    assert (q0 = 0) by nia. rewrite Hup; [lia|]. nia.
  - intros Hsmall. assert (q0 < 2 ^ 53) by nia. lia.
  - intros H2S Htie.
    pose proof (ceil_div_spec n k Hk) as Hc. set (c := ceil_div n k) in *.
    pose proof (ceil_div_spec m S HS) as Hc'. set (c' := ceil_div m S) in *.
    assert (Hgt : (c - 1) * S < m).
    { assert (Hq0 : (c - 1) * S <= q0) by nia.
      destruct (Z.eq_dec q0 ((c - 1) * S)) as [Eq|]; [|lia].
      assert (Hr' : r = S * (n - (c - 1) * k)) by nia.
      destruct (Z.lt_trichotomy k (2 * r)) as [Hlt|[Heq|Hgt]].
      - rewrite Hup by done. lia.
      - exfalso. assert (n - (c - 1) * k = 1) by nia.
        assert (k = 2 * S) by nia. specialize (Htie ltac:(done)).
        assert (Hodd : 2 ^ 53 = 2 * ((c - 1) * S) + 1) by nia.
        change (2 ^ 53) with 9007199254740992 in Hodd. lia.
      - exfalso. nia. }
    assert (c <= c') by nia. nia.
Qed.

Lemma int_true_divide_positive n k :
  0 < n < 2 ^ 1023 → 0 < k < 2 ^ 1075 →
  ∃ q, int_true_divide n k = inr q
       ∧ 0 < math_ceil q
       ∧ (n <= 2 ^ 53 → n <= math_ceil q * k).
Proof.
  intros [Hn Hn'] [Hk Hk'].
  unfold int_true_divide.
  destruct (Z.eqb_spec k 0); [lia|]. destruct (Z.eqb_spec n 0); [lia|].
  rewrite (Z.abs_eq n), (Z.abs_eq k), (Z.sgn_pos n), (Z.sgn_pos k) by lia.
  unfold nearest_float.
  destruct (binade_spec n k Hn Hk) as [Hlo Hup].
  pose proof (binade_le n k Hn Hk) as Hple.
  assert (Hp1022 : binade n k <= 1022).
  { apply Z.log2_lt_pow2 in Hn'; [|done]. clear Hk'. lia. }
  assert (Hp53 : n <= 2 ^ 53 → binade n k <= 53).
  { intros Hle. clear Hn' Hk' Hp1022.
    assert (Hlt : n < 2 ^ 54) by (change (2 ^ 54) with (2 * 2 ^ 53); lia).
    apply Z.log2_lt_pow2 in Hlt; lia. }
  set (p := binade n k) in *.
  destruct (Z.le_gt_cases 52 p) as [HA|HB].
  - (* the quotient is 2 ^ 52 or more *)
    rewrite (Z.max_l (p - 52) (-1074)) by lia.
    rewrite (Z.max_l 0 (- (p - 52))), (Z.max_r 0 (p - 52)) by lia.
    change (2 ^ 0) with 1. rewrite Z.mul_1_r.
    rewrite (Z.max_r 0 p), (Z.max_l 0 (- p)) in Hlo by lia.
    rewrite (Z.max_r 0 (p + 1)), (Z.max_l 0 (- (p + 1))) in Hup by lia.
    change (2 ^ 0) with 1 in Hlo, Hup. rewrite Z.mul_1_r in Hlo, Hup.
    assert (HpE : 2 ^ p = 2 ^ 52 * 2 ^ (p - 52)).
    { rewrite <- Z.pow_add_r by lia. f_equal. lia. }
    assert (HpE' : 2 ^ (p + 1) = 2 ^ 53 * 2 ^ (p - 52)).
    { rewrite <- Z.pow_add_r by lia. f_equal. lia. }
    pose proof (pow2_pos (p - 52) ltac:(lia)) as HE.
    assert (HE970 : 2 ^ (p - 52) <= 2 ^ 970) by (apply Z.pow_le_mono_r; lia).
    set (E := 2 ^ (p - 52)) in *.
    assert (HD : 0 < k * E) by nia.
    destruct (round_half_even_spec n (k * E) HD) as (Hm & Hdown & Hround).
    pose proof (Z.div_mod n (k * E) ltac:(lia)) as Hdm.
    pose proof (Z.mod_pos_bound n (k * E) HD) as Hr.
    set (m := round_half_even n (k * E)) in *.
    set (q0 := n / (k * E)) in *. set (r := n mod (k * E)) in *.
    assert (H252 : 0 < 2 ^ 52) by done. assert (H253 : 2 ^ 53 = 2 * 2 ^ 52) by done.
    assert (Hq1 : 1 <= q0) by (clear Hn' Hk' Hp1022 HE970; nia).
    assert (Hq53 : q0 < 2 ^ 53) by (clear Hn' Hk' Hp1022 HE970; nia).
    assert (Hov : m * E < 2 ^ 1024).
    { assert (m * E <= 2 ^ 53 * 2 ^ 970)
        by (apply Z.mul_le_mono_nonneg; lia).
      assert (2 ^ 53 * 2 ^ 970 < 2 ^ 1024) by done. lia. }
    clear Hn' Hk' Hp1022 HE970.
    destruct (Z.leb_spec (2 ^ 1024) (m * E)) as [Hbad|_]; [lia|]. clear Hov.
    eexists. split; [reflexivity|]. unfold math_ceil. cbn [mant expo].
    destruct (Z.leb_spec 0 (p - 52)); [|lia].
    rewrite !Z.mul_1_l. split; [nia|].
    intros Hsmall.
    assert (HD2 : k * E = 1 ∨ (k * E = 2 ∧ n = 2 ^ 53)) by nia.
    destruct HD2 as [HD1|[HD2 ->]].
    + assert (r = 0) by lia. assert (m = q0) by (apply Hdown; lia). nia.
    + assert (r = 0 ∨ r = 1) by lia. assert (r = 0) by nia.
      assert (m = q0) by (apply Hdown; lia). nia.
  - (* the quotient is below 2 ^ 52 *)
    assert (∃ s, 0 < s ∧ s = - Z.max (p - 52) (-1074)
                 ∧ (s = 52 - p ∨ (s = 1074 ∧ p < -1022))) as (s & Hs & Hse & Hcase).
    { exists (- Z.max (p - 52) (-1074)). clear Hn' Hk'. lia. }
    clear Hn' Hp1022.
    replace (Z.max (p - 52) (-1074)) with (- s) by lia.
    rewrite (Z.max_r 0 (- - s)), (Z.max_l 0 (- s)) by lia.
    rewrite Z.opp_involutive. change (2 ^ 0) with 1. rewrite !Z.mul_1_r.
    pose proof (pow2_pos s ltac:(lia)) as HS.
    destruct (scaled_quotient n k (2 ^ s) Hn Hk HS) as (H1 & H53 & Hceil).
    set (m := round_half_even (n * 2 ^ s) k) in *.
    assert (H253 : 2 ^ 53 = 2 * 2 ^ 52) by done. assert (H252 : 0 < 2 ^ 52) by done.
    (* the bounds of the binade, in terms of [2 ^ s] *)
    assert (Hbounds : k <= n * 2 ^ s * 2 ∧ n * 2 ^ s < k * 2 ^ 53
                      ∧ k < 2 * n * 2 ^ s
                      ∧ (n <= 2 ^ 53 → k <= 2 * 2 ^ s ∧ (k = 2 * 2 ^ s → n = 2 ^ 53))).
    { destruct Hcase as [->|[-> Hsub]].
      - destruct (Z.le_gt_cases 0 p) as [Hp0|Hp0].
        + rewrite (Z.max_r 0 p), (Z.max_l 0 (- p)) in Hlo by lia.
          rewrite (Z.max_r 0 (p + 1)), (Z.max_l 0 (- (p + 1))) in Hup by lia.
          change (2 ^ 0) with 1 in Hlo, Hup. rewrite Z.mul_1_r in Hlo, Hup.
          assert (HP : 2 ^ 52 = 2 ^ p * 2 ^ (52 - p)).
          { rewrite <- Z.pow_add_r by lia. f_equal. lia. }
          rewrite Z.pow_add_r in Hup by lia. change (2 ^ 1) with 2 in Hup.
          pose proof (pow2_pos p ltac:(lia)) as HPp.
          clear Hk'. set (P := 2 ^ p) in *. set (S := 2 ^ (52 - p)) in *.
          assert (k * 2 ^ 52 <= n * S) by nia.
          assert (n * S < k * 2 ^ 53) by nia.
          split; [nia|]. split; [nia|]. split; [nia|].
          intros Hsmall. split; nia.
        + rewrite (Z.max_l 0 p), (Z.max_r 0 (- p)) in Hlo by lia.
          rewrite (Z.max_l 0 (p + 1)), (Z.max_r 0 (- (p + 1))) in Hup by lia.
          change (2 ^ 0) with 1 in Hlo, Hup. rewrite Z.mul_1_r in Hlo, Hup.
          assert (HP : 2 ^ (52 - p) = 2 ^ 53 * 2 ^ (- (p + 1))).
          { rewrite <- Z.pow_add_r by lia. f_equal. lia. }
          assert (HP' : 2 ^ (- p) = 2 * 2 ^ (- (p + 1))).
          { replace (- p) with (1 + - (p + 1)) at 1 by lia.
            rewrite Z.pow_add_r by lia. done. }
          pose proof (pow2_pos (- (p + 1)) ltac:(lia)) as HPp.
          clear Hk'. set (P := 2 ^ (- (p + 1))) in *. set (S := 2 ^ (52 - p)) in *.
          assert (k * 2 ^ 52 <= n * S) by nia.
          assert (n * S < k * 2 ^ 53) by nia.
          split; [nia|]. split; [nia|]. split; [nia|].
          intros Hsmall. split; nia.
      - rewrite (Z.max_l 0 (p + 1)), (Z.max_r 0 (- (p + 1))) in Hup by lia.
        change (2 ^ 0) with 1 in Hup. rewrite Z.mul_1_r in Hup.
        assert (HP : 2 ^ (- (p + 1)) = 2 ^ 1022 * 2 ^ (- (p + 1) - 1022)).
        { rewrite <- Z.pow_add_r by lia. f_equal. lia. }
        pose proof (pow2_pos (- (p + 1) - 1022) ltac:(lia)) as HPp.
        assert (H1074 : 2 ^ 1074 = 2 ^ 1022 * 2 ^ 52) by done.
        assert (H1075 : 2 ^ 1075 = 2 * 2 ^ 1074) by done.
        assert (HBpos : 0 < 2 ^ 1022) by done.
        rewrite H1075 in Hk'. rewrite HP in Hup. rewrite H1074 in *.
        clear HP H1074 H1075.
        remember (2 ^ (- (p + 1) - 1022)) as P eqn:EP. clear EP.
        remember (2 ^ 1022) as B eqn:EB. clear EB.
        split; [nia|]. split; [nia|]. split; [nia|].
        intros Hsmall. split; nia. }
    destruct Hbounds as (_ & Hb53 & Hbpos & Hbsmall).
    specialize (H1 Hbpos). specialize (H53 Hb53).
    assert (Hov : m < 2 ^ 1024).
    { assert (2 ^ 53 < 2 ^ 1024) by done. clear Hk'. lia. }
    clear Hk'.
    destruct (Z.leb_spec (2 ^ 1024) m) as [Hbad|_]; [lia|]. clear Hov.
    eexists. split; [reflexivity|]. unfold math_ceil. cbn [mant expo].
    destruct (Z.leb_spec 0 (- s)); [lia|].
    rewrite Z.opp_involutive, !Z.mul_1_l.
    change (- (- m / 2 ^ s)) with (ceil_div m (2 ^ s)).
    pose proof (ceil_div_spec m (2 ^ s) HS) as Hc'.
    split; [nia|].
    intros Hsmall. destruct (Hbsmall Hsmall) as [H2S Htie]. by apply Hceil.
Qed.

(** Floats that are integers. *)
Lemma round_half_even_scale a b c :
  0 < b → 0 < c → round_half_even (a * c) (b * c) = round_half_even a b.
Proof.
  intros Hb Hc. unfold round_half_even.
  rewrite Z.div_mul_cancel_r by lia.
  rewrite Z.mul_mod_distr_r by lia.
  pose proof (Z.mod_pos_bound a b Hb) as Hr.
  set (r := a mod b) in *.
  assert (E1 : (2 * (r * c) <? b * c) = (2 * r <? b)).
  { destruct (Z.ltb_spec (2 * r) b), (Z.ltb_spec (2 * (r * c)) (b * c)); try done; nia. }
  assert (E2 : (b * c <? 2 * (r * c)) = (b <? 2 * r)).
  { destruct (Z.ltb_spec b (2 * r)), (Z.ltb_spec (b * c) (2 * (r * c))); try done; nia. }
  by rewrite E1, E2.
Qed.

Lemma binade_scale a b j :
  0 < a → 0 < b → 0 <= j → binade (a * 2 ^ j) (b * 2 ^ j) = binade a b.
Proof.
  intros Ha Hb Hj. unfold binade.
  rewrite !Z.log2_mul_pow2 by lia.
  replace (j + Z.log2 a - (j + Z.log2 b)) with (Z.log2 a - Z.log2 b) by lia.
  set (d := Z.log2 a - Z.log2 b).
  pose proof (pow2_pos j Hj) as HJ.
  pose proof (pow2_pos (Z.max 0 (- d)) ltac:(lia)) as H1.
  pose proof (pow2_pos (Z.max 0 d) ltac:(lia)) as H2.
  set (J := 2 ^ j) in *. set (U := 2 ^ Z.max 0 (- d)) in *.
  set (V := 2 ^ Z.max 0 d) in *.
  destruct (Z.ltb_spec (a * J * U) (b * J * V)), (Z.ltb_spec (a * U) (b * V));
    try done; nia.
Qed.

Lemma nearest_float_scale a b j :
  0 < a → 0 < b → 0 <= j →
  nearest_float (a * 2 ^ j) (b * 2 ^ j) = nearest_float a b.
Proof.
  intros Ha Hb Hj. unfold nearest_float. rewrite binade_scale by done.
  set (e := Z.max (binade a b - 52) (-1074)).
  pose proof (pow2_pos j Hj) as HJ.
  pose proof (pow2_pos (Z.max 0 e) ltac:(lia)) as HE.
  replace (a * 2 ^ j * 2 ^ Z.max 0 (- e)) with (a * 2 ^ Z.max 0 (- e) * 2 ^ j) by lia.
  replace (b * 2 ^ j * 2 ^ Z.max 0 e) with (b * 2 ^ Z.max 0 e * 2 ^ j) by lia.
  rewrite round_half_even_scale by lia. done.
Qed.

Lemma binade_int n : 0 < n → binade n 1 = Z.log2 n.
Proof.
  intros Hn. unfold binade. change (Z.log2 1) with 0. rewrite Z.sub_0_r.
  pose proof (Z.log2_nonneg n) as Hp. pose proof (Z.log2_spec n Hn) as [Hlo _].
  rewrite (Z.max_l 0 (- Z.log2 n)), (Z.max_r 0 (Z.log2 n)) by lia.
  change (2 ^ 0) with 1.
  destruct (Z.ltb_spec (n * 1) (1 * 2 ^ Z.log2 n)); [lia|done].
Qed.

Lemma round_half_even_one a : round_half_even a 1 = a.
Proof.
  unfold round_half_even. rewrite Z.mod_1_r, Z.div_1_r. done.
Qed.

(** An integer of at most 53 bits is a float. *)
Lemma nearest_float_small n :
  0 < n → Z.log2 n <= 52 →
  nearest_float n 1
  = Some (mkfloat (n * 2 ^ (52 - Z.log2 n)) (Z.log2 n - 52)).
Proof.
  intros Hn Hp. unfold nearest_float. rewrite binade_int by done.
  pose proof (Z.log2_nonneg n) as Hp0.
  pose proof (Z.log2_spec n Hn) as [_ Hup].
  set (p := Z.log2 n) in *.
  rewrite (Z.max_l (p - 52) (-1074)) by lia.
  rewrite (Z.max_r 0 (- (p - 52))), (Z.max_l 0 (p - 52)) by lia.
  change (2 ^ 0) with 1. rewrite !Z.mul_1_r, round_half_even_one.
  replace (- (p - 52)) with (52 - p) by lia.
  assert (Hlt : n * 2 ^ (52 - p) < 2 ^ 53).
  { replace 53 with (Z.succ p + (52 - p)) by lia.
    rewrite (Z.pow_add_r 2 (Z.succ p)) by lia.
    apply Z.mul_lt_mono_pos_r; [apply pow2_pos; lia|done]. }
  assert (H53 : 2 ^ 53 < 2 ^ 1024) by done.
  destruct (Z.leb_spec (2 ^ 1024) (n * 2 ^ (52 - p))); [lia|done].
Qed.

(** [float(n)] is [n] for [n] up to [2 ^ 53]. *)
Lemma float_of_int_exact n :
  0 < n <= 2 ^ 53 →
  ∃ x, float_of_int n = inr x ∧ 0 < mant x
       ∧ mant x * 2 ^ Z.max 0 (expo x) = n * 2 ^ Z.max 0 (- expo x).
Proof.
  intros [Hn Hle]. unfold float_of_int.
  destruct (Z.eqb_spec n 0); [lia|].
  rewrite (Z.abs_eq n), (Z.sgn_pos n) by lia.
  destruct (Z.eq_dec n (2 ^ 53)) as [->|Hne].
  - eexists. split; [vm_compute; reflexivity|]. split; reflexivity.
  - assert (Hlt : n < 2 ^ 53) by lia.
    apply Z.log2_lt_pow2 in Hlt; [|done].
    rewrite nearest_float_small by lia. eexists. split; [reflexivity|].
    cbn [mant expo]. pose proof (Z.log2_nonneg n).
    pose proof (pow2_pos (52 - Z.log2 n) ltac:(lia)).
    rewrite (Z.max_l 0 (Z.log2 n - 52)), (Z.max_r 0 (- (Z.log2 n - 52))) by lia.
    replace (- (Z.log2 n - 52)) with (52 - Z.log2 n) by lia.
    change (2 ^ 0) with 1. split; nia.
Qed.

(** The quotient of two floats that are integers is rounded as the
    quotient of the integers. *)
Lemma float_truediv_exact x y n k :
  0 < mant x → 0 < mant y → 0 < n → 0 < k →
  mant x * 2 ^ Z.max 0 (expo x) = n * 2 ^ Z.max 0 (- expo x) →
  mant y * 2 ^ Z.max 0 (expo y) = k * 2 ^ Z.max 0 (- expo y) →
  float_truediv x y
  = inr ((λ q, mkfloat (1 * 1 * mant q) (expo q)) <$> nearest_float n k).
Proof.
  destruct x as [mx ex], y as [my ey]. cbn [mant expo].
  intros Hmx Hmy Hn Hk Hx Hy. unfold float_truediv. cbn [mant expo].
  destruct (Z.eqb_spec my 0); [lia|]. destruct (Z.eqb_spec mx 0); [lia|].
  rewrite (Z.abs_eq mx), (Z.abs_eq my), (Z.sgn_pos mx), (Z.sgn_pos my) by lia.
  do 2 f_equal.
  set (D := Z.max 0 (ex - ey)). set (D' := Z.max 0 (ey - ex)).
  set (u := Z.max 0 ex + Z.max 0 ey).
  set (w := Z.max 0 (- ex) + D + Z.max 0 ey).
  assert (Ha : mx * 2 ^ D * 2 ^ u = n * 2 ^ w).
  { transitivity (mx * 2 ^ Z.max 0 ex * 2 ^ (D + Z.max 0 ey)).
    - rewrite <- !Z.mul_assoc, <- !Z.pow_add_r by lia. do 2 f_equal. lia.
    - rewrite Hx, <- Z.mul_assoc, <- Z.pow_add_r by lia. do 2 f_equal. lia. }
  assert (Hb : my * 2 ^ D' * 2 ^ u = k * 2 ^ w).
  { transitivity (my * 2 ^ Z.max 0 ey * 2 ^ (D' + Z.max 0 ex)).
    - rewrite <- !Z.mul_assoc, <- !Z.pow_add_r by lia. do 2 f_equal. lia.
    - rewrite Hy, <- Z.mul_assoc, <- Z.pow_add_r by lia. do 2 f_equal. lia. }
  rewrite <- (nearest_float_scale (mx * 2 ^ D) (my * 2 ^ D') u);
    [|apply Z.mul_pos_pos; [lia|apply pow2_pos; lia]..|lia].
  rewrite Ha, Hb. apply nearest_float_scale; lia.
Qed.

Lemma round_half_even_le a b N :
  0 < b → a <= N * b → round_half_even a b <= N.
Proof.
  intros Hb Hle. destruct (round_half_even_spec a b Hb) as (Hm & Hdown & _).
  pose proof (Z.div_mod a b ltac:(lia)) as Hdm.
  pose proof (Z.mod_pos_bound a b Hb) as Hr.
  set (m := round_half_even a b) in *.
  set (q0 := a / b) in *. set (r := a mod b) in *.
  assert (q0 <= N) by nia.
  destruct (Z.eq_dec q0 N) as [->|]; [|lia].
  assert (r = 0) by nia. rewrite Hdown; lia.
Qed.

(** Rounding does not cross an integer of at most 53 bits. *)
Lemma nearest_float_le_integer a b N x :
  0 < a → 0 < b → N <= 2 ^ 53 → a <= N * b →
  nearest_float a b = Some x → math_ceil x <= N.
Proof.
  intros Ha Hb HN Hle. unfold nearest_float.
  destruct (binade_spec a b Ha Hb) as [Hlo _].
  set (p := binade a b) in *. clearbody p.
  destruct (_ <=? _); [done|]. intros [= <-]. unfold math_ceil. cbn [mant expo].
  set (e := Z.max (p - 52) (-1074)).
  destruct (Z.leb_spec 0 e) as [He|He].
  - destruct (Z.eq_dec e 0) as [E0|E0].
    + rewrite E0. change (Z.max 0 (- 0)) with 0. change (Z.max 0 0) with 0.
      change (2 ^ 0) with 1. rewrite !Z.mul_1_r.
      by apply round_half_even_le.
    + assert (Hp : 53 <= p) by lia.
      rewrite (Z.max_r 0 p), (Z.max_l 0 (- p)) in Hlo by lia.
      change (2 ^ 0) with 1 in Hlo. rewrite Z.mul_1_r in Hlo.
      assert (H253 : 0 < 2 ^ 53) by done.
      assert (Hpow : 2 ^ 53 <= 2 ^ p) by (apply Z.pow_le_mono_r; lia).
      assert (HN53 : N = 2 ^ 53) by nia.
      assert (Hp53 : 2 ^ p = 2 ^ 53) by nia.
      assert (p = 53).
      { destruct (Z.eq_dec p 53) as [|Hne]; [done|].
        assert (2 ^ 54 <= 2 ^ p) by (apply Z.pow_le_mono_r; lia).
        assert (2 ^ 53 < 2 ^ 54) by done. lia. }
      assert (Hab : a = 2 ^ 53 * b) by nia.
      subst p. subst e. change (Z.max (53 - 52) (-1074)) with 1.
      change (Z.max 0 (- 1)) with 0. change (Z.max 0 1) with 1.
      change (2 ^ 0) with 1. change (2 ^ 1) with 2. rewrite Z.mul_1_r.
      rewrite Hab. replace (2 ^ 53 * b) with (2 ^ 52 * (b * 2)).
      2:{ change (2 ^ 53) with (2 ^ 52 * 2). lia. }
      assert (Hr : round_half_even (2 ^ 52 * (b * 2)) (b * 2) = 2 ^ 52).
      { unfold round_half_even. rewrite Z.div_mul, Z.mod_mul by lia.
        destruct (Z.ltb_spec (2 * 0) (b * 2)); [done|lia]. }
      rewrite Hr, HN53. done.
  - rewrite (Z.max_r 0 (- e)), (Z.max_l 0 e) by lia.
    change (2 ^ 0) with 1. rewrite Z.mul_1_r.
    pose proof (pow2_pos (- e) ltac:(lia)) as HS.
    set (S := 2 ^ (- e)) in *.
    assert (Hm : round_half_even (a * S) b <= N * S)
      by (apply round_half_even_le; [done|nia]).
    set (m := round_half_even (a * S) b) in *.
    change (- (- m / S)) with (ceil_div m S).
    pose proof (ceil_div_spec m S HS). nia.
Qed.

(** Up to [2 ^ 53] the ceiling of the float quotient of two integers is
    the ceiling of their quotient. *)
Lemma int_true_divide_ceiling n k :
  0 < n <= 2 ^ 53 → 0 < k < 2 ^ 1075 →
  ∃ q, int_true_divide n k = inr q ∧ math_ceil q = ceil_div n k
       ∧ 0 < ceil_div n k.
Proof.
  intros [Hn Hn53] Hk.
  assert (Hn' : 0 < n < 2 ^ 1023).
  { assert (2 ^ 53 < 2 ^ 1023) by done. lia. }
  destruct (int_true_divide_positive n k Hn' Hk) as (q & Hq & Hpos & Hlow).
  specialize (Hlow Hn53). exists q. split; [done|].
  pose proof (ceil_div_spec n k ltac:(lia)) as Hc.
  assert (Hc0 : 0 < ceil_div n k) by nia.
  assert (Hc53 : ceil_div n k <= 2 ^ 53) by nia.
  split; [|done].
  assert (Hup : math_ceil q <= ceil_div n k).
  { revert Hq. unfold int_true_divide.
    destruct (Z.eqb_spec k 0); [lia|]. destruct (Z.eqb_spec n 0); [lia|].
    rewrite (Z.abs_eq n), (Z.abs_eq k), (Z.sgn_pos n), (Z.sgn_pos k) by lia.
    destruct (nearest_float n k) as [x|] eqn:Ex; [|done]. intros [= <-].
    replace (mkfloat (1 * 1 * mant x) (expo x)) with x
      by (destruct x; simpl; f_equal; lia).
    apply (nearest_float_le_integer n k); [lia|lia|done|lia|done]. }
  clear Hn' Hk. nia.
Qed.

(** The integers that [float] converts: those below [2 ^ 1024 - 2 ^ 970],
    which is halfway between the largest float and [2 ^ 1024]. *)
Lemma nearest_float_int_range n :
  0 < n →
  (n < 2 ^ 1024 - 2 ^ 970 → ∃ x, nearest_float n 1 = Some x ∧ 0 < mant x)
  ∧ (2 ^ 1024 - 2 ^ 970 <= n → nearest_float n 1 = None).
Proof.
  intros Hn.
  pose proof (Z.log2_nonneg n) as Hp0.
  pose proof (Z.log2_spec n Hn) as [Hlo Hup].
  destruct (Z.le_gt_cases (Z.log2 n) 52) as [Hsmall|Hbig].
  - split.
    + intros _. rewrite nearest_float_small by done. eexists. split; [done|].
      cbn. pose proof (pow2_pos (52 - Z.log2 n) ltac:(lia)). nia.
    + intros Hge. exfalso.
      assert (2 ^ Z.succ (Z.log2 n) <= 2 ^ 53) by (apply Z.pow_le_mono_r; lia).
      assert (2 ^ 53 < 2 ^ 1024 - 2 ^ 970) by done. lia.
  - unfold nearest_float. rewrite binade_int by done.
    set (p := Z.log2 n) in *. clearbody p.
    rewrite (Z.max_l (p - 52) (-1074)) by lia.
    rewrite (Z.max_l 0 (- (p - 52))), (Z.max_r 0 (p - 52)) by lia.
    change (2 ^ 0) with 1. rewrite Z.mul_1_r, Z.mul_1_l.
    assert (HpE : 2 ^ p = 2 ^ 52 * 2 ^ (p - 52)).
    { rewrite <- Z.pow_add_r by lia. f_equal. lia. }
    assert (HpE' : 2 ^ Z.succ p = 2 ^ 53 * 2 ^ (p - 52)).
    { rewrite <- Z.pow_add_r by lia. f_equal. lia. }
    pose proof (pow2_pos (p - 52) ltac:(lia)) as HE.
    assert (Hmono : ∀ j, p - 52 <= j → 2 ^ (p - 52) <= 2 ^ j)
      by (intros; apply Z.pow_le_mono_r; lia).
    assert (Hmono' : ∀ j, 0 <= j <= p - 52 → 2 ^ j <= 2 ^ (p - 52))
      by (intros; apply Z.pow_le_mono_r; lia).
    assert (Hexp : p = 1023 → 2 ^ (p - 52) = 2 ^ 971) by (by intros ->).
    set (E := 2 ^ (p - 52)) in *.
    destruct (round_half_even_spec n E HE) as (Hm & Hdown & Hround).
    pose proof (Z.div_mod n E ltac:(lia)) as Hdm.
    pose proof (Z.mod_pos_bound n E HE) as Hr.
    assert (Htie : 2 * (n mod E) = E → Z.even (n / E) = false →
                   round_half_even n E = n / E + 1).
    { intros Ht Hodd. unfold round_half_even.
      destruct (Z.ltb_spec (2 * (n mod E)) E); [lia|].
      destruct (Z.ltb_spec E (2 * (n mod E))); [lia|]. by rewrite Hodd. }
    set (m := round_half_even n E) in *.
    set (q0 := n / E) in *. set (r := n mod E) in *.
    assert (H252 : 0 < 2 ^ 52) by done.
    assert (H253 : 2 ^ 53 = 2 * 2 ^ 52) by done.
    assert (Hq1 : 2 ^ 52 <= q0) by nia.
    assert (Hq53 : q0 < 2 ^ 53) by nia.
    assert (H1024 : 2 ^ 1024 = 2 ^ 53 * 2 ^ 971) by done.
    assert (H971 : 2 ^ 971 = 2 * 2 ^ 970) by done.
    assert (H970 : 0 < 2 ^ 970) by done.
    destruct (Z.lt_trichotomy p 1023) as [Hlt|[Heq|Hgt]].
    + (* below the last binade *)
      specialize (Hmono 970 ltac:(lia)).
      assert (Hov : m * E < 2 ^ 1024).
      { assert (m * E <= 2 ^ 53 * 2 ^ 970)
          by (apply Z.mul_le_mono_nonneg; lia).
        assert (2 ^ 53 * 2 ^ 970 < 2 ^ 1024) by done. lia. }
      split.
      * intros _. destruct (Z.leb_spec (2 ^ 1024) (m * E)); [lia|].
        eexists. split; [done|]. cbn. lia.
      * intros Hge. exfalso.
        assert (2 ^ Z.succ p <= 2 ^ 1023) by (apply Z.pow_le_mono_r; lia).
        assert (2 ^ 1023 < 2 ^ 1024 - 2 ^ 970) by done. lia.
    + (* the last binade *)
      specialize (Hexp Heq). clear Hmono Hmono' HpE HpE' Hlo Hup.
      rewrite H1024, H971 in *. rewrite Hexp in *. clear Hexp H1024 H971.
      assert (Hodd : q0 = 2 ^ 53 - 1 → Z.even q0 = false) by (by intros ->).
      remember (2 ^ 970) as H eqn:EH. clear EH.
      split.
      * intros Hlt.
        assert (Hm53 : m < 2 ^ 53).
        { destruct (Z.eq_dec q0 (2 ^ 53 - 1)) as [Eq|]; [|lia].
          assert (r < H) by nia. rewrite Hdown; lia. }
        destruct (Z.leb_spec (2 ^ 53 * (2 * H)) (m * (2 * H))); [nia|].
        eexists. split; [done|]. cbn. lia.
      * intros Hge.
        assert (Eq : q0 = 2 ^ 53 - 1) by nia.
        assert (Hrge : H <= r) by nia.
        assert (Hm53 : m = 2 ^ 53).
        { destruct (Z.eq_dec (2 * r) (2 * H)) as [Et|Et].
          - rewrite Htie; [lia|lia|by apply Hodd].
          - rewrite Hround; lia. }
        rewrite Hm53.
        destruct (Z.leb_spec (2 ^ 53 * (2 * H)) (2 ^ 53 * (2 * H))); [done|lia].
    + (* beyond the floats *)
      specialize (Hmono' 972 ltac:(lia)).
      assert (H972 : 2 ^ 1024 = 2 ^ 52 * 2 ^ 972) by done.
      assert (Hov : 2 ^ 1024 <= m * E).
      { rewrite H972. apply Z.mul_le_mono_nonneg; lia. }
      split.
      * intros Hlt. exfalso. clear Hov. rewrite H972 in *.
        remember (2 ^ 972) as B eqn:EB. clear EB H1024 H971.
        remember (2 ^ 970) as H eqn:EH. clear EH. nia.
      * intros _. destruct (Z.leb_spec (2 ^ 1024) (m * E)); [done|lia].
Qed.

Lemma float_of_int_range n :
  0 < n →
  (n < 2 ^ 1024 - 2 ^ 970 → ∃ x, float_of_int n = inr x ∧ 0 < mant x)
  ∧ (2 ^ 1024 - 2 ^ 970 <= n → float_of_int n = inl OverflowError).
Proof.
  intros Hn. unfold float_of_int. destruct (Z.eqb_spec n 0); [lia|].
  rewrite (Z.abs_eq n), (Z.sgn_pos n) by lia.
  destruct (nearest_float_int_range n Hn) as [Hin Hout]. split.
  - intros Hlt. destruct (Hin Hlt) as (x & -> & Hx). eexists. split; [done|].
    simpl. lia.
  - intros Hge. by rewrite (Hout Hge).
Qed.


End SplitInSlicesFacts.



(** ** AccumDict *)

Section AccumDictFacts.
Import General General.AD.
Context {K : Type} `{EqDecision K}.
Implicit Types (σ : store K) (es : list (K * value)) (k : K).

Lemma dict_get_set_eq k v es : dict_get k (dict_set k v es) = Some v.
Proof.
  induction es as [|[k' v'] es IH]; simpl.
  - by rewrite decide_True.
  - destruct (decide (k = k')) as [->|Hne]; simpl.
    + by rewrite decide_True.
    + by rewrite decide_False.
Qed.

Lemma dict_get_set_ne k k' v es : k ≠ k' → dict_get k' (dict_set k v es) = dict_get k' es.
Proof.
  intros Hne. induction es as [|[k0 v0] es IH]; simpl.
  - by rewrite decide_False.
  - destruct (decide (k = k0)) as [->|Hne0]; simpl.
    + by rewrite !decide_False.
    + destruct (decide (k' = k0)); done.
Qed.

Lemma dict_get_None k es : k ∉ es.*1 → dict_get k es = None.
Proof.
  induction es as [|[k' v'] es IH]; simpl; [done|].
  intros Hn. apply not_elem_of_cons in Hn as [? ?]. rewrite decide_False; auto.
Qed.

Lemma dict_set_fresh k v es : k ∉ es.*1 → dict_set k v es = es ++ [(k, v)].
Proof.
  induction es as [|[k' v'] es IH]; simpl; [done|].
  intros Hn. apply not_elem_of_cons in Hn as [? ?].
  rewrite decide_False by done. by rewrite IH.
Qed.

Lemma dict_copy_app es : ∀ acc,
  NoDup (acc.*1 ++ es.*1) →
  fold_left (λ acc kv, dict_set kv.1 kv.2 acc) es acc = acc ++ es.
Proof.
  induction es as [|[k v] es IH]; intros acc Hnd; simpl.
  - by rewrite app_nil_r.
  - simpl in Hnd. rewrite dict_set_fresh.
    + rewrite IH; [by rewrite <- app_assoc|].
      rewrite fmap_app. simpl. by rewrite <- app_assoc.
    + apply NoDup_app in Hnd as (_ & Hd & _). intros Hin.
      apply (Hd _ Hin). left.
Qed.

Lemma dict_copy es :
  NoDup es.*1 → fold_left (λ acc kv, dict_set kv.1 kv.2 acc) es [] = es.
Proof. intros. by rewrite dict_copy_app. Qed.

Lemma int_valued_get (d : list (K * value)) k v : int_valued d → dict_get k d = Some v → ∃ n, v = VInt n.
Proof.
  induction 1 as [|[k' v'] d Hv Hd IH]; simpl; [done|].
  destruct (decide (k = k')); [|done]. intros [= <-].
  destruct v'; [eauto|done].
Qed.

Lemma int_valued_set (d : list (K * value)) k n : int_valued d → int_valued (dict_set k (VInt n) d).
Proof.
  induction 1 as [|[k' v'] d Hv Hd IH]; simpl.
  - by repeat constructor.
  - destruct (decide (k = k')); constructor; done.
Qed.

Lemma isub_step σ a cur k y :
  dicts σ !! a = Some cur → accum cur = None → int_valued (entries cur) →
  try_except_KeyError
    (x ← __getitem__ a k; r ← py_sub x (VInt y); __setitem__ a k r)
    (__setitem__ a k (VInt y)) σ
  = (inr (), {| lists := lists σ;
                dicts := <[a := {| entries := dict_set k (stored_by_isub (entries cur) k y)
                                                       (entries cur);
                                   accum := None |}]> (dicts σ) |}).
Proof.
  intros Ha Hacc Hints.
  unfold try_except_KeyError, __getitem__, __missing__, __setitem__,
    stored_by_isub, mbind, M_bind, read_dict, write_dict, mret, M_ret.
  simpl. rewrite Ha. simpl.
  destruct (dict_get k (entries cur)) as [v|] eqn:Hk.
  - destruct (int_valued_get _ _ _ Hints Hk) as [n ->]. simpl. rewrite Ha. simpl.
    congruence.
  - simpl. rewrite Ha. simpl. rewrite Hacc. simpl. rewrite Ha. simpl. congruence.
Qed.

Lemma isub_loop es : ∀ σ a cur,
  dicts σ !! a = Some cur → accum cur = None → int_valued (entries cur) →
  int_valued es → NoDup es.*1 →
  ∃ final,
    for_each es (λ '(k, v),
      try_except_KeyError
        (x ← __getitem__ a k; r ← py_sub x v; __setitem__ a k r)
        (__setitem__ a k v)) σ
    = (inr (), {| lists := lists σ; dicts := <[a := final]> (dicts σ) |})
    ∧ accum final = None
    ∧ ∀ k, dict_get k (entries final) =
           match dict_get k es with
           | Some (VInt y) => Some (stored_by_isub (entries cur) k y)
           | _ => dict_get k (entries cur)
           end.
Proof.
  induction es as [|[k0 v0] es IH]; intros σ a cur Ha Hacc Hcur Hes Hnd.
  - exists cur. split; [|done]. simpl. unfold mret, M_ret.
    rewrite insert_id by done. by destruct σ.
  - inversion_clear Hes as [|? ? Hv0 Hes']. inversion_clear Hnd as [|? ? Hk0 Hnd'].
    destruct v0 as [y|]; [|done]. simpl.
    unfold mbind at 1. unfold M_bind at 1.
    rewrite (isub_step σ a cur k0 y) by done.
    set (cur1 := {| entries := dict_set k0 (stored_by_isub (entries cur) k0 y)
                                         (entries cur);
                    accum := None |}).
    set (σ1 := {| lists := lists σ; dicts := <[a := cur1]> (dicts σ) |}).
    destruct (IH σ1 a cur1) as (final & Hrun & Hfacc & Hget);
      [apply lookup_insert_eq|done| |done|done|].
    { simpl. destruct (stored_by_isub _ _ _) eqn:E.
      - by apply int_valued_set.
      - unfold stored_by_isub in E. by repeat case_match. }
    exists final. split; [|split; [done|]].
    + rewrite Hrun. simpl. by rewrite insert_insert_eq.
    + intros k. rewrite Hget. simpl.
      destruct (decide (k = k0)) as [->|Hne].
      * rewrite dict_get_None by done. by rewrite dict_get_set_eq.
      * rewrite dict_get_set_ne by done. unfold stored_by_isub.
        by rewrite dict_get_set_ne by done.
Qed.

Lemma isub_loop_policy da db final :
  int_valued db →
  (∀ k, dict_get k final =
        match dict_get k db with
        | Some (VInt y) => Some (stored_by_isub da k y)
        | _ => dict_get k da
        end) →
  subtraction_policy da db final.
Proof.
  intros Hdb Hget k. rewrite Hget. unfold stored_by_isub.
  split; [|split].
  - by intros x y -> ->.
  - by intros v -> ->.
  - intros v -> Hv. destruct (int_valued_get _ _ _ Hdb Hv) as [n ->]. by rewrite Hv.
Qed.

Lemma isub_mapping σ a o da db :
  dicts σ !! a = Some da → dicts σ !! o = Some db →
  accum da = None → int_valued (entries da) → int_valued (entries db) →
  NoDup (entries db).*1 →
  ∃ σ' da',
    __isub__ a (Mapping o) σ = (inr a, σ')
    ∧ dicts σ' = <[a := da']> (dicts σ)
    ∧ subtraction_policy (entries da) (entries db) (entries da').
Proof.
  intros Ha Ho Hacc Hda Hdb Hnd.
  destruct (isub_loop (entries db) σ a da) as (final & Hrun & _ & Hget); try done.
  exists {| lists := lists σ; dicts := <[a := final]> (dicts σ) |}, final.
  split; [|split; [reflexivity|by apply isub_loop_policy]].
  unfold __isub__, mbind, M_bind, read_dict at 1. simpl. rewrite Ho. simpl.
  unfold mbind, M_bind in Hrun. by rewrite Hrun.
Qed.

(** C5, as amended.  For dictionaries of integers: [a -= b] on an [a]
    without accumulator template, and [a - b] for every [a], map a key of
    both to [a[k] - b[k]], keep the value of a key of [a] only, and give a
    key of [b] only the value [b[k]] as it is; [a - b] returns a new
    dictionary and leaves [a] as it was. *)
Theorem subtraction_keeps_raw_value_for_new_keys σ a o da db :
  dicts σ !! a = Some da → dicts σ !! o = Some db →
  NoDup (entries da).*1 → NoDup (entries db).*1 →
  int_valued (entries da) → int_valued (entries db) →
  (accum da = None →
     ∃ σ' da', __isub__ a (Mapping o) σ = (inr a, σ')
               ∧ dicts σ' !! a = Some da'
               ∧ subtraction_policy (entries da) (entries db) (entries da'))
  ∧ (∃ new σ' dnew, __sub__ a (Mapping o) σ = (inr new, σ')
                    ∧ dicts σ !! new = None
                    ∧ dicts σ' !! new = Some dnew
                    ∧ dicts σ' !! a = Some da
                    ∧ subtraction_policy (entries da) (entries db) (entries dnew)).
Proof.
  intros Ha Ho Hnda Hndb Hda Hdb. split.
  - intros Hacc.
    destruct (isub_mapping σ a o da db) as (σ' & da' & Hrun & Hd & Hpol); try done.
    exists σ', da'. split; [done|]. split; [|done]. rewrite Hd. apply lookup_insert_eq.
  - set (new := fresh (dom (dicts σ))).
    assert (Hnew : dicts σ !! new = None).
    { apply not_elem_of_dom. apply is_fresh. }
    assert (new ≠ a) by congruence. assert (new ≠ o) by congruence.
    set (copy := {| entries := entries da; accum := None |}).
    set (σ1 := {| lists := lists σ; dicts := <[new := copy]> (dicts σ) |}).
    destruct (isub_mapping σ1 new o copy db) as (σ' & dnew & Hrun & Hd & Hpol);
      try done.
    { apply lookup_insert_eq. }
    { simpl. by rewrite lookup_insert_ne. }
    exists new, σ', dnew. split; [|split; [done|split; [|split; [|done]]]].
    + unfold __sub__, __init__, mbind, M_bind, read_dict at 1, mret, M_ret, alloc_dict.
      simpl. rewrite Ha. simpl. rewrite dict_copy by done. exact Hrun.
    + rewrite Hd. apply lookup_insert_eq.
    + rewrite Hd. simpl. by rewrite !lookup_insert_ne.
Qed.

Lemma getitem_missing σ self d key :
  dicts σ !! self = Some d → dict_get key (entries d) = None →
  __getitem__ self key σ =
  match accum d with
  | None => (inl KeyError, σ)
  | Some t => (val ← deepcopy t; __setitem__ self key val;; mret val) σ
  end.
Proof.
  intros Hd Hk. unfold __getitem__, __missing__, mbind, M_bind, read_dict.
  simpl. rewrite Hd. simpl. rewrite Hk. simpl. rewrite Hd. simpl.
  by destruct (accum d).
Qed.

Lemma fresh_list_None σ : lists σ !! fresh (dom (lists σ)) = None.
Proof. apply not_elem_of_dom, is_fresh. Qed.

Lemma getitem_template σ self d key t :
  dicts σ !! self = Some d → dict_get key (entries d) = None →
  accum d = Some t →
  ∃ v σ', __getitem__ self key σ = (inr v, σ')
          ∧ deep_copy_of σ σ' t v
          ∧ dicts σ' = <[self := {| entries := dict_set key v (entries d);
                                    accum := accum d |}]> (dicts σ).
Proof.
  intros Hd Hk Hacc. rewrite (getitem_missing σ self d key Hd Hk), Hacc.
  destruct t as [n|lt].
  - eexists (VInt n), {| lists := lists σ; dicts := _ |}.
    unfold deepcopy, __setitem__, mbind, M_bind, mret, M_ret, read_dict, write_dict.
    simpl. rewrite Hd. simpl. split; [reflexivity|]. split; [done|]. by rewrite Hacc.
  - eexists (VList (fresh (dom (lists σ)))), {| lists := _; dicts := _ |}.
    unfold deepcopy, __setitem__, mbind, M_bind, mret, M_ret, read_dict, write_dict,
      read_list, alloc_list.
    simpl. rewrite Hd. simpl. split; [reflexivity|]. split; [|by rewrite Hacc].
    eexists. split; [done|]. split; [apply fresh_list_None|done].
Qed.

Lemma setitem_run σ self d k v :
  dicts σ !! self = Some d →
  __setitem__ self k v σ =
  (inr (), {| lists := lists σ;
              dicts := <[self := {| entries := dict_set k v (entries d);
                                    accum := accum d |}]> (dicts σ) |}).
Proof.
  intros Hd. unfold __setitem__, mbind, M_bind, read_dict, write_dict.
  simpl. by rewrite Hd.
Qed.

Lemma extend_run σ a b xs ys :
  lists σ !! a = Some xs → lists σ !! b = Some ys →
  py_extend (VList a) (VList b) σ =
  (inr (), {| lists := <[a := xs ++ ys]> (lists σ); dicts := dicts σ |}).
Proof.
  intros Ha Hb. unfold py_extend, mbind, M_bind, read_list, write_list.
  simpl. by rewrite Ha, Hb.
Qed.

Lemma accumulators_independent σ self d k1 k2 lt lx ts xs :
  dicts σ !! self = Some d → accum d = Some (VList lt) →
  lists σ !! lt = Some ts → lists σ !! lx = Some xs →
  k1 ≠ k2 → dict_get k1 (entries d) = None → dict_get k2 (entries d) = None →
  ∃ l1 l2 σ' d',
    (v2 ← __getitem__ self k2;
     getitem_iadd_list self k1 (VList lx);; mret v2) σ = (inr (VList l2), σ')
    ∧ dicts σ' !! self = Some d'
    ∧ dict_get k1 (entries d') = Some (VList l1)
    ∧ dict_get k2 (entries d') = Some (VList l2)
    ∧ l1 ≠ l2
    ∧ lists σ' !! l1 = Some (ts ++ xs)
    ∧ lists σ' !! l2 = Some ts
    ∧ lists σ' !! lt = Some ts.
Proof.
  intros Hd Hacc Hlt Hlx Hne Hk1 Hk2.
  destruct (getitem_template σ self d k2 _ Hd Hk2 Hacc)
    as (v2 & σ1 & Hrun2 & (l2 & -> & Hl2 & Hlists1) & Hdicts1).
  rewrite Hlt in Hlists1. simpl in Hlists1.
  set (d1 := {| entries := dict_set k2 (VList l2) (entries d); accum := accum d |}) in *.
  assert (Hd1 : dicts σ1 !! self = Some d1) by (rewrite Hdicts1; apply lookup_insert_eq).
  assert (lt ≠ l2) by congruence. assert (lx ≠ l2) by congruence.
  assert (Hk1' : dict_get k1 (entries d1) = None)
    by (simpl; rewrite dict_get_set_ne by done; done).
  destruct (getitem_template σ1 self d1 k1 _ Hd1 Hk1' Hacc)
    as (v1 & σ2 & Hrun1 & (l1 & -> & Hl1 & Hlists2) & Hdicts2).
  assert (Hlt1 : lists σ1 !! lt = Some ts) by (rewrite Hlists1, lookup_insert_ne; done).
  assert (Hlx1 : lists σ1 !! lx = Some xs) by (rewrite Hlists1, lookup_insert_ne; done).
  assert (Hl21 : lists σ1 !! l2 = Some ts) by (rewrite Hlists1; apply lookup_insert_eq).
  rewrite Hlt1 in Hlists2. simpl in Hlists2.
  assert (lt ≠ l1) by congruence. assert (lx ≠ l1) by congruence.
  assert (l2 ≠ l1) by congruence.
  set (d2 := {| entries := dict_set k1 (VList l1) (entries d1); accum := accum d1 |}) in *.
  set (σ3 := {| lists := <[l1 := ts ++ xs]> (lists σ2); dicts := dicts σ2 |}).
  set (d3 := {| entries := dict_set k1 (VList l1) (entries d2); accum := accum d2 |}).
  exists l1, l2, {| lists := lists σ3; dicts := <[self := d3]> (dicts σ3) |}, d3.
  split; [|split; [apply lookup_insert_eq|split; [|split; [|split; [done|]]]]].
  - unfold getitem_iadd_list, mbind at 1, M_bind at 1. rewrite Hrun2.
    unfold mbind at 1, M_bind at 1, mbind at 1, M_bind at 1. rewrite Hrun1.
    unfold mbind at 1, M_bind at 1.
    rewrite (extend_run σ2 l1 lx ts xs).
    + rewrite (setitem_run _ self d2); [done|].
      simpl. rewrite Hdicts2. apply lookup_insert_eq.
    + rewrite Hlists2. apply lookup_insert_eq.
    + rewrite Hlists2, lookup_insert_ne; done.
  - simpl. by rewrite dict_get_set_eq.
  - simpl. rewrite !dict_get_set_ne by done. by rewrite dict_get_set_eq.
  - simpl. rewrite lookup_insert_eq. split; [done|].
    rewrite !lookup_insert_ne by done. rewrite Hlists2, !lookup_insert_ne by done.
    done.
Qed.

(** C6.  Reading a missing key raises [KeyError] exactly when no
    accumulator template is configured.  With a template the read returns
    a deep copy of it and stores it under the key; the accumulators of two
    keys are distinct objects, distinct from the template, and extending
    the one of a key leaves the one of the other key and the template as
    they were. *)
Theorem missing_key_read σ self d :
  dicts σ !! self = Some d →
  (∀ key, dict_get key (entries d) = None →
     ((__getitem__ self key σ).1 = inl KeyError ↔ accum d = None)
     ∧ ∀ t, accum d = Some t →
         ∃ v σ', __getitem__ self key σ = (inr v, σ')
                 ∧ deep_copy_of σ σ' t v
                 ∧ dicts σ' !! self =
                   Some {| entries := dict_set key v (entries d); accum := accum d |})
  ∧ (∀ k1 k2 lt lx ts xs,
       accum d = Some (VList lt) →
       lists σ !! lt = Some ts → lists σ !! lx = Some xs →
       k1 ≠ k2 → dict_get k1 (entries d) = None → dict_get k2 (entries d) = None →
       ∃ l1 l2 σ' d',
         (v2 ← __getitem__ self k2;
          getitem_iadd_list self k1 (VList lx);; mret v2) σ = (inr (VList l2), σ')
         ∧ dicts σ' !! self = Some d'
         ∧ dict_get k1 (entries d') = Some (VList l1)
         ∧ dict_get k2 (entries d') = Some (VList l2)
         ∧ l1 ≠ l2
         ∧ lists σ' !! l1 = Some (ts ++ xs)
         ∧ lists σ' !! l2 = Some ts
         ∧ lists σ' !! lt = Some ts).
Proof.
  intros Hd. split.
  - intros key Hk. split.
    + rewrite (getitem_missing σ self d key Hd Hk).
      destruct (accum d) as [t|] eqn:Hacc; [|done].
      split; [|done]. intros Hraise. exfalso.
      destruct (getitem_template σ self d key t Hd Hk Hacc) as (v & σ' & Hrun & _).
      rewrite (getitem_missing σ self d key Hd Hk), Hacc in Hrun.
      by rewrite Hrun in Hraise.
    + intros t Hacc.
      destruct (getitem_template σ self d key t Hd Hk Hacc)
        as (v & σ' & Hrun & Hcopy & Hdicts).
      exists v, σ'. split; [done|]. split; [done|].
      rewrite Hdicts. apply lookup_insert_eq.
  - intros. by eapply accumulators_independent.
Qed.
End AccumDictFacts.

Lemma subtraction_keeps_raw_value_for_new_keys_witness :
  General.AD.dicts Examples.two_numbers !! 1%positive = Some Examples.a_entries
  ∧ General.AD.dicts Examples.two_numbers !! 2%positive = Some Examples.b_entries
  ∧ ∃ new σ' dnew,
      General.AD.__sub__ 1%positive (General.AD.Mapping 2%positive)
        Examples.two_numbers = (inr new, σ')
      ∧ General.AD.dicts σ' !! new = Some dnew
      ∧ General.AD.subtraction_policy
          (General.AD.entries Examples.a_entries)
          (General.AD.entries Examples.b_entries)
          (General.AD.entries dnew).
Proof.
  assert (Ha : General.AD.dicts Examples.two_numbers !! 1%positive
               = Some Examples.a_entries) by reflexivity.
  assert (Ho : General.AD.dicts Examples.two_numbers !! 2%positive
               = Some Examples.b_entries) by reflexivity.
  assert (Hnda : NoDup (General.AD.entries Examples.a_entries).*1)
    by (apply (bool_decide_unpack _); reflexivity).
  assert (Hndb : NoDup (General.AD.entries Examples.b_entries).*1)
    by (apply (bool_decide_unpack _); reflexivity).
  assert (Hia : General.AD.int_valued (General.AD.entries Examples.a_entries))
    by (repeat constructor).
  assert (Hib : General.AD.int_valued (General.AD.entries Examples.b_entries))
    by (repeat constructor).
  split; [exact Ha|]. split; [exact Ho|].
  destruct (subtraction_keeps_raw_value_for_new_keys
              Examples.two_numbers 1%positive 2%positive
              Examples.a_entries Examples.b_entries Ha Ho Hnda Hndb Hia Hib)
    as (_ & new & σ' & dnew & Hrun & _ & Hnew & _ & Hpol).
  exists new, σ', dnew. split; [exact Hrun|]. split; [exact Hnew|exact Hpol].
Defined.

(** C5, as stated, fails for [a -= b] when [a] has an accumulator template:
    with [a = AccumDict(accum=0)] and [b = {'k': 5}], the key ['k'] of [b]
    only is read through the template and gets [0 - 5], not [5]. *)
Lemma isub_with_template_subtracts_from_template :
  ∃ σ' da',
    General.AD.dicts Examples.zero_template !! 1%positive
      = Some {| General.AD.entries := []; General.AD.accum := Some (General.AD.VInt 0) |}
    ∧ General.AD.dicts Examples.zero_template !! 2%positive
      = Some {| General.AD.entries := [("k"%string, General.AD.VInt 5)];
                General.AD.accum := None |}
    ∧ General.AD.__isub__ 1%positive (General.AD.Mapping 2%positive)
        Examples.zero_template = (inr 1%positive, σ')
    ∧ General.AD.dicts σ' !! 1%positive = Some da'
    ∧ General.AD.dict_get "k"%string (General.AD.entries da')
      = Some (General.AD.VInt (-5))
    ∧ General.AD.dict_get "k"%string (General.AD.entries da')
      ≠ Some (General.AD.VInt 5).
Proof.
  eexists _, _. split; [reflexivity|]. split; [reflexivity|].
  split; [vm_compute; reflexivity|].
  split; [vm_compute; reflexivity|]. split; [reflexivity|done].
Qed.

(** C4 fails on the code: with [a = AccumDict({'x': [1]})] and
    [b = {'x': [2]}], [a + b] returns a new dictionary and leaves the two
    dictionaries as they were, but the list that [a['x']] refers to has
    become [[1, 2]]: the copy shares it and [__iadd__] extends it in place. *)
Theorem add_extends_list_of_left_operand :
  ∃ new σ',
    General.AD.__add__ 1%positive (General.AD.Mapping 2%positive)
      Examples.two_lists = (inr new, σ')
    ∧ General.AD.dicts Examples.two_lists !! new = None
    ∧ General.AD.dicts σ' !! 1%positive
      = General.AD.dicts Examples.two_lists !! 1%positive
    ∧ General.AD.dicts σ' !! 2%positive
      = General.AD.dicts Examples.two_lists !! 2%positive
    ∧ General.AD.dicts Examples.two_lists !! 1%positive
      = Some {| General.AD.entries := [("x"%string, General.AD.VList 1%positive)];
                General.AD.accum := None |}
    ∧ General.AD.lists Examples.two_lists !! 1%positive = Some [1]
    ∧ General.AD.lists σ' !! 1%positive = Some [1; 2]
    ∧ General.AD.lists σ' !! 2%positive = Some [2].
Proof.
  eexists _, _. split; [vm_compute; reflexivity|].
  repeat split; vm_compute; reflexivity.
Qed.

Lemma missing_key_read_witness :
  General.AD.dicts Examples.list_template !! 1%positive
    = Some Examples.list_template_dict
  ∧ ∃ l1 l2 σ' d',
      (v2 ← General.AD.__getitem__ 1%positive "b"%string;
       General.AD.getitem_iadd_list 1%positive "a"%string
         (General.AD.VList 2%positive);; mret v2) Examples.list_template
        = (inr (General.AD.VList l2), σ')
      ∧ General.AD.dicts σ' !! 1%positive = Some d'
      ∧ General.AD.dict_get "a"%string (General.AD.entries d')
        = Some (General.AD.VList l1)
      ∧ General.AD.dict_get "b"%string (General.AD.entries d')
        = Some (General.AD.VList l2)
      ∧ l1 ≠ l2
      ∧ General.AD.lists σ' !! l1 = Some ([] ++ [1])
      ∧ General.AD.lists σ' !! l2 = Some []
      ∧ General.AD.lists σ' !! 1%positive = Some [].
Proof.
  assert (Hd : General.AD.dicts Examples.list_template !! 1%positive
               = Some Examples.list_template_dict) by reflexivity.
  split; [exact Hd|].
  apply (proj2 (missing_key_read Examples.list_template 1%positive
                  Examples.list_template_dict Hd)
           "a"%string "b"%string 1%positive 2%positive [] [1]);
    (reflexivity || done).
Defined.

(** ** SourceFilter *)

Section SourceFilterFacts.
Import Filters.
Context `{Collaborators}.

Lemma Qltb_zero_l (q : Q) : (q == 0)%Q → Qltb q 0 = false.
Proof. intros Hq. unfold Qltb. apply Qeq_alt in Hq. by rewrite Hq. Qed.

Lemma Qltb_zero_r (q : Q) : (q == 0)%Q → Qltb 0 q = false.
Proof.
  intros Hq. unfold Qltb. symmetry in Hq. apply Qeq_alt in Hq. by rewrite Hq.
Qed.

(** C10.  When the filter has the date-line flag set and the enlarged
    bounding box of a source has a minimum or a maximum longitude equal to
    0, none of the four strict sign cases of [get_affected_box] applies and
    the call returns [None]; in indexed mode the index is then queried
    with [None]. *)
Theorem affected_box_is_None_at_zero_longitude
    (self : SourceFilter) (src : source geom) (maxdist : distance)
    (min_lon min_lat max_lon max_lat : Q) :
  idl self = Some true →
  get_maxdist self src = inr maxdist →
  get_bounding_box src maxdist = inr (min_lon, min_lat, max_lon, max_lat) →
  (min_lon == 0 ∨ max_lon == 0)%Q →
  get_affected_box self src = inr None
  ∧ ∀ sites ix,
      use_rtree self = true → index self = Some ix →
      filter_source self sites src =
      (found ← rtree_intersection ix None;
       let sids := merge_sort Z.le found in
       if negb (len sids =? 0) then
         mret (Some (set_nsites src (len sids),
                     Some (FilteredSiteCollection sids (sitecol_complete sites))))
       else mret None).
Proof.
  intros Hidl Hmax Hbox Hzero.
  assert (Hnone : get_affected_box self src = inr None).
  { unfold get_affected_box. rewrite Hmax. simpl. rewrite Hbox. simpl.
    rewrite Hidl.
    destruct Hzero as [Hz|Hz];
      rewrite (Qltb_zero_l _ Hz), (Qltb_zero_r _ Hz); simpl;
      rewrite ?andb_false_r; done. }
  split; [done|]. intros sites ix Huse Hix.
  unfold filter_source. rewrite Huse, Hnone, Hix. done.
Qed.





Lemma init_indexed sc dist :
  rtree_available = true → distance_bool dist = true →
  ∃ ix flag, __init__ (Some sc) dist true =
    {| integration_distance := dist; sitecol := Some sc; use_rtree := true;
       idl := Some flag; index := Some ix |}.
Proof.
  intros Hav Hd. unfold __init__. rewrite Hav, Hd. simpl.
  destruct (fix_lons_idl _) as [fixed flag]. eauto.
Qed.

Lemma init_plain sc dist :
  __init__ (Some sc) dist false =
  {| integration_distance := dist; sitecol := Some sc; use_rtree := false;
     idl := None; index := None |}.
Proof. reflexivity. Qed.

End SourceFilterFacts.

Section PlanarFilterFacts.
Import Filters Filters.Planar.







End PlanarFilterFacts.

Section SourceFilterExamples.
Import Filters Examples.

Lemma affected_box_is_None_at_zero_longitude_witness :
  let self := __init__ (Some date_line_sites) within_4 true in
  idl self = Some true
  ∧ get_maxdist self src_lon_4 = inr (DScalar 4)
  ∧ get_bounding_box src_lon_4 (DScalar 4)
    = inr (4 - 4, 0 - 4, 4 + 4, 0 + 4)%Q
  ∧ (4 - 4 == 0)%Q
  ∧ get_affected_box self src_lon_4 = inr None.
Proof.
  intros self.
  assert (H1 : idl self = Some true) by reflexivity.
  assert (H2 : get_maxdist self src_lon_4 = inr (DScalar 4)) by reflexivity.
  assert (H3 : get_bounding_box src_lon_4 (DScalar 4)
               = inr (4 - 4, 0 - 4, 4 + 4, 0 + 4)%Q) by reflexivity.
  assert (H4 : (4 - 4 == 0)%Q) by reflexivity.
  split; [exact H1|]. split; [exact H2|]. split; [exact H3|]. split; [exact H4|].
  exact (proj1 (affected_box_is_None_at_zero_longitude
                  (H := Planar.planar) self src_lon_4
                  (DScalar 4) _ _ _ _ H1 H2 H3 (or_introl H4))).
Defined.


(** A [KeyError] of distance filtering is raised again as a [KeyError]
    whose [str] is the [repr] of the message. *)
Lemma key_error_message_is_quoted :
  filter_sites_by_distance_to_source src_no_region (DScalar 4) corner_site
    = inl {| etype := class_KeyError; emsg := "'Volcanic'" |}
  ∧ (__call__ (__init__ (Some corner_site) within_4 false)
       [src_no_region] None).2
    = Some {| etype := class_KeyError;
              emsg := String double_quote
                        ("An error occurred with source id=src-8. Error: 'Volcanic'"
                         +:+ String double_quote EmptyString) |}.
Proof. split; reflexivity. Qed.



(** The date-line flag matters: with sites on both sides of the date line
    the box of a source that straddles the zero meridian is turned inside
    out, and indexed mode drops a source that distance filtering keeps. *)
Lemma index_drops_source_when_sites_cross_date_line :
  let indexed := __init__ (Some far_sites) within_4 true in
  let plain := __init__ (Some far_sites) within_4 false in
  idl indexed = Some true
  ∧ get_affected_box indexed src_greenwich
    = inr (Some (1 + 4, 0 - 4, 1 - 4 + 360, 0 + 4)%Q)
  ∧ (__call__ indexed [src_greenwich] None).2 = None
  ∧ (__call__ plain [src_greenwich] None).2 = None
  ∧ map (λ y, source_id y.1) (__call__ indexed [src_greenwich] None).1 = []
  ∧ map (λ y, source_id y.1) (__call__ plain [src_greenwich] None).1 = ["src-7"].
Proof. repeat split; reflexivity. Qed.

End SourceFilterExamples.

(** ** Further properties of general.py and filters.py *)

Section SlicesFacts.
Import General Slices.

Lemma gen_slices_loop_more_fuel stop blocksize :
  ∀ f1 f2 st r, (f1 <= f2)%nat →
    gen_slices_loop f1 st stop blocksize = Some r →
    gen_slices_loop f2 st stop blocksize = Some r.
Proof.
  induction f1 as [|f1 IH]; intros f2 st r Hle; [done|].
  destruct f2 as [|f2]; [lia|]. simpl.
  destruct (_ >=? _); [done|].
  destruct (gen_slices_loop f1 _ _ _) as [l|] eqn:E; [|done].
  rewrite (IH f2 _ l); [done|lia|done].
Qed.

(** The loop of [split_in_slices] yields what the loop of [gen_slices] does. *)
Lemma split_in_slices_loop_gen_slices fuel number blocksize : ∀ acc st,
  split_in_slices_loop fuel number blocksize acc st
  = (acc ++.) <$> gen_slices_loop fuel st number blocksize.
Proof.
  induction fuel as [|fuel IH]; intros acc st; [done|]. simpl.
  destruct (Z.eqb_spec (Z.min (st + blocksize) number) number) as [E|E],
           (Z.geb_spec (st + blocksize) number) as [G|G]; try lia.
  - done.
  - rewrite IH. destruct (gen_slices_loop _ _ _ _); simpl; [|done].
    by rewrite <- app_assoc.
Qed.

Lemma split_in_slices_loop_stuck fuel number : ∀ acc,
  0 < number → split_in_slices_loop fuel number 0 acc 0 = None.
Proof.
  induction fuel as [|fuel IH]; intros acc Hn; [done|]. simpl.
  change (0 + 0) with 0.
  destruct (Z.eqb_spec (Z.min 0 number) number); [lia|].
  rewrite Z.min_l by lia. by apply IH.
Qed.

(** X1.  For positive arguments whose quotient is a float [q],
    [split_in_slices(number, num_slices)] has the block size
    [math.ceil(q)]: when it is positive the slices returned are those that
    [gen_slices(0, number, blocksize)] yields, and when it is zero (the
    quotient underflows) the loop of [split_in_slices] never ends, where
    [gen_slices] fails its assertion. *)
Theorem split_in_slices_is_gen_slices fuel n k q :
  0 < n → 0 < k → int_true_divide n k = inr q →
  (0 < math_ceil q →
   split_in_slices fuel n k
   = (λ r, inr r.1) <$> gen_slices fuel 0 n (math_ceil q))
  ∧ (math_ceil q = 0 →
     split_in_slices fuel n k = None
     ∧ gen_slices fuel 0 n (math_ceil q) = Some ([], Some AssertionError)).
Proof.
  intros Hn Hk Hq. unfold split_in_slices, gen_slices.
  destruct (Z.gtb_spec n 0); [|lia]. destruct (Z.gtb_spec k 0); [|lia].
  destruct (Z.leb_spec 0 n); [|lia]. simpl. rewrite Hq. split.
  - intros Hbs. destruct (Z.gtb_spec (math_ceil q) 0); [|lia]. simpl.
    rewrite split_in_slices_loop_gen_slices.
    by destruct (gen_slices_loop _ _ _ _).
  - intros ->. simpl. by rewrite split_in_slices_loop_stuck.
Qed.

(** Beyond the floats: a quotient of [2 ** 1024] raises [OverflowError],
    and a quotient of [2 ** -1075] is rounded to zero, so that the block
    size is zero and the loop never ends. *)
Lemma split_in_slices_beyond_the_floats fuel :
  split_in_slices fuel (2 ^ 1024) 1 = Some (inl OverflowError)
  ∧ split_in_slices fuel 1 (2 ^ 1075) = None.
Proof.
  split; [done|].
  unfold split_in_slices. simpl negb. cbv iota.
  assert (int_true_divide 1 (2 ^ 1075) = inr (mkfloat 0 (-1074))) as ->
    by (vm_compute; reflexivity).
  change (math_ceil (mkfloat 0 (-1074))) with 0.
  by rewrite split_in_slices_loop_stuck.
Qed.

(** X2.  [gen_slices] ends without exception.  For [start < stop] its slices
    follow one another from [start] to [stop], none is empty, each but the
    last has length [blocksize], and the last is not longer.  For
    [start = stop] it yields the one empty slice: the loop yields before
    it tests. *)
Theorem gen_slices_spec fuel start stop blocksize :
  start <= stop → 0 < blocksize →
  (Z.to_nat (stop - start) <= fuel)%nat → (0 < fuel)%nat →
  ∃ slices,
    gen_slices fuel start stop blocksize = Some (slices, None)
    ∧ (start = stop → slices = [mkslice start start])
    ∧ (start < stop → chained start slices stop)
    ∧ (∀ s, s ∈ slices → General.stop s - General.start s <= blocksize)
    ∧ (∀ i s, slices !! i = Some s → (S i < length slices)%nat →
              General.stop s - General.start s = blocksize)
    ∧ (len slices - 1) * blocksize < Z.max 1 (stop - start)
    ∧ Z.max 1 (stop - start) <= len slices * blocksize.
Proof.
  intros Hle Hbs Hfuel Hpos. unfold gen_slices.
  destruct (Z.leb_spec start stop); [|lia].
  destruct (Z.gtb_spec blocksize 0); [|lia]. simpl.
  assert (Hloop : ∀ fl st, st <= stop → (Z.to_nat (stop - st) <= fl)%nat →
            (0 < fl)%nat →
            ∃ slices, gen_slices_loop fl st stop blocksize = Some slices
              ∧ (st = stop → slices = [mkslice st st])
              ∧ (st < stop → chained st slices stop)
              ∧ (∀ s, s ∈ slices → General.stop s - General.start s <= blocksize)
              ∧ (∀ i s, slices !! i = Some s → (S i < length slices)%nat →
                        General.stop s - General.start s = blocksize)
              ∧ (len slices - 1) * blocksize < Z.max 1 (stop - st)
              ∧ Z.max 1 (stop - st) <= len slices * blocksize).
  { clear -Hbs. induction fl as [|f IH]; intros st Hst Hf Hp; [lia|]. simpl.
    destruct (Z.geb_spec (st + blocksize) stop) as [G|G].
    - eexists. split; [done|]. split; [intros ->; f_equal; f_equal; lia|].
      split; [intros; simpl; lia|]. split.
      { intros s Hs. apply list_elem_of_singleton in Hs as ->. simpl. lia. }
      split; [intros i s _ Hi; simpl in Hi; lia|]. unfold len. simpl. lia.
    - destruct (IH (st + blocksize)) as (tl & -> & _ & Hch & Hlen & Heq & Hn1 & Hn2);
        [lia|lia|lia|].
      eexists. split; [done|]. split; [lia|]. specialize (Hch ltac:(lia)).
      split; [intros _; simpl; split; [done|]; split; [lia|];
              by replace (Z.min (st + blocksize) stop) with (st + blocksize) by lia|].
      split.
      { intros s Hs. apply elem_of_cons in Hs as [->|Hs]; [simpl; lia|by apply Hlen]. }
      split.
      { intros [|i] s Hi Hlt; simpl in *.
        - injection Hi as <-. simpl. lia.
        - apply (Heq i); [done|lia]. }
      unfold len in *. simpl length. split; nia. }
  destruct (Hloop fuel start) as (slices & -> & H1 & H2 & H3 & H4 & H5); try done.
  by exists slices.
Qed.
End SlicesFacts.

Section KeysFacts.
Import Keys.
Context `{Countable K}.
Implicit Types (l keys out : list K) (known : gset K).

Lemma size_list_to_set_le l : (size (list_to_set l : gset K) <= length l)%nat.
Proof.
  induction l as [|x l IH]; simpl; [done|].
  destruct (decide (x ∈ (list_to_set l : gset K))).
  - replace ({[x]} ∪ list_to_set l) with (list_to_set l : gset K) by set_solver. lia.
  - rewrite size_union by set_solver. rewrite size_singleton. lia.
Qed.

Lemma repeated_duplicated l : ¬ NoDup l → duplicated l = true.
Proof.
  unfold duplicated. rewrite bool_decide_eq_true.
  intros Hdup. induction l as [|x l IH]; [exfalso; apply Hdup; constructor|].
  simpl. pose proof (size_list_to_set_le l).
  destruct (decide (x ∈ l)) as [Hin|Hin].
  - replace ({[x]} ∪ list_to_set l) with (list_to_set l : gset K) by set_solver. lia.
  - rewrite size_union by set_solver. rewrite size_singleton.
    assert (¬ NoDup l) by (intros ?; apply Hdup; by constructor).
    specialize (IH ltac:(done)). lia.
Qed.

(** The loop keeps the keys listed so far, and appends the first
    occurrence of each key that is not yet known. *)
Lemma distinct_loop_spec keys : ∀ known out,
  (∀ k, k ∈ known ↔ k ∈ out) → NoDup out →
  ∃ new,
    distinct_loop keys known out = out ++ new
    ∧ NoDup (out ++ new)
    ∧ (∀ k, k ∈ new ↔ k ∈ keys ∧ k ∉ out)
    ∧ new `sublist_of` keys.
Proof.
  induction keys as [|key keys IH]; intros known out Hk Hnd; simpl.
  - exists []. rewrite app_nil_r. split; [done|]. split; [done|].
    split; [|done]. intros k. rewrite elem_of_nil. set_solver.
  - destruct (decide (key ∈ known)) as [Hin|Hin].
    + destruct (IH ({[key]} ∪ known) out) as (new & -> & Hnd' & Hmem & Hsub).
      { intros k. rewrite elem_of_union, elem_of_singleton, Hk.
        split; [intros [->|?]; [by apply Hk|done]|auto]. }
      { done. }
      exists new. split; [done|]. split; [done|]. split.
      * intros k. rewrite Hmem, elem_of_cons. split; [naive_solver|].
        intros [[->|?] Hn]; [|done]. exfalso. by apply Hn, Hk.
      * by apply sublist_cons.
    + destruct (IH ({[key]} ∪ known) (out ++ [key])) as (new & -> & Hnd' & Hmem & Hsub).
      { intros k. rewrite elem_of_union, elem_of_singleton, elem_of_app,
          list_elem_of_singleton, Hk. tauto. }
      { apply NoDup_app. split; [done|]. split; [|apply NoDup_singleton].
        intros k Hko Hk1. apply list_elem_of_singleton in Hk1 as ->.
        by apply Hin, Hk. }
      exists (key :: new). rewrite <- app_assoc in *. simpl in *.
      split; [done|]. split; [done|]. split.
      * intros k. rewrite !elem_of_cons, Hmem, elem_of_app, list_elem_of_singleton.
        split.
        -- intros [->|[? ?]]; [split; [by left|]; by rewrite <- Hk|].
           split; [by right|tauto].
        -- intros [[->|?] ?]; [by left|]. destruct (decide (k = key)); [by left|].
           right. tauto.
      * by apply sublist_skip.
Qed.

Lemma distinct_loop_NoDup keys : ∀ known out,
  (∀ k, k ∈ known ↔ k ∈ out) → NoDup (out ++ keys) →
  distinct_loop keys known out = out ++ keys.
Proof.
  induction keys as [|key keys IH]; intros known out Hk Hnd; simpl.
  - by rewrite app_nil_r.
  - apply NoDup_app in Hnd as Hnd'. destruct Hnd' as (Hout & Hdisj & Hkeys).
    rewrite decide_False.
    + rewrite (IH _ (out ++ [key])); [by rewrite <- app_assoc| |].
      * intros k. rewrite elem_of_union, elem_of_singleton, elem_of_app,
          list_elem_of_singleton, Hk. tauto.
      * by rewrite <- app_assoc.
    + intros Hin. apply Hk in Hin. apply (Hdisj _ Hin). left.
Qed.

(** X3.  [duplicated] is true exactly when some item occurs twice. *)
Theorem duplicated_iff_repeated l : duplicated l = true ↔ ¬ NoDup l.
Proof.
  split; [|apply repeated_duplicated].
  unfold duplicated. rewrite bool_decide_eq_true.
  intros Hlt Hnd. rewrite size_list_to_set in Hlt by done. lia.
Qed.

(** The loop writes, after the keys listed so far, the distinct keys of
    the rest that are not listed yet. *)
Lemma distinct_loop_filter keys : ∀ known out,
  (∀ k, k ∈ known ↔ k ∈ out) →
  distinct_loop keys known out
  = out ++ filter (λ y, y ∉ out) (distinct keys).
Proof.
  induction keys as [|key keys IH]; intros known out Hk.
  - simpl. by rewrite app_nil_r.
  - assert (Hhead : distinct (key :: keys)
                    = key :: filter (λ y, y ∉ [key]) (distinct keys)).
    { unfold distinct at 1. simpl. rewrite decide_False by set_solver.
      rewrite (IH _ [key]); [done|]. intros k. set_solver. }
    rewrite Hhead. simpl. destruct (decide (key ∈ known)) as [Hin|Hin].
    + rewrite (IH _ out) by (intros k; specialize (Hk k); set_solver).
      f_equal. apply Hk in Hin. rewrite filter_cons_False by tauto.
      rewrite list_filter_filter. apply list_filter_iff. intros y.
      rewrite list_elem_of_singleton. split; [|tauto].
      intros Hy. split; [done|]. by intros ->.
    + rewrite (IH _ (out ++ [key])).
      2:{ intros k. rewrite elem_of_union, elem_of_singleton, elem_of_app,
            list_elem_of_singleton, Hk. tauto. }
      rewrite <- app_assoc. f_equal. simpl.
      rewrite filter_cons_True by (by rewrite <- Hk). f_equal.
      rewrite list_filter_filter. apply list_filter_iff. intros y.
      rewrite elem_of_app. tauto.
Qed.

(** X4.  [distinct] keeps the first occurrence of each key, in the order of the
    input: the first key comes first, followed by the distinct keys of the
    rest less that key.  The result has no repetition and the same members,
    applying [distinct] again changes nothing, and a list without
    duplicates is returned as it is. *)
Theorem distinct_spec keys :
  NoDup (distinct keys)
  ∧ (∀ k, k ∈ distinct keys ↔ k ∈ keys)
  ∧ distinct keys `sublist_of` keys
  ∧ distinct (distinct keys) = distinct keys
  ∧ (duplicated keys = false → distinct keys = keys)
  ∧ distinct (@nil K) = []
  ∧ (∀ k, distinct (k :: keys)
          = k :: filter (λ y, y ≠ k) (distinct keys)).
Proof.
  assert (Hcons : ∀ k, distinct (k :: keys)
                       = k :: filter (λ y, y ≠ k) (distinct keys)).
  { intros k. unfold distinct at 1. simpl. rewrite decide_False by set_solver.
    rewrite (distinct_loop_filter keys _ [k]) by (intros y; set_solver).
    simpl. f_equal. apply list_filter_iff. intros y.
    by rewrite list_elem_of_singleton. }
  cut (NoDup (distinct keys)
       ∧ (∀ k, k ∈ distinct keys ↔ k ∈ keys)
       ∧ distinct keys `sublist_of` keys
       ∧ distinct (distinct keys) = distinct keys
       ∧ (duplicated keys = false → distinct keys = keys)); [tauto|].
  assert (Hspec : ∀ l, NoDup (distinct l) ∧ (∀ k, k ∈ distinct l ↔ k ∈ l)
                       ∧ distinct l `sublist_of` l).
  { intros l. unfold distinct.
    destruct (distinct_loop_spec l ∅ []) as (new & -> & Hnd & Hmem & Hsub).
    { intros k. rewrite elem_of_nil. set_solver. }
    { constructor. }
    simpl in *. split; [done|]. split; [|done].
    intros k. rewrite Hmem, elem_of_nil. tauto. }
  assert (Hid : ∀ l, NoDup l → distinct l = l).
  { intros l Hnd. unfold distinct. rewrite distinct_loop_NoDup; [done| |done].
    intros k. rewrite elem_of_nil. set_solver. }
  destruct (Hspec keys) as (Hnd & Hmem & Hsub).
  split; [done|]. split; [done|]. split; [done|]. split; [by apply Hid|].
  intros Hdup. apply Hid. destruct (decide (NoDup keys)) as [|Hn]; [done|].
  apply repeated_duplicated in Hn. congruence.
Qed.
End KeysFacts.

Lemma count_len {A} (l : list A) : Grouping.count l = len l.
Proof. induction l as [|x l IH]; [done|]. unfold len in *. simpl. lia. Qed.

Section DictFacts.
Import Grouping.
Context {K V : Type} `{EqDecision K}.
Implicit Types (d : list (K * V)).

Lemma dget_dset_eq k v d : dget k (dset k v d) = Some v.
Proof.
  induction d as [|[k' v'] d IH]; simpl.
  - by rewrite decide_True.
  - destruct (decide (k = k')) as [->|Hne]; simpl.
    + by rewrite decide_True.
    + by rewrite decide_False.
Qed.

Lemma dget_dset_ne k k' v d : k ≠ k' → dget k' (dset k v d) = dget k' d.
Proof.
  intros Hne. induction d as [|[k0 v0] d IH]; simpl.
  - by rewrite decide_False.
  - destruct (decide (k = k0)) as [->|Hne0]; simpl.
    + by rewrite !decide_False.
    + destruct (decide (k' = k0)); done.
Qed.

Lemma dset_fresh k v d : k ∉ d.*1 → dset k v d = d ++ [(k, v)].
Proof.
  induction d as [|[k' v'] d IH]; simpl; [done|].
  intros Hn. apply not_elem_of_cons in Hn as [? ?].
  rewrite decide_False by done. by rewrite IH.
Qed.

Lemma dget_None k d : dget k d = None ↔ k ∉ d.*1.
Proof.
  induction d as [|[k' v'] d IH]; simpl.
  - split; [intros _; apply not_elem_of_nil|done].
  - rewrite not_elem_of_cons. destruct (decide (k = k')); [naive_solver|].
    rewrite IH. tauto.
Qed.

Lemma dget_fmap {W} (f : V → W) k d :
  dget k (prod_map id f <$> d) = f <$> dget k d.
Proof.
  induction d as [|[k' v'] d IH]; simpl; [done|].
  by destruct (decide (k = k')).
Qed.
Lemma elem_of_dget k v d : NoDup d.*1 → (k, v) ∈ d ↔ dget k d = Some v.
Proof.
  induction d as [|[k' v'] d IH]; simpl; intros Hnd.
  - split; [by intros ?%elem_of_nil|done].
  - apply NoDup_cons in Hnd as [Hk' Hnd]. rewrite elem_of_cons, IH by done.
    destruct (decide (k = k')) as [->|Hne].
    + split; [|naive_solver]. intros [[= ->]|Hget]; [done|].
      exfalso. apply Hk'. apply dget_None in Hk' as Hn. congruence.
    + naive_solver.
Qed.
End DictFacts.

Section GroupingFacts.
Import Grouping.
Context {A K V : Type} `{EqDecision K}.
Variable lt : K → K → bool.
Variable key : A → K.
Hypothesis lt_irrefl : ∀ x, lt x x = false.
Hypothesis lt_trans : ∀ x y z, lt x y = true → lt y z = true → lt x z = true.
Hypothesis lt_total : ∀ x y, x ≠ y → lt x y = true ∨ lt y x = true.

Local Abbreviation has k := (λ x : A, key x = k).

(** A stable sort keeps, for each key, the objects with that key in order. *)
Lemma filter_insort k x l :
  filter (has k) (insort lt key x l) = filter (has k) (x :: l).
Proof.
  induction l as [|y l IH]; simpl; [done|].
  destruct (lt (key y) (key x)) eqn:E; [|done].
  rewrite !filter_cons in *. rewrite IH.
  destruct (decide (key y = k)) as [Hy|Hy], (decide (key x = k)) as [Hx|Hx];
    try done.
  rewrite Hy, Hx, lt_irrefl in E. done.
Qed.

Lemma filter_sorted k l : filter (has k) (sorted lt key l) = filter (has k) l.
Proof.
  induction l as [|x l IH]; simpl; [done|].
  rewrite filter_insort, !filter_cons, IH. done.
Qed.

Local Abbreviation ordered := (ordered lt key).

Lemma lt_false_trans x y z :
  lt y x = false → lt z y = false → lt z x = false.
Proof.
  intros Hyx Hzy. destruct (lt z x) eqn:E; [|done].
  destruct (decide (x = y)) as [->|Hxy]; [congruence|].
  destruct (lt_total x y Hxy) as [Hlt|Hlt]; [|congruence].
  rewrite (lt_trans z x y E Hlt) in Hzy. done.
Qed.

Lemma elem_of_insort z x l : z ∈ insort lt key x l ↔ z = x ∨ z ∈ l.
Proof.
  induction l as [|y l IH]; simpl;
    [rewrite list_elem_of_singleton, elem_of_nil; tauto|].
  destruct (lt (key y) (key x)); rewrite !elem_of_cons, ?IH; tauto.
Qed.

Lemma insort_ordered x l : ordered l → ordered (insort lt key x l).
Proof.
  induction 1 as [|y l Hl IH Hy]; simpl; [repeat constructor|].
  destruct (lt (key y) (key x)) eqn:E.
  - constructor; [done|]. apply Forall_forall. intros z Hz.
    apply elem_of_insort in Hz as [->|Hz].
    + destruct (lt (key x) (key y)) eqn:E'; [|done].
      pose proof (lt_trans _ _ _ E E') as F. by rewrite lt_irrefl in F.
    + rewrite Forall_forall in Hy. by apply Hy.
  - constructor; [by constructor|]. constructor; [done|].
    apply Forall_forall. intros z Hz. rewrite Forall_forall in Hy.
    eapply lt_false_trans; [exact E|by apply Hy].
Qed.

Lemma sorted_ordered l : ordered (sorted lt key l).
Proof.
  induction l as [|x l IH]; simpl; [constructor|by apply insort_ordered].
Qed.

Lemma itertools_groupby_head x l :
  ∃ g gs, itertools_groupby key (x :: l) = (key x, x :: g) :: gs.
Proof.
  simpl. destruct (itertools_groupby key l) as [|[k g] gs]; [by eexists _, _|].
  destruct (decide (key x = k)) as [<-|]; by eexists _, _.
Qed.

Lemma filter_nil_Forall (P : A → Prop) `{∀ x, Decision (P x)} l :
  Forall (λ z, ¬ P z) l → filter P l = [].
Proof.
  induction 1 as [|z l Hz Hl IH]; [done|]. by rewrite filter_cons_False.
Qed.

(** On a list ordered by key, the runs are the classes of the keys. *)
Lemma itertools_groupby_ordered l :
  ordered l →
  ∀ k, dget k (itertools_groupby key l) =
       match filter (has k) l with [] => None | g => Some g end.
Proof.
  induction 1 as [|x l Hl IH Hx]; intros k; simpl; [done|].
  rewrite filter_cons. specialize (IH k).
  destruct (itertools_groupby key l) as [|[k0 g0] gs] eqn:Egs.
  - destruct l as [|y l];
      [|by destruct (itertools_groupby_head y l) as (? & ? & ?); congruence].
    simpl. destruct (decide (key x = k)) as [<-|Hne].
    + by rewrite decide_True.
    + by rewrite decide_False by congruence.
  - destruct (decide (key x = k0)) as [<-|Hk0]; simpl in *.
    + destruct (decide (key x = k)) as [<-|Hne].
      * rewrite decide_True in * by done. by destruct (filter _ l); simplify_eq.
      * rewrite decide_False in * by congruence. done.
    + destruct (decide (key x = k)) as [<-|Hne].
      * rewrite decide_True by done.
        assert (filter (has (key x)) l = []) as ->; [|done].
        destruct l as [|y l]; [done|].
        destruct (itertools_groupby_head y l) as (g & gs' & Hhead).
        rewrite Hhead in Egs. simplify_eq.
        apply Forall_cons in Hx as [Hyx Hrest].
        apply StronglySorted_inv in Hl as [_ Hy].
        destruct (lt_total (key x) (key y) Hk0) as [Hlt|Hlt]; [|congruence].
        apply filter_nil_Forall. constructor; [congruence|].
        rewrite Forall_forall in Hy |- *. intros z Hz Hkz.
        specialize (Hy z Hz). simpl in Hkz. congruence.
      * rewrite decide_False by congruence. done.
Qed.

Lemma elem_of_groupby_keys l k :
  ordered l → k ∈ (itertools_groupby key l).*1 → ∃ z, z ∈ l ∧ key z = k.
Proof.
  intros Hl Hk.
  destruct (dget k (itertools_groupby key l)) as [g|] eqn:Hget.
  - rewrite itertools_groupby_ordered in Hget by done.
    destruct (filter (has k) l) as [|z g'] eqn:E; [done|].
    assert (Hin : z ∈ filter (has k) l) by (rewrite E; left).
    apply list_elem_of_filter in Hin as [? ?]. by exists z.
  - apply dget_None in Hget. done.
Qed.

Lemma itertools_groupby_keys_sorted l :
  ordered l →
  StronglySorted (λ a b, lt a b = true) (itertools_groupby key l).*1.
Proof.
  intros Hl. induction Hl as [|x l Hl IH Hx]; simpl; [constructor|].
  pose proof (elem_of_groupby_keys l) as Hkeys.
  destruct (itertools_groupby key l) as [|[k0 g0] gs] eqn:Egs;
    [repeat constructor|].
  destruct (decide (key x = k0)) as [<-|Hk0]; [done|].
  simpl in *. constructor; [done|]. apply Forall_forall. intros k Hk.
  destruct (Hkeys k Hl Hk) as (z & Hz & <-).
  rewrite Forall_forall in Hx. pose proof (Hx z Hz) as Hxz.
  destruct (decide (key x = key z)) as [Heq|Hne];
    [|by destruct (lt_total _ _ Hne); [|congruence]].
  exfalso. destruct l as [|y l]; [by apply elem_of_nil in Hz|].
  destruct (itertools_groupby_head y l) as (g & gs' & Hhead).
  rewrite Hhead in Egs. simplify_eq.
  apply StronglySorted_inv in Hl as [_ Hy]. rewrite Forall_forall in Hy.
  destruct (lt_total _ _ Hk0) as [Hlt|Hlt].
  - apply elem_of_cons in Hz as [->|Hz]; [done|].
    specialize (Hy z Hz). simpl in Hy. congruence.
  - specialize (Hx y ltac:(left)). congruence.
Qed.
Lemma lt_sorted_NoDup (ks : list K) :
  StronglySorted (λ a b, lt a b = true) ks → NoDup ks.
Proof.
  induction 1 as [|k ks Hks IH Hk]; constructor; [|done].
  intros Hin. rewrite Forall_forall in Hk. specialize (Hk k Hin).
  by rewrite lt_irrefl in Hk.
Qed.

Lemma fold_dset_groups (r : list A → V) (gs : list (K * list A)) : ∀ acc,
  NoDup (acc.*1 ++ gs.*1) →
  fold_left (λ d kg, dset kg.1 (r kg.2) d) gs acc
  = acc ++ (prod_map id r <$> gs).
Proof.
  induction gs as [|[k g] gs IH]; intros acc Hnd; simpl.
  - by rewrite app_nil_r.
  - simpl in Hnd. rewrite dset_fresh.
    + rewrite IH; [by rewrite <- app_assoc|].
      rewrite fmap_app. simpl. by rewrite <- app_assoc.
    + apply NoDup_app in Hnd as (_ & Hd & _). intros Hin.
      apply (Hd _ Hin). left.
Qed.

Lemma keys_prod_map (r : list A → V) (gs : list (K * list A)) :
  (prod_map id r <$> gs).*1 = gs.*1.
Proof. induction gs as [|[k g] gs IH]; simpl; [done|]. by f_equal. Qed.

Lemma groupby_lookup (objects : list A) (reducegroup : list A → V) k :
  dget k (groupby lt key objects reducegroup) =
  match filter (has k) objects with
  | [] => None
  | g => Some (reducegroup g)
  end.
Proof.
  unfold groupby. cbv zeta.
  pose proof (sorted_ordered objects) as Hord.
  pose proof (itertools_groupby_keys_sorted _ Hord) as Hkeys.
  rewrite fold_dset_groups by (simpl; by apply lt_sorted_NoDup).
  simpl. rewrite dget_fmap, itertools_groupby_ordered by done.
  rewrite filter_sorted. by destruct (filter _ objects).
Qed.

Lemma groupby_keys_sorted (objects : list A) (reducegroup : list A → V) :
  StronglySorted (λ a b, lt a b = true)
    (groupby lt key objects reducegroup).*1.
Proof.
  unfold groupby. cbv zeta.
  pose proof (sorted_ordered objects) as Hord.
  pose proof (itertools_groupby_keys_sorted _ Hord) as Hkeys.
  rewrite fold_dset_groups by (simpl; by apply lt_sorted_NoDup).
  simpl. by rewrite keys_prod_map.
Qed.

End GroupingFacts.

Section GroupbyFacts.
Import Grouping.
Context {A K V : Type} `{EqDecision K}.
Variable lt : K → K → bool.
Variable key : A → K.
Hypothesis lt_irrefl : ∀ x, lt x x = false.
Hypothesis lt_trans : ∀ x y z, lt x y = true → lt y z = true → lt x z = true.
Hypothesis lt_total : ∀ x y, x ≠ y → lt x y = true ∨ lt y x = true.

(** X5.  [groupby] maps each key that occurs to the reduction of the objects
    with that key, taken in the order of the input, and lists the keys in
    increasing order; [countby] so maps each key that occurs to the
    number of objects with that key. *)
Theorem groupby_classes (objects : list A) (reducegroup : list A → V) :
  (∀ k, dget k (groupby lt key objects reducegroup) =
        match filter (λ x, key x = k) objects with
        | [] => None
        | g => Some (reducegroup g)
        end)
  ∧ StronglySorted (λ a b, lt a b = true)
      (groupby lt key objects reducegroup).*1
  ∧ (∀ k, dget k (countby lt objects key) =
          let n := len (filter (λ x, key x = k) objects) in
          if n =? 0 then None else Some n).
Proof.
  split; [|split].
  - intros k. by apply groupby_lookup.
  - by apply groupby_keys_sorted.
  - intros k. unfold countby. rewrite groupby_lookup by done.
    destruct (filter _ objects) as [|r rs]; [done|].
    rewrite count_len. cbv zeta.
    assert ((len (r :: rs) =? 0) = false) as ->; [|done].
    apply Z.eqb_neq. unfold len. simpl. lia.
Qed.
End GroupbyFacts.


Section BlockSplitterMore.
Import General General.WS Partition.
Context {T K : Type} `{EqDecision K}.
Variables (Unspecified : K) (max_weight : Z).
Variables (weight_fn : T → Z) (key_fn : T → K).

Local Abbreviation loop := (block_splitter_loop max_weight weight_fn key_fn).

Lemma chunks_weight_app (c1 c2 : list (WeightedSequence T)) :
  chunks_weight (c1 ++ c2) = chunks_weight c1 + chunks_weight c2.
Proof. induction c1 as [|c c1 IH]; simpl; lia. Qed.

Lemma block_splitter_loop_conserves items : ∀ ws prev_key,
  (∀ x, x ∈ items → 0 <= weight_fn x) →
  weight_invariant weight_fn ws →
  ∃ chunks,
    loop items ws prev_key = (chunks, None)
    ∧ chunks_weight chunks = weight ws + total_weight weight_fn items
    ∧ ∃ kept,
        concat (_seq <$> chunks) = _seq ws ++ kept
        ∧ kept `sublist_of` items
        ∧ filter (λ x, 0 < weight_fn x) items `sublist_of` kept.
Proof.
  induction items as [|item rest IH]; intros ws prev_key Hw Hws; simpl.
  - destruct (truthy ws) eqn:E.
    + eexists. split; [done|]. split; [simpl; lia|]. exists []. simpl.
      by rewrite !app_nil_r.
    + eexists. split; [done|].
      assert (_seq ws = []) as Hnil.
      { destruct (decide (_seq ws = [])); [done|].
        apply truthy_nonempty in n. congruence. }
      unfold weight_invariant in Hws. rewrite Hnil in Hws. simpl in *.
      split; [lia|]. exists []. by rewrite Hnil.
  - assert (0 <= weight_fn item) by (apply Hw; left).
    assert (Hrest : ∀ x, x ∈ rest → 0 <= weight_fn x)
      by (intros; apply Hw; by right).
    destruct (Z.ltb_spec (weight_fn item) 0); [lia|].
    destruct (_ || _) eqn:Enew.
    + destruct (IH (__init__ [(item, weight_fn item)]) (key_fn item) Hrest)
        as (ys & -> & Hsum & kept & Hcat & Hsub & Hpos).
      { unfold weight_invariant. simpl. lia. }
      simpl in *. eexists. split; [done|].
      rewrite chunks_weight_app, Hsum, fmap_app, concat_app, Hcat.
      assert (Hhead : chunks_weight (if truthy ws then [ws] else []) = weight ws
                      ∧ concat (_seq <$> (if truthy ws then [ws] else [])) = _seq ws).
      { destruct (truthy ws) eqn:E; simpl; [by rewrite app_nil_r, Z.add_0_r|].
        assert (_seq ws = []) as Hnil.
        { destruct (decide (_seq ws = [])) as [|n]; [done|].
          apply truthy_nonempty in n. congruence. }
        unfold weight_invariant in Hws. rewrite Hnil in *. simpl in *. done. }
      destruct Hhead as [-> ->]. split; [lia|].
      exists (item :: kept). split; [done|]. split; [by apply sublist_skip|].
      rewrite filter_cons. destruct (decide _); [by apply sublist_skip|by apply sublist_cons].
    + destruct (Z.gtb_spec (weight_fn item) 0).
      * destruct (IH (append ws (item, weight_fn item)) (key_fn item) Hrest)
          as (ys & Hrun & Hsum & kept & Hcat & Hsub & Hpos).
        { by apply (append_invariant weight_fn ws (item, weight_fn item)). }
        exists ys. split; [exact Hrun|]. split; [simpl in *; lia|].
        exists (item :: kept). rewrite Hcat, append_seq, <- app_assoc. simpl.
        split; [done|]. split; [by apply sublist_skip|].
        rewrite filter_cons_True by lia. by apply sublist_skip.
      * destruct (IH ws (key_fn item) Hrest Hws)
          as (ys & -> & Hsum & kept & Hcat & Hsub & Hpos).
        eexists. split; [done|]. split; [lia|].
        exists kept. split; [done|]. split; [by apply sublist_cons|].
        rewrite filter_cons_False by lia. done.
Qed.

(** X6.  Weight conservation, and what the chunks hold: the items yielded are
    items of the input in their order, and no item of positive weight is
    left out. *)
Theorem block_splitter_conserves items :
  0 < max_weight →
  (∀ x, x ∈ items → 0 <= weight_fn x) →
  ∃ chunks,
    block_splitter Unspecified max_weight weight_fn key_fn items = (chunks, None)
    ∧ chunks_weight chunks = total_weight weight_fn items
    ∧ concat (_seq <$> chunks) `sublist_of` items
    ∧ filter (λ x, 0 < weight_fn x) items `sublist_of` concat (_seq <$> chunks).
Proof.
  intros Hmax Hw. unfold block_splitter.
  destruct (Z.leb_spec max_weight 0); [lia|].
  destruct (block_splitter_loop_conserves items (__init__ []) Unspecified Hw)
    as (chunks & -> & Hsum & kept & Hcat & Hsub & Hpos); [done|].
  exists chunks. simpl in *. rewrite Hcat. done.
Qed.

Lemma block_splitter_loop_homogeneous items : ∀ ws prev_key,
  Forall (λ x, key_fn x = prev_key) (_seq ws) →
  Forall (λ ws, _seq ws ≠ [] ∧ ∃ k, Forall (λ x, key_fn x = k) (_seq ws))
         (loop items ws prev_key).1.
Proof.
  induction items as [|item rest IH]; intros ws prev_key Hws; simpl.
  - destruct (truthy ws) eqn:E; [|constructor].
    constructor; [|constructor]. split; [by apply truthy_nonempty|eauto].
  - destruct (weight_fn item <? 0); [constructor|].
    destruct (_ || _) eqn:Enew.
    + specialize (IH (__init__ [(item, weight_fn item)]) (key_fn item)).
      destruct (loop rest _ _) as [ys e]. simpl in *.
      apply Forall_app. split; [|apply IH; by repeat constructor].
      destruct (truthy ws) eqn:E; [|constructor].
      constructor; [|constructor]. split; [by apply truthy_nonempty|eauto].
    + apply orb_false_iff in Enew as [_ Ekey].
      apply negb_false_iff, bool_decide_eq_true in Ekey.
      destruct (weight_fn item >? 0); [|apply IH; by rewrite Ekey].
      apply (IH (append ws (item, weight_fn item))).
      rewrite (append_seq ws (item, weight_fn item)), Ekey. apply Forall_app.
      split; [done|]. by repeat constructor.
Qed.

(** X7.  Whatever the input, a chunk that is yielded is not empty and its items
    have one key. *)
Theorem block_splitter_chunks_homogeneous items :
  Forall (λ ws, _seq ws ≠ [] ∧ ∃ k, Forall (λ x, key_fn x = k) (_seq ws))
         (block_splitter Unspecified max_weight weight_fn key_fn items).1.
Proof.
  unfold block_splitter. destruct (max_weight <=? 0); [constructor|].
  apply block_splitter_loop_homogeneous. constructor.
Qed.

Lemma block_splitter_loop_negative pre x post : ∀ ws prev_key,
  (∀ y, y ∈ pre → 0 <= weight_fn y) → weight_fn x < 0 →
  ∃ chunks last,
    loop (pre ++ x :: post) ws prev_key = (chunks, Some ValueError)
    ∧ loop pre ws prev_key = (chunks ++ last, None)
    ∧ (length last <= 1)%nat.
Proof.
  intros ws prev_key Hpre Hx. revert ws prev_key.
  induction pre as [|item rest IH]; intros ws prev_key; simpl.
  - destruct (Z.ltb_spec (weight_fn x) 0); [|lia].
    exists [], (if truthy ws then [ws] else []). split; [done|]. split; [done|].
    destruct (truthy ws); simpl; lia.
  - assert (0 <= weight_fn item) by (apply Hpre; left).
    assert (Hrest : ∀ y, y ∈ rest → 0 <= weight_fn y)
      by (intros; apply Hpre; by right).
    specialize (IH Hrest).
    destruct (Z.ltb_spec (weight_fn item) 0); [lia|].
    destruct (_ || _).
    + destruct (IH (__init__ [(item, weight_fn item)]) (key_fn item))
        as (cs & last & -> & -> & Hlast).
      eexists _, last. split; [done|]. split; [by rewrite app_assoc|done].
    + destruct (weight_fn item >? 0); apply IH.
Qed.

(** X8.  The first item of negative weight ends the generator with a
    [ValueError]; the chunks yielded before it are the chunks of the items
    that precede it, but for the chunk that was being filled. *)
Theorem block_splitter_negative_weight pre x post :
  0 < max_weight →
  (∀ y, y ∈ pre → 0 <= weight_fn y) → weight_fn x < 0 →
  ∃ chunks last,
    block_splitter Unspecified max_weight weight_fn key_fn (pre ++ x :: post)
      = (chunks, Some ValueError)
    ∧ block_splitter Unspecified max_weight weight_fn key_fn pre
      = (chunks ++ last, None)
    ∧ (length last <= 1)%nat.
Proof.
  intros Hmax Hpre Hx. unfold block_splitter.
  destruct (Z.leb_spec max_weight 0); [lia|].
  by apply block_splitter_loop_negative.
Qed.
End BlockSplitterMore.

Section BlockSplitterDefaults.
Import General General.WS.
Context {T K : Type} `{EqDecision K}.
Variables (Unspecified : K) (max_weight : Z).

(** The defaults: [weight=lambda item: 1] and [key=nokey]. *)
Local Abbreviation unit := (λ _ : T, 1).
Local Abbreviation nokey := (λ _ : T, Unspecified).

Lemma block_splitter_loop_units items : ∀ ws,
  0 < max_weight →
  weight ws = len (_seq ws) → len (_seq ws) <= max_weight →
  ∃ chunks,
    block_splitter_loop max_weight unit nokey items ws Unspecified
      = (chunks, None)
    ∧ concat (_seq <$> chunks) = _seq ws ++ items
    ∧ Forall (λ c, weight c = len (_seq c) ∧ 1 <= len (_seq c) <= max_weight)
             chunks
    ∧ (∀ i c, chunks !! i = Some c → (S i < length chunks)%nat →
              len (_seq c) = max_weight).
Proof.
  intros ws Hmax. revert ws.
  induction items as [|item rest IH]; intros ws Hw Hlen; simpl.
  - destruct (truthy ws) eqn:E.
    + apply truthy_nonempty in E. eexists. split; [done|]. simpl.
      rewrite !app_nil_r. split; [done|]. split.
      * constructor; [|constructor]. split; [done|].
        unfold len in *. destruct (_seq ws); [done|]. simpl in *. lia.
      * intros [|i] c Hc Hi; simpl in *; lia.
    + eexists. split; [done|].
      destruct (decide (_seq ws = [])) as [->|n];
        [|apply truthy_nonempty in n; congruence].
      split; [done|]. split; [constructor|]. by intros i c Hc.
  - rewrite bool_decide_true by done. simpl. rewrite orb_false_r.
    destruct (Z.gtb_spec (weight ws + 1) max_weight) as [G|G].
    + destruct (IH (__init__ [(item, 1)])) as (ys & -> & Hcat & Hall & Hfull).
      { done. } { unfold len. simpl. lia. }
      assert (truthy ws = true) as ->.
      { apply truthy_nonempty. intros Hnil. rewrite Hnil in *.
        unfold len in *. simpl in *. lia. }
      eexists. split; [done|]. split.
      { rewrite fmap_app, concat_app, Hcat. simpl. by rewrite app_nil_r. }
      simpl. split; [constructor; [lia|done]|].
      intros [|i] c Hc Hi; simpl in *; [injection Hc as <-; lia|].
      apply (Hfull i); [done|lia].
    + destruct (IH (append ws (item, 1))) as (ys & Hrun & Hcat & Hall & Hfull).
      { rewrite (append_seq ws (item, 1)). unfold len in *.
        rewrite length_app. simpl in *. lia. }
      { rewrite (append_seq ws (item, 1)). unfold len in *.
        rewrite length_app. simpl in *. lia. }
      exists ys. split; [exact Hrun|].
      rewrite Hcat, (append_seq ws (item, 1)), <- app_assoc. done.
Qed.

(** X9.  With the default weight and key, the items are cut, in order, into
    chunks of [max_weight] items; only the last chunk may hold fewer. *)
Theorem block_splitter_equal_chunks items :
  0 < max_weight →
  ∃ chunks,
    block_splitter Unspecified max_weight unit nokey items = (chunks, None)
    ∧ concat (_seq <$> chunks) = items
    ∧ Forall (λ c, weight c = len (_seq c) ∧ 1 <= len (_seq c) <= max_weight)
             chunks
    ∧ (∀ i c, chunks !! i = Some c → (S i < length chunks)%nat →
              len (_seq c) = max_weight).
Proof.
  intros Hmax. unfold block_splitter.
  destruct (Z.leb_spec max_weight 0); [lia|].
  destruct (block_splitter_loop_units items (__init__ []) Hmax)
    as (chunks & -> & Hcat & Hrest); [done|unfold len; simpl; lia|].
  by exists chunks.
Qed.
End BlockSplitterDefaults.

Section SplitInBlocksFacts.
Import General General.WS Grouping Partition.
Context {T K : Type} `{EqDecision K}.
Variables (Unspecified : K) (lt : K → K → bool).
Variables (weight_fn : T → Z).

Lemma total_weight_insort {S} (lt' : S → S → bool) (f : T → S) x l :
  total_weight weight_fn (insort lt' f x l)
  = weight_fn x + total_weight weight_fn l.
Proof.
  induction l as [|y l IH]; simpl; [done|].
  destruct (lt' (f y) (f x)); simpl; lia.
Qed.

Lemma total_weight_sorted {S} (lt' : S → S → bool) (f : T → S) l :
  total_weight weight_fn (sorted lt' f l) = total_weight weight_fn l.
Proof.
  induction l as [|x l IH]; simpl; [done|]. by rewrite total_weight_insort, IH.
Qed.

Lemma elem_of_sorted {S} (lt' : S → S → bool) (f : T → S) z l :
  z ∈ sorted lt' f l ↔ z ∈ l.
Proof.
  induction l as [|x l IH]; simpl; [done|].
  rewrite elem_of_insort, elem_of_cons, IH. done.
Qed.

Lemma length_sorted {S} (lt' : S → S → bool) (f : T → S) l :
  length (sorted lt' f l) = length l.
Proof.
  induction l as [|x l IH]; simpl; [done|]. rewrite <- IH.
  generalize (sorted lt' f l). intros k.
  induction k as [|y k IHk]; simpl; [done|].
  destruct (lt' (f y) (f x)); simpl; lia.
Qed.

(** The bound of [split_in_blocks] when the total weight and [hint] are
    at most [2 ^ 53]: both are floats, and the ceiling of their float
    quotient is the ceiling of their quotient. *)
Lemma split_in_blocks_bound fuel items hint key :
  2 <= hint <= 2 ^ 53 →
  items ≠ [] →
  0 < total_weight weight_fn items <= 2 ^ 53 →
  split_in_blocks Unspecified lt fuel (Items items) hint weight_fn key
  = Some (inr (Chunks (block_splitter Unspecified
                         (ceil_div (total_weight weight_fn items) hint)
                         weight_fn (default (λ _ : T, Unspecified) key)
                         (sorted (lt_tuple lt)
                            (λ item, (default (λ _ : T, Unspecified) key item,
                                      weight_fn item)) items)))).
Proof.
  intros [Hhint Hhint53] Hne Htotal. unfold split_in_blocks. cbv zeta.
  rewrite !bool_decide_false by lia. simpl.
  destruct (Z.gtb_spec hint 0); [|lia]. simpl.
  set (key_fn := default (λ _ : T, Unspecified) key).
  set (sorted_items := sorted _ _ items).
  assert (Hlen : length sorted_items = length items) by apply length_sorted.
  destruct (Z.gtb_spec (len sorted_items) 0) as [_|Hz];
    [|unfold len in Hz; rewrite Hlen in Hz; destruct items; simpl in *; [done|lia]].
  simpl.
  assert (Htot : total_weight weight_fn sorted_items = total_weight weight_fn items)
    by apply total_weight_sorted.
  rewrite Htot. set (total := total_weight weight_fn items) in *.
  destruct (float_of_int_exact total Htotal) as (x & -> & Hx & Hxv).
  destruct (float_of_int_exact hint ltac:(lia)) as (y & -> & Hy & Hyv).
  rewrite (float_truediv_exact x y total hint) by (done || lia).
  assert (Hk : 0 < hint < 2 ^ 1075).
  { assert (2 ^ 53 < 2 ^ 1075) by done. lia. }
  destruct (int_true_divide_ceiling total hint Htotal Hk) as (q & Hq & Hceil & _).
  revert Hq. unfold int_true_divide.
  destruct (Z.eqb_spec hint 0); [lia|]. destruct (Z.eqb_spec total 0); [lia|].
  rewrite (Z.abs_eq total), (Z.abs_eq hint), (Z.sgn_pos total), (Z.sgn_pos hint)
    by lia.
  destruct (nearest_float total hint) as [z|]; [|done]. intros [= <-]. simpl.
  by rewrite Hceil.
Qed.

(** X10.  For a [hint] from 2 to [2 ** 53], weights that are not negative and a
    total weight that is positive and at most [2 ** 53], [split_in_blocks]
    sorts the items by key and weight and yields chunks of the sorted
    items, in that order, bounded by the ceiling of [total / hint] (a single
    heavier item apart); the chunks weigh the total together and hold every
    item of positive weight. *)
Theorem split_in_blocks_balanced fuel items hint key :
  2 <= hint <= 2 ^ 53 →
  (∀ x, x ∈ items → 0 <= weight_fn x) →
  0 < total_weight weight_fn items <= 2 ^ 53 →
  ∃ chunks,
    split_in_blocks Unspecified lt fuel (Items items) hint weight_fn key
      = Some (inr (Chunks (chunks, None)))
    ∧ Forall (within_bound weight_fn
                (ceil_div (total_weight weight_fn items) hint)) chunks
    ∧ chunks_weight chunks = total_weight weight_fn items
    ∧ concat (_seq <$> chunks)
      `sublist_of` sorted (lt_tuple lt)
                     (λ item, (default (λ _ : T, Unspecified) key item,
                               weight_fn item)) items
    ∧ (∀ x, x ∈ items → 0 < weight_fn x → x ∈ concat (_seq <$> chunks)).
Proof.
  intros Hhint Hw Htotal.
  assert (items ≠ []) as Hne by (intros ->; simpl in *; lia).
  rewrite (split_in_blocks_bound fuel items hint key Hhint Hne Htotal).
  set (key_fn := default (λ _ : T, Unspecified) key).
  set (sorted_items := sorted _ _ items).
  assert (Htot : total_weight weight_fn sorted_items = total_weight weight_fn items)
    by apply total_weight_sorted.
  pose proof (ceil_div_spec (total_weight weight_fn items) hint ltac:(lia)) as Hc.
  assert (Hmax : 0 < ceil_div (total_weight weight_fn items) hint) by nia.
  assert (Hw' : ∀ x, x ∈ sorted_items → 0 <= weight_fn x).
  { intros x Hx. apply Hw. by apply elem_of_sorted in Hx. }
  destruct (block_splitter_loop_bound
              (ceil_div (total_weight weight_fn items) hint) weight_fn key_fn sorted_items
              (__init__ []) Unspecified Hw') as (chunks & Hrun & Hbound).
  { split; simpl; [done|left; lia]. }
  destruct (block_splitter_loop_conserves
              (ceil_div (total_weight weight_fn items) hint) weight_fn key_fn sorted_items
              (__init__ []) Unspecified Hw') as (chunks' & Hrun' & Hsum & kept & Hcat & Hsub & Hpos);
    [done|].
  rewrite Hrun in Hrun'. injection Hrun' as <-.
  exists chunks. unfold block_splitter.
  destruct (Z.leb_spec (ceil_div (total_weight weight_fn items) hint) 0); [lia|].
  rewrite Hrun. split; [done|]. split; [done|].
  split; [simpl in Hsum; by rewrite Hsum, Htot|].
  simpl in Hcat. split; [by rewrite Hcat|].
  intros x Hx Hxw. rewrite Hcat.
  eapply elem_of_sublist; [|exact Hpos]. apply list_elem_of_filter.
  split; [done|by apply elem_of_sorted].
Qed.

(** X11.  When every weight is zero the bound is zero and the generator
    raises [ValueError] at once, for every [hint] that is converted to a
    float: those below [2 ** 1024 - 2 ** 970].  For a larger [hint] the
    division raises [OverflowError]. *)
Theorem split_in_blocks_zero_total fuel items hint key :
  2 <= hint → items ≠ [] →
  total_weight weight_fn items = 0 →
  split_in_blocks Unspecified lt fuel (Items items) hint weight_fn key
    = if hint <? 2 ^ 1024 - 2 ^ 970
      then Some (inr (Chunks ([], Some ValueError)))
      else Some (inl OverflowError).
Proof.
  intros Hhint Hne Htotal. unfold split_in_blocks. cbv zeta.
  rewrite !bool_decide_false by lia. simpl.
  destruct (Z.gtb_spec hint 0); [|lia]. simpl.
  set (sorted_items := sorted _ _ items).
  assert (Hlen : length sorted_items = length items) by apply length_sorted.
  destruct (Z.gtb_spec (len sorted_items) 0) as [_|Hz];
    [|unfold len in Hz; rewrite Hlen in Hz; destruct items; simpl in *; [done|lia]].
  simpl.
  assert (total_weight weight_fn sorted_items = 0) as ->
    by (unfold sorted_items; by rewrite total_weight_sorted).
  change (float_of_int 0) with (@inr exc float (mkfloat 0 0)). cbv iota.
  destruct (float_of_int_range hint ltac:(lia)) as [Hin Hout].
  destruct (Z.ltb_spec hint (2 ^ 1024 - 2 ^ 970)) as [Hlt|Hge].
  - destruct (Hin Hlt) as (y & -> & Hy). unfold float_truediv. cbn [mant].
    destruct (Z.eqb_spec (mant y) 0); [lia|]. done.
  - by rewrite (Hout Hge).
Qed.

Hypothesis lt_irrefl : ∀ x, lt x x = false.
Hypothesis lt_trans : ∀ x y z, lt x y = true → lt y z = true → lt x z = true.
Hypothesis lt_total : ∀ x y, x ≠ y → lt x y = true ∨ lt y x = true.

(** X12.  With a [hint] of 0 or 1 and a key function there is one block for each
    key that occurs: the items with that key, in the order of the input,
    whatever their weights; the blocks come by increasing key. *)
Theorem split_in_blocks_by_key fuel items hint (key_fn : T → K) :
  hint = 0 ∨ hint = 1 →
  ∃ keys,
    split_in_blocks Unspecified lt fuel (Items items) hint weight_fn (Some key_fn)
      = Some (inr (Groups ((λ k, filter (λ x, key_fn x = k) items) <$> keys)))
    ∧ StronglySorted (λ a b, lt a b = true) keys
    ∧ (∀ k, k ∈ keys ↔ ∃ x, x ∈ items ∧ key_fn x = k).
Proof.
  intros Hhint. unfold split_in_blocks. cbv zeta.
  assert (bool_decide (hint = 0) || bool_decide (hint = 1) = true) as ->.
  { destruct Hhint as [->| ->]; done. }
  simpl.
  pose proof (groupby_lookup lt key_fn lt_irrefl lt_trans lt_total items id) as Hget.
  pose proof (groupby_keys_sorted lt key_fn lt_irrefl lt_trans lt_total items id) as Hsorted.
  set (d := groupby lt key_fn items id) in *.
  apply lt_sorted_NoDup in Hsorted as Hnd; [|done].
  exists d.*1. split; [|split; [done|]].
  - do 3 f_equal.
    assert (Hall : ∀ k g, (k, g) ∈ d → g = filter (λ x, key_fn x = k) items).
    { intros k g Hin. apply elem_of_dget in Hin; [|done].
      rewrite Hget in Hin. by destruct (filter _ items); simplify_eq. }
    clear -Hall. induction d as [|[k g] d IH]; simpl; [done|].
    rewrite <- (Hall k g) by left. f_equal. apply IH.
    intros k' g' Hin. apply Hall. by right.
  - intros k. destruct (dget k d) as [g|] eqn:E.
    + assert (k ∈ d.*1) as Hk.
      { destruct (decide (k ∈ d.*1)) as [|Hn]; [done|].
        apply dget_None in Hn. congruence. }
      split; [intros _|done]. rewrite Hget in E.
      destruct (filter (λ x, key_fn x = k) items) as [|x g'] eqn:F; [done|].
      assert (Hx : x ∈ filter (λ x, key_fn x = k) items) by (rewrite F; left).
      apply list_elem_of_filter in Hx as [? ?]. by exists x.
    + apply dget_None in E as Hn. split; [done|]. intros (x & Hx & Hkx).
      rewrite Hget in E.
      assert (Hf : x ∈ filter (λ x, key_fn x = k) items)
        by (by apply list_elem_of_filter).
      destruct (filter _ items); [by apply elem_of_nil in Hf|done].
Qed.
End SplitInBlocksFacts.

Section IndicesFacts.
Import Grouping Indices.
Context {K : Type} `{EqDecision K}.
Implicit Types (l pre : list K) (indices : list (K * list (Z * Z))).

Lemma itertools_groupby_runs l :
  concat (itertools_groupby id l).*2 = l
  ∧ Forall (λ kg, Forall (λ x, x = kg.1) kg.2) (itertools_groupby id l).
Proof.
  induction l as [|x l [IH1 IH2]]; simpl; [by split|].
  destruct (itertools_groupby id l) as [|[k g] gs]; simpl in *.
  - subst. split; [done|]. by repeat constructor.
  - apply Forall_cons in IH2 as [Hg Hgs]. simpl in *.
    destruct (decide (x = k)) as [->|Hne]; simpl.
    + split; [by rewrite IH1|]. constructor; [by constructor|done].
    + split; [by rewrite IH1|]. by repeat constructor.
Qed.

Lemma get_indices_loop_covers groups : ∀ pre indices,
  Forall (λ kg, Forall (λ x, x = kg.1) kg.2) groups →
  covers indices pre →
  covers (get_indices_loop groups (len pre) indices) (pre ++ concat groups.*2).
Proof.
  induction groups as [|[i vals] groups IH]; intros pre indices Hgs Hcov; simpl.
  - by rewrite app_nil_r.
  - apply Forall_cons in Hgs as [Hvals Hgs]. simpl in Hvals.
    rewrite count_len, app_assoc.
    replace (len pre + len vals) with (len (pre ++ vals))
      by (unfold len; rewrite length_app; lia).
    apply IH; [done|]. clear IH Hgs. intros p v. split.
    + intros Hp. destruct (decide (p < length pre)%nat) as [Hlt|Hge].
      * rewrite lookup_app_l in Hp by done.
        apply Hcov in Hp as (ranges & a & b & Hget & Hin & Hab).
        destruct (decide (v = i)) as [->|Hne].
        -- eexists _, a, b. rewrite dget_dset_eq, Hget. simpl.
           split; [done|]. split; [|done]. apply elem_of_app. by left.
        -- exists ranges, a, b. by rewrite dget_dset_ne.
      * rewrite lookup_app_r in Hp by lia.
        assert (v = i) as ->.
        { rewrite Forall_forall in Hvals. apply Hvals.
          by apply list_elem_of_lookup_2 in Hp. }
        apply lookup_lt_Some in Hp as Hlen.
        eexists _, _, _. rewrite dget_dset_eq. split; [done|].
        split; [apply elem_of_app; right; left|].
        unfold len. rewrite length_app. lia.
    + intros (ranges & a & b & Hget & Hin & Hab).
      destruct (decide (v = i)) as [->|Hne].
      * rewrite dget_dset_eq in Hget. injection Hget as <-.
        apply elem_of_app in Hin as [Hin|Hin].
        -- destruct (dget i indices) as [old|] eqn:Hold; simpl in Hin;
             [|by apply elem_of_nil in Hin].
           assert (Hp : pre !! p = Some i) by (apply Hcov; eauto 10).
           apply lookup_lt_Some in Hp as Hlt. by rewrite lookup_app_l.
        -- apply list_elem_of_singleton in Hin. injection Hin as -> ->.
           unfold len in Hab. rewrite length_app in Hab. rewrite lookup_app_r by lia.
           destruct (vals !! (p - length pre)%nat) as [x|] eqn:Hx.
           ++ rewrite Forall_forall in Hvals. f_equal. apply Hvals.
              by apply list_elem_of_lookup_2 in Hx.
           ++ apply lookup_ge_None in Hx. lia.
      * rewrite dget_dset_ne in Hget by done.
        assert (Hp : pre !! p = Some v) by (apply Hcov; eauto 10).
        apply lookup_lt_Some in Hp as Hlt. by rewrite lookup_app_l.
Qed.

(** X13.  [get_indices] lists, for each value, half-open ranges of positions:
    a position holds a value exactly when one of the ranges listed for that
    value contains it. *)
Theorem get_indices_covers (integers : list K) (p : nat) (v : K) :
  integers !! p = Some v ↔
  ∃ ranges a b,
    dget v (get_indices integers) = Some ranges
    ∧ (a, b) ∈ ranges ∧ a <= Z.of_nat p < b.
Proof.
  unfold get_indices.
  destruct (itertools_groupby_runs integers) as [Hcat Hruns].
  pose proof (get_indices_loop_covers _ [] [] Hruns) as Hcov.
  simpl in Hcov. rewrite Hcat in Hcov. apply Hcov.
  intros q w. rewrite lookup_nil. split; [done|]. by intros (? & ? & ? & ? & _).
Qed.
End IndicesFacts.

Section AccumDictMore.
Import General General.AD Accum.
Context {K : Type} `{EqDecision K}.
Implicit Types (σ : store K) (es : list (K * value)) (k : K).

Lemma iadd_step σ a cur k y :
  dicts σ !! a = Some cur → int_valued (entries cur) →
  (c ← __contains__ a k;
   if negb c then __setitem__ a k (VInt y)
   else if isinstance_list (VInt y) then
     x ← __getitem__ a k; py_extend x (VInt y)
   else
     x ← __getitem__ a k; r ← py_add x (VInt y); __setitem__ a k r) σ
  = (inr (), {| lists := lists σ;
                dicts := <[a := {| entries := dict_set k (stored_by_iadd (entries cur) k y)
                                                       (entries cur);
                                   accum := accum cur |}]> (dicts σ) |}).
Proof.
  intros Ha Hints.
  unfold __contains__, __getitem__, __setitem__, stored_by_iadd, mbind, M_bind,
    read_dict, write_dict, mret, M_ret.
  simpl. rewrite Ha. simpl.
  destruct (dict_get k (entries cur)) as [v|] eqn:Hk.
  - rewrite bool_decide_eq_true_2 by eauto. simpl. rewrite Ha. simpl. rewrite Hk.
    destruct (int_valued_get _ _ _ Hints Hk) as [n ->]. simpl. by rewrite Ha.
  - rewrite bool_decide_eq_false_2 by (by intros [? ?]). simpl. by rewrite Ha.
Qed.

Lemma iadd_loop es : ∀ σ a cur,
  dicts σ !! a = Some cur → int_valued (entries cur) →
  int_valued es → NoDup es.*1 →
  ∃ final,
    for_each es (λ '(k, v),
      c ← __contains__ a k;
      if negb c then __setitem__ a k v
      else if isinstance_list v then
        x ← __getitem__ a k; py_extend x v
      else
        x ← __getitem__ a k; r ← py_add x v; __setitem__ a k r) σ
    = (inr (), {| lists := lists σ; dicts := <[a := final]> (dicts σ) |})
    ∧ accum final = accum cur
    ∧ ∀ k, dict_get k (entries final) =
           match dict_get k es with
           | Some (VInt y) => Some (stored_by_iadd (entries cur) k y)
           | _ => dict_get k (entries cur)
           end.
Proof.
  induction es as [|[k0 v0] es IH]; intros σ a cur Ha Hcur Hes Hnd.
  - exists cur. split; [|done]. simpl. unfold mret, M_ret.
    rewrite insert_id by done. by destruct σ.
  - inversion_clear Hes as [|? ? Hv0 Hes']. inversion_clear Hnd as [|? ? Hk0 Hnd'].
    destruct v0 as [y|]; [|done].
    cbn [for_each]. unfold mbind at 1. unfold M_bind at 1.
    rewrite (iadd_step σ a cur k0 y) by done.
    set (cur1 := {| entries := dict_set k0 (stored_by_iadd (entries cur) k0 y)
                                         (entries cur);
                    accum := accum cur |}).
    set (σ1 := {| lists := lists σ; dicts := <[a := cur1]> (dicts σ) |}).
    destruct (IH σ1 a cur1) as (final & Hrun & Hfacc & Hget);
      [apply lookup_insert_eq| |done|done|].
    { simpl. destruct (stored_by_iadd _ _ _) eqn:E.
      - by apply int_valued_set.
      - unfold stored_by_iadd in E. by repeat case_match. }
    exists final. split; [|split; [done|]].
    + rewrite Hrun. simpl. by rewrite insert_insert_eq.
    + intros k. rewrite Hget. simpl.
      destruct (decide (k = k0)) as [->|Hne].
      * rewrite dict_get_None by done. by rewrite dict_get_set_eq.
      * rewrite dict_get_set_ne by done. unfold stored_by_iadd.
        by rewrite dict_get_set_ne by done.
Qed.

Lemma iadd_loop_policy da db final :
  int_valued da → int_valued db →
  (∀ k, dict_get k final =
        match dict_get k db with
        | Some (VInt y) => Some (stored_by_iadd da k y)
        | _ => dict_get k da
        end) →
  addition_policy da db final.
Proof.
  intros Hda Hdb Hget k. rewrite Hget. unfold stored_by_iadd.
  split; [|split; [|split]].
  - by intros x y -> ->.
  - by intros v -> ->.
  - intros v -> Hv. destruct (int_valued_get _ _ _ Hdb Hv) as [n ->]. by rewrite Hv.
  - by intros -> ->.
Qed.

Lemma iadd_mapping σ a o da db :
  dicts σ !! a = Some da → dicts σ !! o = Some db →
  int_valued (entries da) → int_valued (entries db) →
  NoDup (entries db).*1 →
  ∃ da',
    __iadd__ a (Mapping o) σ
    = (inr a, {| lists := lists σ; dicts := <[a := da']> (dicts σ) |})
    ∧ accum da' = accum da
    ∧ addition_policy (entries da) (entries db) (entries da').
Proof.
  intros Ha Ho Hda Hdb Hnd.
  destruct (iadd_loop (entries db) σ a da) as (final & Hrun & Hacc & Hget); try done.
  exists final. split; [|split; [done|by apply iadd_loop_policy]].
  unfold __iadd__. unfold mbind at 1. unfold M_bind at 1. unfold read_dict at 1.
  rewrite Ho. cbn [default from_option id]. unfold mbind at 1. unfold M_bind at 1.
  by rewrite Hrun.
Qed.

Lemma add_mapping σ a o da db :
  dicts σ !! a = Some da → dicts σ !! o = Some db →
  NoDup (entries da).*1 → NoDup (entries db).*1 →
  int_valued (entries da) → int_valued (entries db) →
  ∃ dnew,
    let new := fresh (dom (dicts σ)) in
    __add__ a (Mapping o) σ
    = (inr new, {| lists := lists σ; dicts := <[new := dnew]> (dicts σ) |})
    ∧ accum dnew = None
    ∧ addition_policy (entries da) (entries db) (entries dnew).
Proof.
  intros Ha Ho Hnda Hndb Hda Hdb.
  set (new := fresh (dom (dicts σ))).
  assert (Hnew : dicts σ !! new = None).
  { apply not_elem_of_dom. apply is_fresh. }
  assert (new ≠ a) by congruence. assert (new ≠ o) by congruence.
  set (copy := {| entries := entries da; accum := None |}).
  set (σ1 := {| lists := lists σ; dicts := <[new := copy]> (dicts σ) |}).
  destruct (iadd_mapping σ1 new o copy db) as (dnew & Hrun & Hacc & Hpol);
    try done.
  { apply lookup_insert_eq. }
  { simpl. by rewrite lookup_insert_ne. }
  exists dnew. split; [|split; [done|done]].
  transitivity (__iadd__ new (Mapping o) σ1).
  - unfold __add__, __init__, mbind, M_bind, read_dict at 1, mret, M_ret, alloc_dict.
    simpl. rewrite Ha. simpl. rewrite dict_copy by done. reflexivity.
  - rewrite Hrun. simpl. by rewrite insert_insert_eq.
Qed.

(** X14.  For dictionaries of integers, [a += b] maps a key of both to
    [a[k] + b[k]], keeps the value of a key of [a] only and gives a key of
    [b] only the value [b[k]]; it does so whether or not [a] has an
    accumulator template, keeps the template, and touches no list. *)
Theorem iadd_adds_by_key σ a o da db :
  dicts σ !! a = Some da → dicts σ !! o = Some db →
  int_valued (entries da) → int_valued (entries db) →
  NoDup (entries db).*1 →
  ∃ σ' da',
    __iadd__ a (Mapping o) σ = (inr a, σ')
    ∧ dicts σ' !! a = Some da'
    ∧ lists σ' = lists σ
    ∧ accum da' = accum da
    ∧ addition_policy (entries da) (entries db) (entries da').
Proof.
  intros Ha Ho Hda Hdb Hnd.
  destruct (iadd_mapping σ a o da db) as (da' & Hrun & Hacc & Hpol); try done.
  eexists _, da'. split; [exact Hrun|]. simpl.
  split; [apply lookup_insert_eq|done].
Qed.

(** X15.  For dictionaries of integers, [a + b] is a new dictionary that adds by
    key and leaves [a] and [b] as they were.  The new dictionary has no
    accumulator template, also when [a] has one: reading a key of neither
    operand from it raises [KeyError]. *)
Theorem add_adds_by_key_and_drops_template σ a o da db :
  dicts σ !! a = Some da → dicts σ !! o = Some db →
  NoDup (entries da).*1 → NoDup (entries db).*1 →
  int_valued (entries da) → int_valued (entries db) →
  ∃ new σ' dnew,
    __add__ a (Mapping o) σ = (inr new, σ')
    ∧ dicts σ !! new = None
    ∧ dicts σ' !! new = Some dnew
    ∧ dicts σ' !! a = Some da
    ∧ dicts σ' !! o = Some db
    ∧ addition_policy (entries da) (entries db) (entries dnew)
    ∧ ∀ k, dict_get k (entries da) = None → dict_get k (entries db) = None →
           __getitem__ new k σ' = (inl KeyError, σ').
Proof.
  intros Ha Ho Hnda Hndb Hda Hdb.
  destruct (add_mapping σ a o da db) as (dnew & Hrun & Hacc & Hpol); try done.
  simpl in Hrun.
  assert (Hnew : dicts σ !! fresh (dom (dicts σ)) = None).
  { apply not_elem_of_dom. apply is_fresh. }
  eexists _, _, dnew. split; [exact Hrun|]. simpl.
  split; [done|]. split; [apply lookup_insert_eq|].
  split; [rewrite lookup_insert_ne; congruence|].
  split; [rewrite lookup_insert_ne; congruence|].
  split; [done|]. intros k Hka Hkb.
  rewrite (getitem_missing _ _ dnew).
  - by rewrite Hacc.
  - simpl. apply lookup_insert_eq.
  - by apply Hpol.
Qed.

(** X16.  On dictionaries of integers [a + b] and [b + a] hold the same value
    under every key. *)
Theorem add_commutes_on_integers σ a o da db :
  dicts σ !! a = Some da → dicts σ !! o = Some db →
  NoDup (entries da).*1 → NoDup (entries db).*1 →
  int_valued (entries da) → int_valued (entries db) →
  ∃ ab ba σ1 σ2 dab dba,
    __add__ a (Mapping o) σ = (inr ab, σ1)
    ∧ __add__ o (Mapping a) σ = (inr ba, σ2)
    ∧ dicts σ1 !! ab = Some dab
    ∧ dicts σ2 !! ba = Some dba
    ∧ ∀ k, dict_get k (entries dab) = dict_get k (entries dba).
Proof.
  intros Ha Ho Hnda Hndb Hda Hdb.
  destruct (add_mapping σ a o da db) as (dab & Hrun1 & _ & Hpol1); try done.
  destruct (add_mapping σ o a db da) as (dba & Hrun2 & _ & Hpol2); try done.
  simpl in Hrun1, Hrun2.
  eexists _, _, _, _, dab, dba. split; [exact Hrun1|]. split; [exact Hrun2|].
  simpl. split; [apply lookup_insert_eq|]. split; [apply lookup_insert_eq|].
  intros k. destruct (Hpol1 k) as (H1 & H2 & H3 & H4).
  destruct (Hpol2 k) as (G1 & G2 & G3 & G4).
  destruct (dict_get k (entries da)) as [va|] eqn:Ea;
    destruct (dict_get k (entries db)) as [vb|] eqn:Eb.
  - destruct (int_valued_get _ _ _ Hda Ea) as [x ->].
    destruct (int_valued_get _ _ _ Hdb Eb) as [y ->].
    rewrite (H1 x y), (G1 y x) by done. do 2 f_equal. lia.
  - by rewrite (H2 va), (G3 va).
  - by rewrite (H3 vb), (G2 vb).
  - by rewrite H4, G4.
Qed.
End AccumDictMore.

Section AccumDictSharing.
Import General General.AD Accum.
Context {K : Type} `{EqDecision K}.
Implicit Types (σ : store K) (es : list (K * value)) (k : K).

Lemma dict_get_app_fresh k v pre post :
  k ∉ pre.*1 → dict_get k (pre ++ (k, v) :: post) = Some v.
Proof.
  induction pre as [|[k' v'] pre IH]; simpl; intros Hn.
  - by rewrite decide_True.
  - apply not_elem_of_cons in Hn as [? ?]. rewrite decide_False by done. auto.
Qed.

Lemma dict_set_app_fresh k v v' pre post :
  k ∉ pre.*1 → dict_set k v' (pre ++ (k, v) :: post) = pre ++ (k, v') :: post.
Proof.
  induction pre as [|[k0 v0] pre IH]; simpl; intros Hn.
  - by rewrite decide_True.
  - apply not_elem_of_cons in Hn as [? ?]. rewrite decide_False by done.
    by rewrite IH.
Qed.

Lemma contains_run σ a cur k :
  dicts σ !! a = Some cur →
  __contains__ a k σ = (inr (bool_decide (is_Some (dict_get k (entries cur)))), σ).
Proof.
  intros Ha. unfold __contains__, mbind, M_bind, read_dict, mret, M_ret.
  simpl. by rewrite Ha.
Qed.

Lemma getitem_present σ a cur k v :
  dicts σ !! a = Some cur → dict_get k (entries cur) = Some v →
  __getitem__ a k σ = (inr v, σ).
Proof.
  intros Ha Hk. unfold __getitem__, mbind, M_bind, read_dict, mret, M_ret.
  simpl. rewrite Ha. simpl. by rewrite Hk.
Qed.

Lemma iadd_fresh_loop es : ∀ σ a cur,
  dicts σ !! a = Some cur → NoDup es.*1 →
  (∀ k, k ∈ es.*1 → k ∉ (entries cur).*1) →
  for_each es (λ '(k, v),
    c ← __contains__ a k;
    if negb c then __setitem__ a k v
    else if isinstance_list v then
      x ← __getitem__ a k; py_extend x v
    else
      x ← __getitem__ a k; r ← py_add x v; __setitem__ a k r) σ
  = (inr (), {| lists := lists σ;
                dicts := <[a := {| entries := entries cur ++ es;
                                   accum := accum cur |}]> (dicts σ) |}).
Proof.
  induction es as [|[k0 v0] es IH]; intros σ a cur Ha Hnd Hfresh.
  - simpl. unfold mret, M_ret. rewrite app_nil_r.
    destruct cur as [ces cacc]. simpl. rewrite insert_id by done. by destruct σ.
  - inversion_clear Hnd as [|? ? Hk0 Hnd'].
    assert (Hk0' : k0 ∉ (entries cur).*1) by (apply Hfresh; simpl; left).
    cbn [for_each]. unfold mbind at 1. unfold M_bind at 1.
    unfold mbind at 1. unfold M_bind at 1.
    rewrite (contains_run σ a cur) by done.
    rewrite dict_get_None by done.
    rewrite bool_decide_eq_false_2 by (by intros [? ?]). cbn [negb].
    rewrite (setitem_run σ a cur) by done.
    rewrite dict_set_fresh by done.
    set (cur1 := {| entries := entries cur ++ [(k0, v0)]; accum := accum cur |}).
    rewrite (IH _ a cur1).
    + simpl. rewrite insert_insert_eq. by rewrite <- app_assoc.
    + simpl. apply lookup_insert_eq.
    + done.
    + intros k Hk. simpl. rewrite fmap_app. simpl. rewrite elem_of_app.
      intros [Hin|Hin%list_elem_of_singleton].
      * apply (Hfresh k); [simpl; by right|done].
      * by subst.
Qed.

Lemma iadd_extend_loop es : ∀ σ a cur,
  dicts σ !! a = Some cur →
  (∀ k v, (k, v) ∈ es → dict_get k (entries cur) = Some v) →
  Forall (λ kv, isinstance_list kv.2 = true) es →
  for_each es (λ '(k, v),
    c ← __contains__ a k;
    if negb c then __setitem__ a k v
    else if isinstance_list v then
      x ← __getitem__ a k; py_extend x v
    else
      x ← __getitem__ a k; r ← py_add x v; __setitem__ a k r) σ
  = (inr (), {| lists := extended_by_themselves es (lists σ); dicts := dicts σ |}).
Proof.
  induction es as [|[k0 v0] es IH]; intros σ a cur Ha Hget Hes.
  - simpl. unfold mret, M_ret. by destruct σ.
  - inversion_clear Hes as [|? ? Hv0 Hes']. destruct v0 as [|l0]; [done|].
    assert (Hk0 : dict_get k0 (entries cur) = Some (VList l0))
      by (apply Hget; left).
    cbn [for_each]. unfold mbind at 1. unfold M_bind at 1.
    unfold mbind at 1. unfold M_bind at 1.
    rewrite (contains_run σ a cur) by done. rewrite Hk0.
    rewrite bool_decide_eq_true_2 by eauto. cbn [negb isinstance_list].
    unfold mbind at 1. unfold M_bind at 1.
    rewrite (getitem_present σ a cur k0 (VList l0)) by done.
    unfold py_extend, mbind at 1, M_bind at 1, mbind at 1, M_bind at 1,
      read_list, write_list.
    rewrite (IH _ a cur); [done|done| |done].
    intros k v Hin. apply Hget. by right.
Qed.

Lemma extended_by_themselves_other es : ∀ (m : gmap loc (list Z)) l,
  VList l ∉ es.*2 → extended_by_themselves es m !! l = m !! l.
Proof.
  unfold extended_by_themselves.
  induction es as [|[k0 v0] es IH]; intros m l Hn; simpl; [done|].
  simpl in Hn. apply not_elem_of_cons in Hn as [Hne Hn].
  rewrite IH by done. destruct v0 as [|l0]; [done|].
  rewrite lookup_insert_ne; [done|congruence].
Qed.

Lemma extended_by_themselves_lookup es : ∀ (m : gmap loc (list Z)) k l,
  NoDup es.*2 → (k, VList l) ∈ es →
  extended_by_themselves es m !! l
  = Some (default [] (m !! l) ++ default [] (m !! l)).
Proof.
  induction es as [|[k0 v0] es IH]; intros m k l Hnd Hin.
  - by apply elem_of_nil in Hin.
  - simpl in Hnd. inversion_clear Hnd as [|? ? Hv0 Hnd'].
    apply elem_of_cons in Hin as [[= <- <-]|Hin].
    + unfold extended_by_themselves. simpl.
      fold (extended_by_themselves es
              (<[l := default [] (m !! l) ++ default [] (m !! l)]> m)).
      rewrite extended_by_themselves_other by done. apply lookup_insert_eq.
    + assert (v0 ≠ VList l).
      { intros ->. apply Hv0. apply list_elem_of_fmap. by exists (k, VList l). }
      unfold extended_by_themselves. simpl.
      destruct v0 as [n|l0].
      * by apply (IH m k).
      * fold (extended_by_themselves es
                (<[l0 := default [] (m !! l0) ++ default [] (m !! l0)]> m)).
        rewrite (IH _ k l) by done.
        rewrite lookup_insert_ne; [done|congruence].
Qed.

Lemma iadd_run σ a o db :
  dicts σ !! o = Some db →
  __iadd__ a (Mapping o) σ =
  match for_each (entries db) (λ '(k, v),
          c ← __contains__ a k;
          if negb c then __setitem__ a k v
          else if isinstance_list v then
            x ← __getitem__ a k; py_extend x v
          else
            x ← __getitem__ a k; r ← py_add x v; __setitem__ a k r) σ with
  | (inr _, σ') => (inr a, σ')
  | (inl e, σ') => (inl e, σ')
  end.
Proof.
  intros Ho. unfold __iadd__. unfold mbind at 1. unfold M_bind at 1.
  unfold read_dict at 1. rewrite Ho. cbn [default from_option id].
  unfold mbind at 1. unfold M_bind at 1. by destruct (for_each _ _ _) as [[?|?] ?].
Qed.

(** X17.  [a += b] stores the values of the keys that [a] lacks as they are:
    when no key of [b] is in [a], [a] gets the entries of [b] after its
    own, with the same value objects, and no list is copied or changed. *)
Theorem iadd_shares_values_of_new_keys σ a o da db :
  dicts σ !! a = Some da → dicts σ !! o = Some db →
  NoDup (entries db).*1 →
  (∀ k, k ∈ (entries db).*1 → k ∉ (entries da).*1) →
  __iadd__ a (Mapping o) σ
  = (inr a, {| lists := lists σ;
               dicts := <[a := {| entries := entries da ++ entries db;
                                  accum := accum da |}]> (dicts σ) |}).
Proof.
  intros Ha Ho Hnd Hfresh.
  rewrite (iadd_run σ a o db) by done.
  by rewrite (iadd_fresh_loop (entries db) σ a da).
Qed.

(** X18.  The lists that [a += b] stored under new keys are the list objects of
    [b]: a second [a += b] extends each of them by itself, so that the
    lists of [b] double. *)
Theorem iadd_twice_doubles_lists_of_right_operand σ a o da db :
  dicts σ !! a = Some da → dicts σ !! o = Some db → a ≠ o →
  NoDup (entries db).*1 → NoDup (entries db).*2 →
  (∀ k, k ∈ (entries db).*1 → k ∉ (entries da).*1) →
  Forall (λ kv, isinstance_list kv.2 = true) (entries db) →
  ∃ σ1 σ2,
    __iadd__ a (Mapping o) σ = (inr a, σ1)
    ∧ __iadd__ a (Mapping o) σ1 = (inr a, σ2)
    ∧ dicts σ2 !! o = Some db
    ∧ ∀ k l, dict_get k (entries db) = Some (VList l) →
        lists σ2 !! l
        = Some (default [] (lists σ !! l) ++ default [] (lists σ !! l)).
Proof.
  intros Ha Ho Hne Hnd Hndv Hfresh Hlists.
  set (cur1 := {| entries := entries da ++ entries db; accum := accum da |}).
  set (σ1 := {| lists := lists σ; dicts := <[a := cur1]> (dicts σ) |}).
  assert (Ho1 : dicts σ1 !! o = Some db) by (simpl; by rewrite lookup_insert_ne).
  exists σ1, {| lists := extended_by_themselves (entries db) (lists σ1);
                dicts := dicts σ1 |}.
  split; [|split; [|split; [done|]]].
  - rewrite (iadd_run σ a o db) by done.
    by rewrite (iadd_fresh_loop (entries db) σ a da).
  - rewrite (iadd_run σ1 a o db) by done.
    rewrite (iadd_extend_loop (entries db) σ1 a cur1); [done| | |done].
    + simpl. apply lookup_insert_eq.
    + intros k v Hin. simpl.
      apply list_elem_of_split in Hin as (pre & post & Hsplit).
      rewrite Hsplit, app_assoc. apply dict_get_app_fresh.
      rewrite Hsplit, fmap_app in Hnd, Hfresh. simpl in Hnd, Hfresh.
      apply NoDup_app in Hnd as (_ & Hd & _).
      rewrite fmap_app, elem_of_app. intros [Hin|Hin].
      * apply (Hfresh k); [|done]. apply elem_of_app. right. left.
      * apply (Hd k Hin). left.
  - intros k l Hk. simpl.
    apply (extended_by_themselves_lookup _ _ k); [done|].
    clear -Hk. induction (entries db) as [|[k' v'] es IH]; simpl in Hk; [done|].
    destruct (decide (k = k')) as [->|?].
    + injection Hk as ->. left.
    + right. auto.
Qed.
End AccumDictSharing.

Section AccumDictScalar.
Import General General.AD Accum.
Context {K : Type} `{EqDecision K}.
Implicit Types (σ : store K) (es : list (K * value)) (k : K).

Lemma scalar_loop (op : value → value → M K value) (n f : Z) (a : loc) :
  (∀ x σ, op (VInt x) (VInt n) σ = (inr (VInt (x + f)), σ)) →
  ∀ post pre σ cur,
  dicts σ !! a = Some cur → entries cur = pre ++ post →
  NoDup (pre ++ post).*1 → int_valued post →
  for_each post.*1 (λ k,
    x ← __getitem__ a k; r ← op x (VInt n); __setitem__ a k r) σ
  = (inr (), {| lists := lists σ;
                dicts := <[a := {| entries := pre ++ (prod_map id (shift f) <$> post);
                                   accum := accum cur |}]> (dicts σ) |}).
Proof.
  intros Hop. induction post as [|[k0 v0] post IH]; intros pre σ cur Ha Hcur Hnd Hpost.
  - simpl. unfold mret, M_ret. rewrite app_nil_r in *. rewrite <- Hcur.
    destruct cur as [ces cacc]. simpl. rewrite insert_id by done. by destruct σ.
  - inversion_clear Hpost as [|? ? Hv0 Hpost']. destruct v0 as [x|]; [|done].
    assert (Hk0 : k0 ∉ pre.*1).
    { rewrite fmap_app in Hnd. apply NoDup_app in Hnd as (_ & Hd & _).
      intros Hin. apply (Hd k0 Hin). left. }
    cbn [for_each fmap list_fmap fst].
    unfold mbind at 1. unfold M_bind at 1. unfold mbind at 1. unfold M_bind at 1.
    rewrite (getitem_present σ a cur k0 (VInt x));
      [|done|rewrite Hcur; by apply dict_get_app_fresh].
    unfold mbind at 1. unfold M_bind at 1. rewrite Hop.
    rewrite (setitem_run σ a cur) by done.
    rewrite Hcur, dict_set_app_fresh by done.
    set (cur1 := {| entries := pre ++ (k0, VInt (x + f)) :: post; accum := accum cur |}).
    rewrite (IH (pre ++ [(k0, VInt (x + f))]) _ cur1).
    + simpl. rewrite insert_insert_eq. by rewrite <- app_assoc.
    + simpl. apply lookup_insert_eq.
    + simpl. by rewrite <- app_assoc.
    + rewrite <- app_assoc. simpl. rewrite fmap_app in *. done.
    + done.
Qed.

(** X19.  With a number [n] on the right, [a += n] and [a -= n] add [n] to, and
    subtract it from, the value of every key of a dictionary of integers;
    the keys, their order and the accumulator template stay as they were. *)
Theorem scalar_is_applied_to_every_value σ a da n :
  dicts σ !! a = Some da →
  NoDup (entries da).*1 → int_valued (entries da) →
  __iadd__ a (Scalar (VInt n)) σ
  = (inr a, {| lists := lists σ;
               dicts := <[a := {| entries := prod_map id (shift n) <$> entries da;
                                  accum := accum da |}]> (dicts σ) |})
  ∧ __isub__ a (Scalar (VInt n)) σ
    = (inr a, {| lists := lists σ;
                 dicts := <[a := {| entries := prod_map id (shift (- n)) <$> entries da;
                                    accum := accum da |}]> (dicts σ) |}).
Proof.
  intros Ha Hnd Hda. split.
  - unfold __iadd__. unfold mbind at 1. unfold M_bind at 1. unfold read_dict at 1.
    rewrite Ha. cbn [default from_option id]. unfold mbind at 1. unfold M_bind at 1.
    by rewrite (scalar_loop py_add n n a (λ _ _, eq_refl) (entries da) [] σ da).
  - unfold __isub__. unfold mbind at 1. unfold M_bind at 1. unfold read_dict at 1.
    rewrite Ha. cbn [default from_option id]. unfold mbind at 1. unfold M_bind at 1.
    by rewrite (scalar_loop py_sub n (- n) a (λ _ _, eq_refl) (entries da) [] σ da).
Qed.
End AccumDictScalar.

Section AccumDictNeg.
Import General General.AD Accum.
Context {K : Type} `{EqDecision K}.
Implicit Types (σ : store K) (es : list (K * value)) (k : K).

Lemma dict_set_keys k v es :
  (dict_set k v es).*1 = if bool_decide (k ∈ es.*1) then es.*1 else es.*1 ++ [k].
Proof.
  induction es as [|[k' v'] es IH]; [done|]. cbn [dict_set].
  destruct (decide (k = k')) as [->|Hne]; rewrite !fmap_cons; cbn [fst].
  - rewrite bool_decide_eq_true_2; [done|left].
  - rewrite IH. destruct (bool_decide (k ∈ es.*1)) eqn:E.
    + apply bool_decide_eq_true_1 in E. rewrite bool_decide_eq_true_2; [done|by right].
    + apply bool_decide_eq_false_1 in E.
      rewrite bool_decide_eq_false_2; [done|]. by intros [?|?]%elem_of_cons.
Qed.

Lemma dict_set_NoDup k v es : NoDup es.*1 → NoDup (dict_set k v es).*1.
Proof.
  intros Hnd. rewrite dict_set_keys. destruct (bool_decide (k ∈ es.*1)) eqn:E; [done|].
  apply bool_decide_eq_false_1 in E. apply NoDup_app. split; [done|].
  split; [|apply NoDup_singleton].
  intros x Hx ->%list_elem_of_singleton. done.
Qed.

Lemma isub_loop_shape es : ∀ σ a cur,
  dicts σ !! a = Some cur → accum cur = None → int_valued (entries cur) →
  NoDup (entries cur).*1 → int_valued es →
  ∃ final,
    for_each es (λ '(k, v),
      try_except_KeyError
        (x ← __getitem__ a k; r ← py_sub x v; __setitem__ a k r)
        (__setitem__ a k v)) σ
    = (inr (), {| lists := lists σ; dicts := <[a := final]> (dicts σ) |})
    ∧ int_valued (entries final) ∧ NoDup (entries final).*1.
Proof.
  induction es as [|[k0 v0] es IH]; intros σ a cur Ha Hacc Hcur Hnd Hes.
  - exists cur. split; [|done]. simpl. unfold mret, M_ret.
    rewrite insert_id by done. by destruct σ.
  - inversion_clear Hes as [|? ? Hv0 Hes']. destruct v0 as [y|]; [|done].
    cbn [for_each]. unfold mbind at 1. unfold M_bind at 1.
    rewrite (isub_step σ a cur k0 y) by done.
    set (cur1 := {| entries := dict_set k0 (stored_by_isub (entries cur) k0 y)
                                         (entries cur);
                    accum := None |}).
    set (σ1 := {| lists := lists σ; dicts := <[a := cur1]> (dicts σ) |}).
    destruct (IH σ1 a cur1) as (final & Hrun & Hint & Hndf);
      [apply lookup_insert_eq|done| | |done|].
    { simpl. destruct (stored_by_isub _ _ _) eqn:E.
      - by apply int_valued_set.
      - unfold stored_by_isub in E. by repeat case_match. }
    { simpl. by apply dict_set_NoDup. }
    exists final. split; [|done]. rewrite Hrun. simpl. by rewrite insert_insert_eq.
Qed.

Lemma sub_mapping σ a o da db :
  dicts σ !! a = Some da → dicts σ !! o = Some db →
  NoDup (entries da).*1 → NoDup (entries db).*1 →
  int_valued (entries da) → int_valued (entries db) →
  ∃ dnew,
    let new := fresh (dom (dicts σ)) in
    __sub__ a (Mapping o) σ
    = (inr new, {| lists := lists σ; dicts := <[new := dnew]> (dicts σ) |})
    ∧ int_valued (entries dnew) ∧ NoDup (entries dnew).*1
    ∧ ∀ k, dict_get k (entries dnew) =
           match dict_get k (entries db) with
           | Some (VInt y) => Some (stored_by_isub (entries da) k y)
           | _ => dict_get k (entries da)
           end.
Proof.
  intros Ha Ho Hnda Hndb Hda Hdb.
  set (new := fresh (dom (dicts σ))).
  assert (Hnew : dicts σ !! new = None).
  { apply not_elem_of_dom. apply is_fresh. }
  assert (new ≠ a) by congruence. assert (new ≠ o) by congruence.
  set (copy := {| entries := entries da; accum := None |}).
  set (σ1 := {| lists := lists σ; dicts := <[new := copy]> (dicts σ) |}).
  assert (Hc : dicts σ1 !! new = Some copy) by apply lookup_insert_eq.
  destruct (isub_loop (entries db) σ1 new copy) as (final & Hrun & _ & Hget);
    try done.
  destruct (isub_loop_shape (entries db) σ1 new copy)
    as (final' & Hrun' & Hint & Hndf); try done.
  assert (final' = final) as ->.
  { rewrite Hrun in Hrun'. injection Hrun' as Heq.
    apply (f_equal (λ m, m !! new)) in Heq. rewrite !lookup_insert_eq in Heq.
    congruence. }
  exists final. split; [|done].
  transitivity (__isub__ new (Mapping o) σ1).
  - unfold __sub__, __init__, mbind, M_bind, read_dict at 1, mret, M_ret, alloc_dict.
    simpl. rewrite Ha. simpl. rewrite dict_copy by done. reflexivity.
  - unfold __isub__. unfold mbind at 1. unfold M_bind at 1. unfold read_dict at 1.
    assert (Ho1 : dicts σ1 !! o = Some db) by (simpl; by rewrite lookup_insert_ne).
    rewrite Ho1. cbn [default from_option id]. unfold mbind at 1. unfold M_bind at 1.
    rewrite Hrun. simpl. by rewrite insert_insert_eq.
Qed.

Lemma comprehension_neg es : ∀ (new : list (K * value)) σ,
  int_valued es → NoDup (new.*1 ++ es.*1) →
  comprehension py_neg es new σ = (inr (new ++ (prod_map id negated <$> es)), σ).
Proof.
  induction es as [|[k v] es IH]; intros new σ Hes Hnd; simpl.
  - by rewrite app_nil_r.
  - inversion_clear Hes as [|? ? Hv Hes']. destruct v as [x|]; [|done].
    unfold mbind, M_bind. simpl. rewrite dict_set_fresh.
    + rewrite IH; [by rewrite <- app_assoc|done|].
      rewrite fmap_app. simpl. by rewrite <- app_assoc.
    + apply NoDup_app in Hnd as (_ & Hd & _). intros Hin. apply (Hd _ Hin). left.
Qed.

Lemma dict_get_negated k es :
  dict_get k (prod_map id negated <$> es) = negated <$> dict_get k es.
Proof.
  induction es as [|[k' v'] es IH]; simpl; [done|].
  by destruct (decide (k = k')).
Qed.

Lemma neg_run σ self d :
  dicts σ !! self = Some d → int_valued (entries d) → NoDup (entries d).*1 →
  ∃ new σ' dnew,
    __neg__ self σ = (inr new, σ')
    ∧ dicts σ' !! new = Some dnew
    ∧ dicts σ !! new = None
    ∧ lists σ' = lists σ
    ∧ (∀ l x, dicts σ !! l = Some x → dicts σ' !! l = Some x)
    ∧ accum dnew = None
    ∧ entries dnew = prod_map id negated <$> entries d.
Proof.
  intros Hd Hint Hnd.
  set (es := prod_map id negated <$> entries d).
  assert (Hes : NoDup es.*1).
  { unfold es. rewrite <- list_fmap_compose.
    erewrite list_fmap_ext; [exact Hnd|]. by intros ? [? ?]. }
  set (tmp := fresh (dom (dicts σ))).
  set (σ1 := {| lists := lists σ;
                dicts := <[tmp := {| entries := es; accum := None |}]> (dicts σ) |}).
  set (new := fresh (dom (dicts σ1))).
  assert (Htmp : dicts σ !! tmp = None) by (apply not_elem_of_dom, is_fresh).
  assert (Hnew : dicts σ1 !! new = None) by (apply not_elem_of_dom, is_fresh).
  assert (new ≠ tmp).
  { intros E. rewrite E in Hnew. simpl in Hnew. by rewrite lookup_insert_eq in Hnew. }
  exists new, {| lists := lists σ;
                 dicts := <[new := {| entries := es; accum := None |}]> (dicts σ1) |},
    {| entries := es; accum := None |}.
  split; [|split; [apply lookup_insert_eq|split; [|split; [done|split; [|done]]]]].
  - unfold __neg__. unfold mbind at 1. unfold M_bind at 1. unfold read_dict at 1.
    rewrite Hd. cbn [default from_option id]. unfold mbind at 1. unfold M_bind at 1.
    rewrite comprehension_neg by done. simpl.
    unfold mbind at 1. unfold M_bind at 1. unfold alloc_dict at 1.
    fold tmp. fold es. fold σ1.
    unfold __init__, mbind, M_bind, read_dict, mret, M_ret, alloc_dict. simpl.
    rewrite lookup_insert_eq. simpl. rewrite dict_copy by done. done.
  - simpl in Hnew. by rewrite lookup_insert_ne in Hnew.
  - intros l x Hl. simpl.
    assert (l ≠ tmp) by congruence.
    assert (Hl1 : dicts σ1 !! l = Some x) by (simpl; by rewrite lookup_insert_ne).
    assert (l ≠ new) by congruence.
    by rewrite !lookup_insert_ne.
Qed.

(** X20.  [b - a] with [a] an [AccumDict] and [b] a plain mapping is computed as
    [-(a - b)].  For dictionaries of integers a key of both gets
    [b[k] - a[k]] and a key of [a] only gets [-a[k]]; a key of [b] only
    gets [-b[k]], the value of [b] with its sign changed. *)
Theorem rsub_negates_values_of_new_keys σ a o da db :
  dicts σ !! a = Some da → dicts σ !! o = Some db →
  NoDup (entries da).*1 → NoDup (entries db).*1 →
  int_valued (entries da) → int_valued (entries db) →
  ∃ new σ' dnew,
    __rsub__ a (Mapping o) σ = (inr new, σ')
    ∧ dicts σ' !! new = Some dnew
    ∧ dicts σ' !! a = Some da
    ∧ reflected_subtraction_policy (entries da) (entries db) (entries dnew).
Proof.
  intros Ha Ho Hnda Hndb Hda Hdb.
  destruct (sub_mapping σ a o da db) as (dsub & Hrun & Hint & Hnd & Hget); try done.
  simpl in Hrun.
  set (r := fresh (dom (dicts σ))) in *.
  assert (Hr : dicts σ !! r = None) by (apply not_elem_of_dom, is_fresh).
  set (σ1 := {| lists := lists σ; dicts := <[r := dsub]> (dicts σ) |}) in *.
  destruct (neg_run σ1 r dsub) as (new & σ' & dnew & Hneg & Hnew & Hfresh & _ & Hkeep & _ & Hes);
    [apply lookup_insert_eq|done|done|].
  exists new, σ', dnew. split; [|split; [done|split]].
  - unfold __rsub__, mbind, M_bind. by rewrite Hrun.
  - apply Hkeep. simpl. rewrite lookup_insert_ne; [done|congruence].
  - intros k. rewrite Hes, dict_get_negated, Hget. unfold stored_by_isub.
    split; [|split; [|split]].
    + intros x y -> ->. simpl. do 2 f_equal. lia.
    + by intros x -> ->.
    + by intros y -> ->.
    + by intros -> ->.
Qed.
End AccumDictNeg.

Section SequencesFacts.
Import General General.WS Sequences.
Context {T : Type}.
Implicit Types (ws : WeightedSequence T) (l : list (WeightedSequence T)).

Lemma fold_add l : ∀ ws,
  _seq (fold_left __add__ l ws) = _seq ws ++ concat (_seq <$> l)
  ∧ weight (fold_left __add__ l ws) = weight ws + foldr Z.add 0 (weight <$> l).
Proof.
  induction l as [|x l IH]; intros ws.
  - simpl. rewrite app_nil_r. split; [done|lia].
  - rewrite !fmap_cons. cbn [fold_left concat foldr].
    destruct (IH (__add__ ws x)) as [-> ->]. unfold __add__. cbn [_seq weight].
    rewrite app_nil_l, <- app_assoc. split; [done|lia].
Qed.

(** X21.  [WeightedSequence.merge] gives a sequence with the items of the given
    sequences, in their order, whose weight is the sum of their weights;
    when each weight is the sum of the weights of the items, so is the
    weight of the result. *)
Theorem merge_concatenates l :
  _seq (merge l) = concat (_seq <$> l)
  ∧ weight (merge l) = foldr Z.add 0 (weight <$> l)
  ∧ ∀ weight_fn : T → Z,
      Forall (weight_invariant weight_fn) l →
      weight_invariant weight_fn (merge l).
Proof.
  unfold merge. destruct (fold_add l (__init__ [])) as [Hs Hw].
  split; [by rewrite Hs|]. split; [rewrite Hw; simpl; lia|].
  intros weight_fn Hall. unfold weight_invariant. rewrite Hs, Hw.
  change (_seq (__init__ [])) with (@nil T).
  change (weight (@__init__ T [])) with 0. rewrite app_nil_l, Z.add_0_l.
  clear Hs Hw. induction Hall as [|x l Hx Hl IH]; [done|].
  rewrite !fmap_cons. cbn [concat foldr]. rewrite total_weight_app.
  unfold weight_invariant in Hx. lia.
Qed.

End SequencesFacts.

Section RegistryFacts.
Import Grouping Registry.
Context {K Obj Args R : Type} `{EqDecision K}.
Implicit Types (self : CallableDict K Obj Args R) (keys : list K).

Lemma add_functions keys : ∀ self func,
  keyfunc (add self keys func) = keyfunc self
  ∧ keymissing (add self keys func) = keymissing self
  ∧ ∀ k, dget k (functions (add self keys func))
         = if bool_decide (k ∈ keys) then Some func else dget k (functions self).
Proof.
  unfold add. induction keys as [|key keys IH]; intros self func; cbn [fold_left].
  - split; [done|]. split; [done|]. intros k.
    case_bool_decide as Hk; [by apply elem_of_nil in Hk|done].
  - destruct (IH {| functions := dset key func (functions self);
                    keyfunc := keyfunc self; keymissing := keymissing self |} func)
      as (-> & -> & Hget).
    split; [done|]. split; [done|]. intros k. rewrite Hget. cbn [functions].
    destruct (decide (k = key)) as [->|Hne].
    + rewrite dget_dset_eq. rewrite (bool_decide_eq_true_2 (key ∈ key :: keys)) by left.
      by case_bool_decide.
    + rewrite dget_dset_ne by done.
      case_bool_decide as E.
      * rewrite bool_decide_eq_true_2; [done|by right].
      * rewrite bool_decide_eq_false_2; [done|].
        by intros [?|?]%elem_of_cons.
Qed.

Lemma call_after_add self keys func obj args :
  __call__ (add self keys func) obj args
  = if bool_decide (keyfunc self obj ∈ keys) then func obj args
    else __call__ self obj args.
Proof.
  destruct (add_functions keys self func) as (Hkf & Hkm & Hget).
  unfold __call__, __getitem__, __missing__. rewrite Hkf, Hkm, Hget.
  by destruct (bool_decide _).
Qed.

Lemma keyfunc_register_all regs : ∀ self,
  keyfunc (register_all self regs) = keyfunc self.
Proof.
  unfold register_all. induction regs as [|[keys f] regs IH]; intros self; [done|].
  cbn [fold_left fst snd]. rewrite IH.
  by destruct (add_functions keys self f) as (-> & _).
Qed.

(** X22.  A call on a dictionary filled by a run of registrations is a call of
    the function registered last for the key of the object.  When no
    registration names the key, the [keymissing] function is called if one
    was given, and [KeyError] is raised otherwise. *)
Theorem call_uses_last_registration (kf : Obj → K)
    (km : option (implementation Obj Args R))
    (regs : list (list K * implementation Obj Args R)) (obj : Obj) (args : Args) :
  __call__ (register_all (__init__ kf km) regs) obj args
  = match find (λ r, bool_decide (kf obj ∈ r.1)) (reverse regs) with
    | Some r => r.2 obj args
    | None => match km with
              | Some f => f obj args
              | None => inl KeyError
              end
    end.
Proof.
  induction regs as [|[keys f] regs IH] using rev_ind.
  - simpl. unfold __call__, __getitem__, __missing__. simpl. by destruct km.
  - unfold register_all in *. rewrite fold_left_app. cbn [fold_left fst snd].
    rewrite call_after_add. fold (register_all (__init__ kf km) regs).
    rewrite keyfunc_register_all. cbn [keyfunc __init__].
    rewrite reverse_app. cbn [reverse rev_append app find fst snd].
    change (rev_append [(keys, f)] []) with [(keys, f)]. cbn [app find fst].
    destruct (bool_decide (kf obj ∈ keys)); [done|]. apply IH.
Qed.
End RegistryFacts.

Section MultiIndexFacts.
Import MultiIndex.

Lemma product_spec ranges : ∀ tup,
  tup ∈ product ranges ↔ Forall2 (λ x r, x ∈ r) tup ranges.
Proof.
  induction ranges as [|r ranges IH]; intros tup; simpl.
  - rewrite list_elem_of_singleton. split; [intros ->; constructor|by inversion 1].
  - rewrite list_elem_of_bind. split.
    + intros (x & Hin & Hx). apply list_elem_of_fmap in Hin as (t & -> & Ht).
      constructor; [done|by apply IH].
    + inversion 1 as [|x ? t ? Hx Ht]; subst. exists x. split; [|done].
      apply list_elem_of_fmap. exists t. split; [done|by apply IH].
Qed.

Lemma product_length ranges :
  length (product ranges) = foldr (λ r n, length r * n)%nat 1%nat ranges.
Proof.
  induction ranges as [|r ranges IH]; simpl; [done|].
  rewrite <- IH. generalize (product ranges). intros tuples.
  induction r as [|x r IHr]; [done|].
  rewrite bind_cons, length_app, length_fmap, IHr. simpl. lia.
Qed.

Lemma ranges_spec shape tup :
  Forall2 (λ x r, x ∈ r) tup (range <$> shape)
  ↔ Forall2 (λ i s, 0 <= i < s) tup shape.
Proof.
  revert tup. induction shape as [|s shape IH]; intros tup; simpl.
  - split; inversion 1; constructor.
  - split; inversion 1 as [|x ? t ? Hx Ht]; subst; constructor;
      try (by apply IH); unfold range in *; rewrite elem_of_seqZ in *; lia.
Qed.

Lemma ranges_length shape :
  Z.of_nat (foldr (λ r n, length r * n)%nat 1%nat (range <$> shape))
  = foldr (λ s n, Z.max 0 s * n) 1 shape.
Proof.
  induction shape as [|s shape IH]; [done|].
  rewrite fmap_cons. cbn [foldr].
  rewrite Nat2Z.inj_mul, IH. unfold range. rewrite length_seqZ. lia.
Qed.

Lemma multi_index_loop_axis a tuples :
  multi_index_loop (Some a) tuples
  = ((λ tup, list_insert_at (At <$> tup) a SliceNone) <$> tuples, None).
Proof.
  induction tuples as [|tup tuples IH]; simpl; [done|]. by rewrite IH.
Qed.

Lemma not_too_big shape :
  Forall (λ s, s < TWO16) shape → existsb (λ s, s >=? TWO16) shape = false.
Proof.
  induction 1 as [|s shape Hs _ IH]; simpl; [done|]. rewrite IH.
  destruct (Z.geb_spec s TWO16); [lia|done].
Qed.

(** X23.  With an integer [axis] and every extent below [2 ** 16], [multi_index]
    yields one tuple for each way to pick an index below each extent, the
    product of the extents in all, each with [slice(None)] inserted at
    [axis], and it ends without exception. *)
Theorem multi_index_with_axis shape a :
  Forall (λ s, s < TWO16) shape →
  ∃ ys,
    multi_index shape (Some a) = (ys, None)
    ∧ len ys = foldr (λ s n, Z.max 0 s * n) 1 shape
    ∧ ∀ y, y ∈ ys ↔
           ∃ tup, Forall2 (λ i s, 0 <= i < s) tup shape
                  ∧ y = list_insert_at (At <$> tup) a SliceNone.
Proof.
  intros Hsmall. unfold multi_index. rewrite not_too_big by done.
  rewrite multi_index_loop_axis. eexists. split; [reflexivity|].
  rewrite app_nil_l. split.
  - unfold len. by rewrite length_fmap, product_length, ranges_length.
  - intros y. rewrite list_elem_of_fmap. split.
    + intros (tup & -> & Hin). exists tup. split; [|done].
      by apply ranges_spec, product_spec.
    + intros (tup & Htup & ->). exists tup. split; [done|].
      by apply product_spec, ranges_spec.
Qed.

(** X24.  Without [axis], [multi_index] always ends with an exception.  With
    every extent below [2 ** 16] it yields the tuples of indices and then
    raises [TypeError]: the loop that follows the [yield from] finds the
    generator of the ranges used up, gets the empty tuple, and inserts at
    position [None].  A shape with an extent of [2 ** 16] or more is
    refused with [ValueError] before anything is yielded, whatever [axis]
    is. *)
Theorem multi_index_without_axis_raises shape :
  (Forall (λ s, s < TWO16) shape →
   ∃ ys,
     multi_index shape None = (ys, Some TypeError)
     ∧ len ys = foldr (λ s n, Z.max 0 s * n) 1 shape
     ∧ ∀ y, y ∈ ys ↔
            ∃ tup, Forall2 (λ i s, 0 <= i < s) tup shape ∧ y = At <$> tup)
  ∧ (Exists (λ s, TWO16 <= s) shape →
     ∀ axis, multi_index shape axis = ([], Some ValueError)).
Proof.
  split.
  - intros Hsmall. unfold multi_index. rewrite not_too_big by done.
    simpl. eexists. split; [reflexivity|]. rewrite app_nil_r. split.
    + unfold len. by rewrite length_fmap, product_length, ranges_length.
    + intros y. rewrite list_elem_of_fmap. split.
      * intros (tup & -> & Hin). exists tup. split; [|done].
        by apply ranges_spec, product_spec.
      * intros (tup & Htup & ->). exists tup. split; [done|].
        by apply product_spec, ranges_spec.
  - intros Hbig axis. unfold multi_index.
    assert (existsb (λ s, s >=? TWO16) shape = true) as ->; [|done].
    induction Hbig as [s shape' Hs|s shape' _ IH]; simpl.
    + destruct (Z.geb_spec s TWO16); [done|lia].
    + rewrite IH. apply orb_true_r.
Qed.
End MultiIndexFacts.

Section SourceFilterMore.
Import Filters SourceSites.
Context `{Collaborators}.

Lemma init_without_index (sc : option SiteCollection) dist u :
  sc = None ∨ distance_bool dist = false →
  __init__ sc dist u =
  {| integration_distance := dist; sitecol := sc; use_rtree := false;
     idl := None; index := None |}.
Proof.
  intros [->|Hd]; unfold __init__.
  - simpl. by rewrite !andb_false_r.
  - rewrite Hd. simpl. rewrite andb_false_r. by destruct sc.
Qed.

Lemma filter_sources_no_distance self sites sources :
  use_rtree self = false → distance_bool (integration_distance self) = false →
  filter_sources self sites sources = (map (λ src, (src, Some sites)) sources, None).
Proof.
  intros Huse Hd. induction sources as [|src sources IH]; simpl; [done|].
  unfold filter_source. rewrite Huse, Hd. simpl. by rewrite IH.
Qed.

Lemma call_without_filtering (sc : option SiteCollection) dist u sources sites :
  sc = None ∨ distance_bool dist = false →
  __call__ (__init__ sc dist u) sources sites
  = (map (λ src, (src, match sites with None => sc | Some s => Some s end)) sources,
     None).
Proof.
  intros Hno. rewrite init_without_index by done. unfold __call__. simpl.
  destruct sc as [c|]; [|done].
  destruct Hno as [?|Hd]; [done|].
  destruct sites as [s|]; by rewrite filter_sources_no_distance.
Qed.

(** X25.  A filter made without site collection, as [source_site_noop_filter]
    is, or with a distance that is [None] or zero, filters nothing: it
    builds no index, a call yields every source as it is, in the order
    given, with the sites passed to the call, or else the site collection
    of the filter, and [get_close_sites] gives the site collection of the
    filter for every source. *)
Theorem nothing_is_filtered_without_sites_or_distance
    (sc : option SiteCollection) dist u sources sites :
  sc = None ∨ distance_bool dist = false →
  use_rtree (__init__ sc dist u) = false
  ∧ __call__ (__init__ sc dist u) sources sites
    = (map (λ src, (src, match sites with None => sc | Some s => Some s end)) sources,
       None)
  ∧ ∀ src, get_close_sites (__init__ sc dist u) src = inr sc.
Proof.
  intros Hno. split; [by rewrite init_without_index|].
  split; [by apply call_without_filtering|].
  intros src. unfold get_close_sites. by rewrite call_without_filtering.
Qed.

Lemma filter_source_same self sites src y :
  filter_source self sites src = inr (Some y) → same_source y.1 src.
Proof.
  unfold filter_source, same_source.
  destruct (use_rtree self).
  - destruct (get_affected_box self src) as [?|box]; [done|]. simpl.
    destruct (index self) as [ix|]; [|done]. simpl.
    destruct (rtree_intersection ix box) as [?|found]; [done|]. simpl.
    destruct (negb _); [|done]. by intros [= <-].
  - destruct (negb _); [by intros [= <-]|].
    destruct (get_min_max_mag src) as [?|mags]; [done|]. simpl.
    destruct (distance_call _ _ _) as [?|maxdist]; [done|]. simpl.
    destruct (filter_sites_by_distance_to_source _ _ _) as [?|[s|]]; [done| |done].
    simpl. by intros [= <-].
Qed.

Lemma filter_sources_kept self sites sources :
  ∃ kept, kept `sublist_of` sources
          ∧ Forall2 (λ y src, same_source y.1 src)
                    (filter_sources self sites sources).1 kept.
Proof.
  induction sources as [|src sources (kept & Hsub & Hall)]; simpl.
  - exists []. split; [done|constructor].
  - destruct (filter_source self sites src) as [e|[y|]] eqn:Hy.
    + exists []. split; [apply sublist_nil_l|constructor].
    + destruct (filter_sources self sites sources) as [ys e]. simpl in *.
      exists (src :: kept). split; [by apply sublist_skip|].
      constructor; [by eapply filter_source_same|done].
    + destruct (filter_sources self sites sources) as [ys e]. simpl in *.
      exists kept. split; [by apply sublist_cons|done].
Qed.

(** X26.  Whatever the mode, the sources that a call yields are sources of the
    input, in the order of the input, each at most once per occurrence:
    a yielded source differs from its input source in [nsites] at most. *)
Theorem yields_are_input_sources_in_order self sources sites :
  ∃ kept, kept `sublist_of` sources
          ∧ Forall2 (λ y src, same_source y.1 src)
                    (__call__ self sources sites).1 kept.
Proof.
  unfold __call__. destruct (sitecol self) as [sc|].
  - destruct sites; apply filter_sources_kept.
  - exists sources. split; [done|]. simpl.
    induction sources; simpl; constructor; [done|done].
Qed.

(** X27.  In indexed mode every pair that a call yields, also before an
    exception, is made of a source of the input and of the sites that the
    index finds in the affected box of that source: there is at least one,
    [nsites] is their number, and the collection holds their ids in
    ascending order, taken from the complete collection. *)
Theorem indexed_yield_counts_the_sites_found self sc sources sites :
  use_rtree self = true → sitecol self = Some sc →
  Forall (λ y, ∃ src box ix found sids,
            src ∈ sources
            ∧ get_affected_box self src = inr box
            ∧ index self = Some ix
            ∧ rtree_intersection ix box = inr found
            ∧ sids ≡ₚ found ∧ Sorted Z.le sids ∧ 1 <= len sids
            ∧ y = (set_nsites src (len sids),
                   Some (FilteredSiteCollection sids
                           (sitecol_complete (default sc sites)))))
         (__call__ self sources sites).1.
Proof.
  intros Huse Hsc. unfold __call__. rewrite Hsc.
  assert (Hrun : ∀ s,
    Forall (λ y, ∃ src box ix found sids,
              src ∈ sources
              ∧ get_affected_box self src = inr box
              ∧ index self = Some ix
              ∧ rtree_intersection ix box = inr found
              ∧ sids ≡ₚ found ∧ Sorted Z.le sids ∧ 1 <= len sids
              ∧ y = (set_nsites src (len sids),
                     Some (FilteredSiteCollection sids (sitecol_complete s))))
           (filter_sources self s sources).1).
  { intros s. induction sources as [|src sources IH]; simpl; [constructor|].
    assert (Htail : Forall (λ y, ∃ src0 box ix found sids,
              src0 ∈ src :: sources
              ∧ get_affected_box self src0 = inr box
              ∧ index self = Some ix
              ∧ rtree_intersection ix box = inr found
              ∧ sids ≡ₚ found ∧ Sorted Z.le sids ∧ 1 <= len sids
              ∧ y = (set_nsites src0 (len sids),
                     Some (FilteredSiteCollection sids (sitecol_complete s))))
           (filter_sources self s sources).1).
    { eapply Forall_impl; [exact IH|]. simpl.
      intros y (src0 & box & ix & found & sids & Hin & Hrest).
      exists src0, box, ix, found, sids. split; [by right|done]. }
    clear IH. unfold filter_source. rewrite Huse.
    destruct (get_affected_box self src) as [e|box] eqn:Hbox; simpl;
      [constructor|].
    destruct (index self) as [ix|] eqn:Hix; simpl; [|constructor].
    destruct (rtree_intersection ix box) as [e|found] eqn:Hfound; simpl;
      [constructor|].
    destruct (filter_sources self s sources) as [ys e]. simpl in *.
    destruct (len (merge_sort Z.le found) =? 0) eqn:Hlen; simpl; [done|].
    constructor; [|done].
    exists src, box, ix, found, (merge_sort Z.le found).
    split; [by left|]. split; [done|]. split; [done|]. split; [done|].
    split; [apply merge_sort_Permutation|].
    split; [apply (Sorted_merge_sort Z.le)|].
    split; [|done].
    apply Z.eqb_neq in Hlen. unfold len in *. lia. }
  destruct sites as [s|]; apply Hrun.
Qed.

Lemma Qltb_lt (a b : Q) : Qltb a b = true ↔ (a < b)%Q.
Proof.
  unfold Qltb. rewrite Qlt_alt. by destruct (a ?= b)%Q.
Qed.

Lemma Qltb_ge (a b : Q) : Qltb a b = false ↔ (b <= a)%Q.
Proof.
  rewrite <- not_true_iff_false, Qltb_lt. split.
  - apply Qnot_lt_le.
  - apply Qle_not_lt.
Qed.

(** X28.  With the date-line flag set, the box of a source whose enlarged
    bounding box has its longitudes in [-180, 180], ordered and not zero,
    is returned with longitudes above 0 and not above 360, ordered, and
    with the latitudes as they were.  A box east of longitude zero is
    returned as it is; a box west of it is moved to 180 or more; a box that
    lies on both sides of it is returned with its longitudes exchanged,
    from [max_lon] to a longitude of 180 or more.  The bounds are those
    that hold of the sums whether they are rounded or not. *)
Theorem affected_box_longitudes_under_date_line_fix
    self src maxdist (min_lon min_lat max_lon max_lat : Q) :
  idl self = Some true →
  get_maxdist self src = inr maxdist →
  get_bounding_box src maxdist = inr (min_lon, min_lat, max_lon, max_lat) →
  (-180 <= min_lon)%Q → (min_lon <= max_lon)%Q → (max_lon <= 180)%Q →
  ¬ (min_lon == 0)%Q → ¬ (max_lon == 0)%Q →
  ∃ lo hi,
    get_affected_box self src = inr (Some (lo, min_lat, hi, max_lat))
    ∧ (0 < lo)%Q ∧ (lo <= hi)%Q ∧ (hi <= 360)%Q
    ∧ ((min_lon < 0)%Q → (0 < max_lon)%Q → lo = max_lon ∧ (180 <= hi)%Q)
    ∧ ((max_lon < 0)%Q → (180 <= lo)%Q)
    ∧ ((0 < min_lon)%Q → lo = min_lon ∧ hi = max_lon).
Proof.
  intros Hidl Hmax Hbox Hlo Hle Hhi Hmin0 Hmax0.
  assert (Hcases : (min_lon < 0 ∨ 0 < min_lon)%Q).
  { destruct (Q_dec min_lon 0) as [[?|?]|?]; [by left|by right|done]. }
  assert (Hcases' : (max_lon < 0 ∨ 0 < max_lon)%Q).
  { destruct (Q_dec max_lon 0) as [[?|?]|?]; [by left|by right|done]. }
  unfold get_affected_box. rewrite Hmax. simpl. rewrite Hbox. simpl. rewrite Hidl.
  destruct (Qltb min_lon 0) eqn:E1; destruct (Qltb 0 max_lon) eqn:E2; simpl.
  - apply Qltb_lt in E1, E2. eexists _, _. split; [reflexivity|].
    repeat split; lra.
  - apply Qltb_lt in E1. apply Qltb_ge in E2.
    assert (E3 : Qltb max_lon 0 = true) by (apply Qltb_lt; lra).
    rewrite E3. apply Qltb_lt in E3. eexists _, _. split; [reflexivity|].
    repeat split; lra.
  - apply Qltb_ge in E1. apply Qltb_lt in E2.
    assert (E3 : Qltb 0 min_lon = true) by (apply Qltb_lt; lra).
    rewrite E3. simpl. apply Qltb_lt in E3. eexists _, _. split; [reflexivity|].
    repeat split; lra.
  - exfalso. apply Qltb_ge in E1, E2. lra.
Qed.

(** X29.  A filter restored from its pickled state has no index and no
    date-line flag; it keeps the distance and the site collection.
    [get_affected_box] and [get_rectangle] read the flag, so on a restored
    filter they raise [AttributeError] once the bounding box is computed. *)
Theorem restored_filter_has_no_affected_box self src maxdist b :
  get_maxdist self src = inr maxdist →
  get_bounding_box src maxdist = inr b →
  let restored := __getstate__ self in
  use_rtree restored = false ∧ idl restored = None ∧ index restored = None
  ∧ integration_distance restored = integration_distance self
  ∧ sitecol restored = sitecol self
  ∧ get_affected_box restored src
    = inl (AttributeError "'SourceFilter' object has no attribute 'idl'")
  ∧ get_rectangle restored src
    = inl (AttributeError "'SourceFilter' object has no attribute 'idl'").
Proof.
  intros Hmax Hbox restored.
  assert (Hr : restored = {| integration_distance := integration_distance self;
                             sitecol := sitecol self; use_rtree := false;
                             idl := None; index := None |}) by reflexivity.
  assert (Hbx : get_affected_box restored src
                = inl (AttributeError "'SourceFilter' object has no attribute 'idl'")).
  { rewrite Hr. unfold get_affected_box, get_maxdist in *. simpl.
    destruct (distance_getitem _ _) as [e|d].
    - destruct (decide _); [|done]. injection Hmax as <-. simpl. rewrite Hbox.
      by destruct b as [[[? ?] ?] ?].
    - injection Hmax as <-. simpl. rewrite Hbox. by destruct b as [[[? ?] ?] ?]. }
  rewrite Hr at 1 2 3 4 5. simpl. repeat (split; [done|]).
  unfold get_rectangle. by rewrite Hbx.
Qed.
End SourceFilterMore.

Section RecordsFacts.
Import General Grouping Records.

Context {A K V : Type} `{EqDecision K}.
Variable lt : K → K → bool.
Hypothesis lt_irrefl : ∀ x, lt x x = false.
Hypothesis lt_trans : ∀ x y z, lt x y = true → lt y z = true → lt x z = true.
Hypothesis lt_total : ∀ x y, x ≠ y → lt x y = true ∨ lt y x = true.

(** X30.  [groupby2] lists one pair for each key that occurs, with the values of
    the records of that key in the order of the input; the pairs are in
    increasing order of the keys. *)
Theorem groupby2_pairs (records : list A) (kgetter : A → K) (vgetter : A → V) :
  StronglySorted (λ a b, lt a b = true) (groupby2 lt records kgetter vgetter).*1
  ∧ ∀ k vs, (k, vs) ∈ groupby2 lt records kgetter vgetter ↔
            vs = vgetter <$> filter (λ r, kgetter r = k) records ∧ vs ≠ [].
Proof.
  unfold groupby2. cbv zeta.
  pose proof (groupby_keys_sorted lt kgetter lt_irrefl lt_trans lt_total records
                (λ rows, vgetter <$> rows)) as Hsorted.
  split; [done|]. intros k vs.
  rewrite elem_of_dget by (by eapply lt_sorted_NoDup).
  rewrite groupby_lookup by done.
  destruct (filter _ records) as [|r rs]; simpl.
  - split; [done|]. by intros [-> ?].
  - split; [by intros [= <-]|]. by intros [-> _].
Qed.
End RecordsFacts.

(** ** The properties above on concrete inputs *)

Section MoreExamples.
Import General General.WS General.AD Examples MoreExamples.
Import Slices Keys Grouping Partition Indices Accum Sequences Records.

Ltac evaluate :=
  match goal with
  | |- ?P => apply (bool_decide_unpack P); vm_compute; exact I
  end.

Lemma Zltb_trans x y z : (x <? y) = true → (y <? z) = true → (x <? z) = true.
Proof. rewrite !Z.ltb_lt. lia. Qed.

Lemma Zltb_total x y : x ≠ y → (x <? y) = true ∨ (y <? x) = true.
Proof. rewrite !Z.ltb_lt. lia. Qed.

Lemma split_in_slices_is_gen_slices_witness :
  let q := mkfloat (2 ^ 52) 1 in
  int_true_divide (2 ^ 53 + 1) 1 = inr q
  ∧ split_in_slices 2 (2 ^ 53 + 1) 1
    = (λ r, inr r.1) <$> gen_slices 2 0 (2 ^ 53 + 1) (math_ceil q).
Proof.
  intros q.
  assert (Hq : int_true_divide (2 ^ 53 + 1) 1 = inr q) by (vm_compute; reflexivity).
  split; [exact Hq|].
  apply (split_in_slices_is_gen_slices 2 (2 ^ 53 + 1) 1 q);
    [reflexivity|reflexivity|exact Hq|reflexivity].
Defined.

Lemma gen_slices_spec_witness :
  ∃ slices, gen_slices 5 1 6 2 = Some (slices, None) ∧ chained 1 slices 6.
Proof.
  destruct (gen_slices_spec 5 1 6 2) as (slices & Hrun & _ & Hch & _);
    [lia|lia|simpl; lia|lia|].
  exists slices. split; [exact Hrun|]. apply Hch. lia.
Defined.

Lemma groupby_classes_witness :
  StronglySorted (λ a b, (a <? b) = true) (groupby Z.ltb parity [3; 1; 2] id).*1.
Proof.
  exact (proj1 (proj2 (groupby_classes Z.ltb parity Z.ltb_irrefl Zltb_trans
                         Zltb_total [3; 1; 2] id))).
Defined.

Lemma block_splitter_conserves_witness :
  ∃ chunks,
    block_splitter 0 3 id (λ _, 0) [1; 2; 3] = (chunks, None)
    ∧ chunks_weight chunks = total_weight id [1; 2; 3].
Proof.
  destruct (block_splitter_conserves 0 3 id (λ _ : Z, 0) [1; 2; 3])
    as (chunks & Hrun & Hw & _); [lia| |].
  - intros x Hx. rewrite !elem_of_cons, elem_of_nil in Hx. unfold id. lia.
  - exists chunks. split; [exact Hrun|exact Hw].
Defined.

Lemma block_splitter_negative_weight_witness :
  ∃ chunks, block_splitter 0 3 id (λ _, 0) ([1] ++ -1 :: [2])
            = (chunks, Some ValueError).
Proof.
  destruct (block_splitter_negative_weight 0 3 id (λ _ : Z, 0) [1] (-1) [2])
    as (chunks & last & Hrun & _); [lia| |unfold id; lia|].
  - intros y Hy. rewrite !elem_of_cons, elem_of_nil in Hy. unfold id. lia.
  - exists chunks. exact Hrun.
Defined.

Lemma block_splitter_equal_chunks_witness :
  ∃ chunks,
    block_splitter 0 2 (λ _ : Z, 1) (λ _, 0) [1; 2; 3] = (chunks, None)
    ∧ concat (_seq <$> chunks) = [1; 2; 3].
Proof.
  destruct (block_splitter_equal_chunks 0 2 [1; 2; 3])
    as (chunks & Hrun & Hcat & _); [lia|].
  exists chunks. split; [exact Hrun|exact Hcat].
Defined.

Lemma split_in_blocks_balanced_witness :
  ∃ chunks,
    split_in_blocks 0 Z.ltb 0 (Items [3; 1; 2]) 2 id None
      = Some (inr (Chunks (chunks, None)))
    ∧ Forall (within_bound id (ceil_div (total_weight id [3; 1; 2]) 2)) chunks
    ∧ concat (_seq <$> chunks) `sublist_of` [1; 2; 3].
Proof.
  destruct (split_in_blocks_balanced 0 Z.ltb id 0%nat [3; 1; 2] 2 None)
    as (chunks & Hrun & Hbound & _ & Hsorted & _);
    [split; [lia|discriminate]| |split; [reflexivity|discriminate]|].
  - intros x Hx. rewrite !elem_of_cons, elem_of_nil in Hx. unfold id. lia.
  - exists chunks. split; [exact Hrun|]. split; [exact Hbound|exact Hsorted].
Defined.

Lemma split_in_blocks_zero_total_witness :
  split_in_blocks 0 Z.ltb 0 (Items [1]) 2 (λ _ : Z, 0) None
  = Some (inr (Chunks ([], Some ValueError))).
Proof.
  exact (split_in_blocks_zero_total 0 Z.ltb (λ _ : Z, 0) 0%nat [1] 2 None
           ltac:(lia) ltac:(discriminate) eq_refl).
Defined.

Lemma split_in_blocks_by_key_witness :
  ∃ keys,
    split_in_blocks 0 Z.ltb 0 (Items [3; 1; 2]) 1 id (Some parity)
      = Some (inr (Groups ((λ k, filter (λ x, parity x = k) [3; 1; 2]) <$> keys))).
Proof.
  destruct (split_in_blocks_by_key 0 Z.ltb id Z.ltb_irrefl Zltb_trans Zltb_total
              0%nat [3; 1; 2] 1 parity) as (keys & Hrun & _); [by right|].
  exists keys. exact Hrun.
Defined.

Lemma iadd_adds_by_key_witness :
  ∃ σ' da',
    __iadd__ 1%positive (Mapping 2%positive) two_numbers = (inr 1%positive, σ')
    ∧ dicts σ' !! 1%positive = Some da'
    ∧ addition_policy (entries a_entries) (entries b_entries) (entries da').
Proof.
  destruct (iadd_adds_by_key two_numbers 1%positive 2%positive a_entries b_entries)
    as (σ' & da' & Hrun & Hd & _ & _ & Hpol);
    [reflexivity|reflexivity|repeat constructor|repeat constructor| |].
  - evaluate.
  - exists σ', da'. split; [exact Hrun|]. split; [exact Hd|exact Hpol].
Defined.

Lemma add_adds_by_key_and_drops_template_witness :
  ∃ new σ' dnew,
    __add__ 1%positive (Mapping 2%positive) two_numbers = (inr new, σ')
    ∧ dicts σ' !! new = Some dnew
    ∧ addition_policy (entries a_entries) (entries b_entries) (entries dnew).
Proof.
  destruct (add_adds_by_key_and_drops_template two_numbers 1%positive 2%positive
              a_entries b_entries)
    as (new & σ' & dnew & Hrun & _ & Hd & _ & _ & Hpol & _);
    [reflexivity|reflexivity| | |repeat constructor|repeat constructor|].
  - evaluate.
  - evaluate.
  - exists new, σ', dnew. split; [exact Hrun|]. split; [exact Hd|exact Hpol].
Defined.

Lemma add_commutes_on_integers_witness :
  ∃ ab ba σ1 σ2 dab dba,
    __add__ 1%positive (Mapping 2%positive) two_numbers = (inr ab, σ1)
    ∧ __add__ 2%positive (Mapping 1%positive) two_numbers = (inr ba, σ2)
    ∧ dicts σ1 !! ab = Some dab
    ∧ dicts σ2 !! ba = Some dba
    ∧ ∀ k, dict_get k (entries dab) = dict_get k (entries dba).
Proof.
  apply (add_commutes_on_integers two_numbers 1%positive 2%positive
           a_entries b_entries);
    [reflexivity|reflexivity| | |repeat constructor|repeat constructor].
  - evaluate.
  - evaluate.
Defined.

Lemma number_and_list_new_keys k :
  k ∈ [("y", VList 1%positive)].*1 → k ∉ [("x", VInt 5)].*1.
Proof.
  simpl. intros ->%list_elem_of_singleton Hin%list_elem_of_singleton. done.
Qed.

Lemma iadd_shares_values_of_new_keys_witness :
  __iadd__ 1%positive (Mapping 2%positive) number_and_list
  = (inr 1%positive,
     {| lists := lists number_and_list;
        dicts := <[1%positive := {| entries := [("x", VInt 5)]
                                               ++ [("y", VList 1%positive)];
                                    accum := None |}]>
                   (dicts number_and_list) |}).
Proof.
  apply (iadd_shares_values_of_new_keys number_and_list 1%positive 2%positive
           {| entries := [("x", VInt 5)]; accum := None |}
           {| entries := [("y", VList 1%positive)]; accum := None |});
    [reflexivity|reflexivity| |exact number_and_list_new_keys].
  evaluate.
Defined.

Lemma iadd_twice_doubles_lists_of_right_operand_witness :
  ∃ σ1 σ2,
    __iadd__ 1%positive (Mapping 2%positive) number_and_list = (inr 1%positive, σ1)
    ∧ __iadd__ 1%positive (Mapping 2%positive) σ1 = (inr 1%positive, σ2)
    ∧ lists σ2 !! 1%positive = Some ([1] ++ [1]).
Proof.
  destruct (iadd_twice_doubles_lists_of_right_operand number_and_list
              1%positive 2%positive
              {| entries := [("x", VInt 5)]; accum := None |}
              {| entries := [("y", VList 1%positive)]; accum := None |})
    as (σ1 & σ2 & Hrun1 & Hrun2 & _ & Hlists);
    [reflexivity|reflexivity|discriminate| |apply NoDup_singleton
     |exact number_and_list_new_keys|repeat constructor|].
  - evaluate.
  - exists σ1, σ2. split; [exact Hrun1|]. split; [exact Hrun2|].
    exact (Hlists "y" 1%positive eq_refl).
Defined.

Lemma scalar_is_applied_to_every_value_witness :
  __iadd__ 1%positive (Scalar (VInt 3)) two_numbers
  = (inr 1%positive,
     {| lists := lists two_numbers;
        dicts := <[1%positive := {| entries := prod_map id (shift 3)
                                                 <$> entries a_entries;
                                    accum := accum a_entries |}]>
                   (dicts two_numbers) |}).
Proof.
  refine (proj1 (scalar_is_applied_to_every_value two_numbers 1%positive
                   a_entries 3 _ _ _));
    [reflexivity| |repeat constructor].
  evaluate.
Defined.

Lemma rsub_negates_values_of_new_keys_witness :
  ∃ new σ' dnew,
    __rsub__ 1%positive (Mapping 2%positive) two_numbers = (inr new, σ')
    ∧ dicts σ' !! new = Some dnew
    ∧ reflected_subtraction_policy (entries a_entries) (entries b_entries)
        (entries dnew).
Proof.
  destruct (rsub_negates_values_of_new_keys two_numbers 1%positive 2%positive
              a_entries b_entries)
    as (new & σ' & dnew & Hrun & Hd & _ & Hpol);
    [reflexivity|reflexivity| | |repeat constructor|repeat constructor|].
  - evaluate.
  - evaluate.
  - exists new, σ', dnew. split; [exact Hrun|]. split; [exact Hd|exact Hpol].
Defined.

Lemma multi_index_with_axis_witness :
  ∃ ys, MultiIndex.multi_index [2; 3] (Some 1) = (ys, None) ∧ len ys = 6.
Proof.
  destruct (multi_index_with_axis [2; 3] 1) as (ys & Hrun & Hlen & _).
  - repeat constructor.
  - exists ys. split; [exact Hrun|exact Hlen].
Defined.

Lemma multi_index_without_axis_raises_witness :
  ∃ ys, MultiIndex.multi_index [2; 3] None = (ys, Some TypeError) ∧ len ys = 6.
Proof.
  destruct (proj1 (multi_index_without_axis_raises [2; 3])) as (ys & Hrun & Hlen & _).
  - repeat constructor.
  - exists ys. split; [exact Hrun|exact Hlen].
Defined.

Lemma groupby2_pairs_witness :
  StronglySorted (λ a b, (a <? b) = true)
    (groupby2 Z.ltb [3; 1; 2] parity id).*1.
Proof.
  exact (proj1 (groupby2_pairs Z.ltb Z.ltb_irrefl Zltb_trans Zltb_total
                  [3; 1; 2] parity id)).
Defined.

End MoreExamples.

Section MoreFilterExamples.
Import Filters Examples MoreExamples SourceSites.

Lemma nothing_is_filtered_without_sites_or_distance_witness :
  __call__ source_site_noop_filter [src_origin] None = ([(src_origin, None)], None).
Proof.
  exact (proj1 (proj2 (nothing_is_filtered_without_sites_or_distance
                         (H := Planar.planar) None DNone true [src_origin] None
                         (or_introl eq_refl)))).
Defined.

Lemma indexed_yield_counts_the_sites_found_witness :
  let self := __init__ (Some corner_site) within_4 true in
  (__call__ self [src_origin; src_lon_4] None).1
  = [(set_nsites src_origin 1,
      Some (FilteredSiteCollection [0] (sitecol_complete corner_site)));
     (set_nsites src_lon_4 1,
      Some (FilteredSiteCollection [0] (sitecol_complete corner_site)))]
  ∧ Forall (λ y, ∃ src sids,
              src ∈ [src_origin; src_lon_4] ∧ 1 <= len sids
              ∧ y = (set_nsites src (len sids),
                     Some (FilteredSiteCollection sids
                             (sitecol_complete corner_site))))
           (__call__ self [src_origin; src_lon_4] None).1.
Proof.
  intros self. split; [reflexivity|].
  eapply Forall_impl;
    [exact (indexed_yield_counts_the_sites_found
              (H := Planar.planar) self corner_site [src_origin; src_lon_4] None
              eq_refl eq_refl)|].
  intros y (src & box & ix & found & sids & Hin & _ & _ & _ & _ & _ & Hlen & Hy).
  exists src, sids. split; [exact Hin|]. split; [exact Hlen|exact Hy].
Defined.

Lemma affected_box_longitudes_under_date_line_fix_witness :
  let self := __init__ (Some date_line_sites) within_4 true in
  ∃ lo hi,
    get_affected_box self src_lon_1 = inr (Some (lo, (0 - 4)%Q, hi, (0 + 4)%Q))
    ∧ (0 < lo)%Q ∧ (lo <= hi)%Q ∧ (hi <= 360)%Q.
Proof.
  intros self.
  destruct (affected_box_longitudes_under_date_line_fix
              (H := Planar.planar) self src_lon_1 (DScalar 4)
              (1 - 4)%Q (0 - 4)%Q (1 + 4)%Q (0 + 4)%Q)
    as (lo & hi & Hbox & H1 & H2 & H3 & _);
    [reflexivity|reflexivity|reflexivity|
     unfold Qle; simpl; lia|unfold Qle; simpl; lia|unfold Qle; simpl; lia|
     unfold Qeq; simpl; lia|unfold Qeq; simpl; lia|].
  exists lo, hi. split; [exact Hbox|]. split; [exact H1|]. split; [exact H2|exact H3].
Defined.

Lemma restored_filter_has_no_affected_box_witness :
  let self := __init__ (Some corner_site) within_4 true in
  get_affected_box (__getstate__ self) src_origin
  = inl (AttributeError "'SourceFilter' object has no attribute 'idl'").
Proof.
  intros self.
  destruct (restored_filter_has_no_affected_box
              (H := Planar.planar) self
              src_origin (DScalar 4) (0 - 4, 0 - 4, 0 + 4, 0 + 4)%Q
              eq_refl eq_refl)
    as (_ & _ & _ & _ & _ & Hbox & _).
  exact Hbox.
Defined.
End MoreFilterExamples.
